(** * mock_data_generator: point capture on a time grid and wide-to-long reshape

    A shallow embedding of [mock_data_generator/util.py], [artist.py] and
    [reshaper.py], and of the reading of the constants in [main.py],
    followed by the properties of the capture state machine and of the
    reshape algorithm.

    Conventions of the embedding.
    - A [pd.Timestamp] is its number of nanoseconds since the epoch and a
      [pd.Timedelta] a number of nanoseconds, both in [Z]; a time zone is
      its offset from UTC in seconds, constant over the session.  Fixed
      frequencies advance in absolute time, as they do in UTC (the default
      time zone of the command line) and in every zone without a clock
      change inside the range.  The 64-bit bounds of pandas are modelled
      where a click can reach them (the distance of a click to the grid),
      and not on the timestamps of the grid.
    - Python floats are a type [Y] with the operations the code uses
      ([FloatOps]); [Binary64] instantiates them with IEEE doubles, as the
      program computes, and [QcFloat] with exact rationals.
    - Console input and printed text are threaded through a [world]; what a
      Python call can raise is an [exn] in a [result].
    - The matplotlib calls draw and hold no state the algorithms read; they
      are left out. *)

From Stdlib Require Import ZArith Bool Lia String Ascii QArith Qround Qcanon List.
From Stdlib Require Import Sorting.Sorted Sorting.Permutation.
From Stdlib Require Import DecimalString.
From Stdlib Require PrimFloat FloatOps SpecFloat Uint63.
Import ListNotations.
Open Scope Z_scope.

(** ** Exceptions and results *)

Inductive exn : Type :=
| IndexError
| KeyError
| ValueError
| TypeError
| ZeroDivisionError
| EOFError
| RecursionError
| OverflowError
| OSError
| OutOfBoundsDatetime.

Inductive result (A : Type) : Type :=
| Ok (a : A)
| Raise (e : exn).

Arguments Ok {A} a.
Arguments Raise {A} e.

Definition rbind {A B : Type} (r : result A) (k : A -> result B) : result B :=
  match r with
  | Ok a => k a
  | Raise e => Raise e
  end.

Declare Scope result_scope.
Delimit Scope result_scope with result.
Notation "'let?' x ':=' r 'in' k" := (rbind r (fun x => k))
  (at level 10, x pattern, r at level 100, k at level 200) : result_scope.

(** ** Console: input lines, printed messages, and the frame operations run *)

(** What the program prints, by the [print] call that emits it. *)
Inductive message : Type :=
| MustProvide                          (* util.py: "You must provide a response to this prompt!" *)
| NotMet                               (* util.py: "Response did not meet conditions.  Please try again..." *)
| ColumnsNotFound (missing : list string) (* reshaper.py: f"Columns not found: {missing_cols}" *)
| InvalidPoints.                       (* artist.py: "Received invalid points" *)

(** An observable step of a run: a printed message, or the execution of
    [pd.melt] (on the listed value columns) or of [DataFrame.merge]. *)
Inductive event : Type :=
| Print (m : message)
| Melt (value_vars : list string)
| Merge.

Record world : Type := mkWorld {
  stdin : list string;   (* the lines still to be read by [input] *)
  trace : list event     (* what has happened so far, oldest first *)
}.

Definition io (A : Type) : Type := world -> result A * world.

Definition ret {A : Type} (a : A) : io A := fun w => (Ok a, w).

Definition bind {A B : Type} (m : io A) (k : A -> io B) : io B :=
  fun w =>
    match m w with
    | (Ok a, w') => k a w'
    | (Raise e, w') => (Raise e, w')
    end.

Definition lift {A : Type} (r : result A) : io A := fun w => (r, w).

Declare Scope io_scope.
Delimit Scope io_scope with io.
Notation "x <- m ;; k" := (bind m (fun x => k))
  (at level 100, m at next level, right associativity) : io_scope.
Notation "m ;;; k" := (bind m (fun _ => k))
  (at level 100, right associativity) : io_scope.

Definition emit (e : event) : io unit :=
  fun w => (Ok tt, mkWorld (stdin w) (trace w ++ [e])).

Definition print (m : message) : io unit := emit (Print m).

(** [input(prompt)]: the next line, or [EOFError] at the end of the input.
    The prompt text is written to the terminal and is not tracked. *)
Definition input : io string :=
  fun w =>
    match stdin w with
    | [] => (Raise EOFError, w)
    | line :: rest => (Ok line, mkWorld rest (trace w))
    end.

(** ** util.py *)

Definition nonempty (s : string) : bool :=
  match s with
  | EmptyString => false
  | String _ _ => true
  end.

(** [get_response] and [_get_response] call each other; every round trip
    reads one line.  The recursion is written on a bound [fuel] that
    [get_response] below sets from the number of lines left. *)
Fixpoint get_response_fuel (fuel : nat) (default : string) (allow_empty : bool)
    (condition : option (string -> io bool)) {struct fuel} : world -> option (result string * world) :=
  fun w =>
  match fuel with
  | O => None
  | S fuel' =>
      match _get_response_fuel fuel' default allow_empty w with
      | None => None
      | Some (Raise e, w1) => Some (Raise e, w1)
      | Some (Ok initial_response, w1) =>
          match condition with
          | None => Some (Ok initial_response, w1)
          | Some cond =>
              match cond initial_response w1 with
              | (Raise e, w2) => Some (Raise e, w2)
              | (Ok true, w2) => Some (Ok initial_response, w2)
              | (Ok false, w2) =>
                  match print NotMet w2 with
                  | (Raise e, w3) => Some (Raise e, w3)
                  | (Ok _, w3) => get_response_fuel fuel' default allow_empty condition w3
                  end
              end
          end
      end
  end
with _get_response_fuel (fuel : nat) (default : string) (allow_empty : bool)
    {struct fuel} : world -> option (result string * world) :=
  fun w =>
  match fuel with
  | O => None
  | S fuel' =>
      match input w with
      | (Raise e, w1) => Some (Raise e, w1)
      | (Ok response, w1) =>
          if nonempty response then Some (Ok response, w1)
          else if nonempty default then Some (Ok default, w1)
          else if negb allow_empty then
            match print MustProvide w1 with
            | (Raise e, w2) => Some (Raise e, w2)
            | (Ok _, w2) => get_response_fuel fuel' default allow_empty None w2
            end
          else Some (Ok EmptyString, w1)
      end
  end.

(** Two calls per line read, and two more to find the input exhausted. *)
Definition enough_fuel (w : world) : nat := (2 * List.length (stdin w) + 2)%nat.

Definition get_response (default : string) (allow_empty : bool)
    (condition : option (string -> io bool)) : io string :=
  fun w =>
    match get_response_fuel (enough_fuel w) default allow_empty condition w with
    | Some r => r
    | None => (Raise RecursionError, w)
    end.

(** ** What a computation does to the console

    [runs m P Q]: from any world, [m] appends to the trace only events
    that satisfy [P], does not lengthen the input, and returns only values
    that satisfy [Q]. *)
Definition runs {A : Type} (m : io A) (P : event -> Prop) (Q : A -> Prop) : Prop :=
  forall w,
    exists evs,
      trace (snd (m w)) = trace w ++ evs /\
      Forall P evs /\
      (List.length (stdin (snd (m w))) <= List.length (stdin w))%nat /\
      forall a, fst (m w) = Ok a -> Q a.

(** The validity test of [get_response] accepts only responses in [Q]. *)
Definition accepts (condition : option (string -> io bool))
    (P : event -> Prop) (Q : string -> Prop) : Prop :=
  match condition with
  | None => forall s, Q s
  | Some cond => forall s, runs (cond s) P (fun ok => ok = true -> Q s)
  end.

(** What a call that ends leaves behind: the events it added satisfy [P],
    the input did not grow, and a returned value took at least one line
    and satisfies [Q]. *)
Definition leaves {A : Type} (w : world) (x : result A * world)
    (P : event -> Prop) (Q : A -> Prop) : Prop :=
  exists evs,
    trace (snd x) = trace w ++ evs /\
    Forall P evs /\
    (List.length (stdin (snd x)) <= List.length (stdin w))%nat /\
    forall a, fst x = Ok a ->
      (List.length (stdin (snd x)) < List.length (stdin w))%nat /\ Q a.

(** ** pandas and Python built-ins used by artist.py *)

Definition second : Z := 1000000000.

(** Python's [-(-a // s)]: the quotient rounded up. *)
Definition ceil_div (a s : Z) : Z := - ((- a) / s).

(** The [n] values [b + i*s], [b + (i+1)*s], ... *)
Definition progression (b s : Z) (i n : nat) : list Z :=
  map (fun k => b + Z.of_nat k * s) (seq i n).

(** [np.arange(b, e, s)] on integers. *)
Definition arange (b e s : Z) : list Z :=
  progression b s 0 (Z.to_nat (ceil_div (e - b) s)).

(** pandas' [generate_regular_range] for a fixed frequency of [stride]
    nanoseconds between two given end points. *)
Definition generate_regular_range (istart iend stride : Z) : list Z :=
  let b := istart in
  let e := b + (iend - b) / stride * stride + stride / 2 + 1 in
  arange b e stride.

Inductive inclusive : Type := Both | Left.

Definition drop_right_end (iend : Z) (values : list Z) : list Z :=
  match rev values with
  | [] => values
  | x :: _ => if x =? iend then removelast values else values
  end.

(** [pd.date_range(start, end, freq=freq, inclusive=incl)]. *)
Definition date_range (start end_ freq : Z) (incl : inclusive) : result (list Z) :=
  if freq =? 0 then Raise ZeroDivisionError
  else
    let values := generate_regular_range start end_ freq in
    Ok (match incl with
        | Both => values
        | Left => drop_right_end end_ values
        end).

Section Sorting.
Context {A : Type} (leb : A -> A -> bool).

Fixpoint insert_by (a : A) (l : list A) : list A :=
  match l with
  | [] => [a]
  | b :: l' => if leb a b then a :: b :: l' else b :: insert_by a l'
  end.

(** A stable sort by [leb]: an element stays before the later ones that
    are not smaller. *)
Fixpoint sort_by (l : list A) : list A :=
  match l with
  | [] => []
  | a :: l' => insert_by a (sort_by l')
  end.
End Sorting.

(** [sorted(l, key=key)], with keys in [Z]. *)
Definition sorted {A : Type} (key : A -> Z) (l : list A) : list A :=
  sort_by (fun a b => key a <=? key b) l.

(** The first element has the least key. *)
Definition head_least {A : Type} (key : A -> Z) (l : list A) : Prop :=
  match l with
  | [] => True
  | t :: _ => forall x, In x l -> key t <= key x
  end.

(** [l[-1]] *)
Definition last_item {A : Type} (l : list A) : result A :=
  match rev l with
  | [] => Raise IndexError
  | x :: _ => Ok x
  end.

(** [l[0]] *)
Definition first_item {A : Type} (l : list A) : result A :=
  match l with
  | [] => Raise IndexError
  | x :: _ => Ok x
  end.

(** ** artist.py *)

(** The float operations of [plot_selection] and [get_target_x_coord]. *)
Class FloatOps (Y : Type) : Type := {
  fsub : Y -> Y -> Y;
  fmul : Y -> Y -> Y;
  (** [a / b]; [None] when Python raises ZeroDivisionError *)
  fdiv : Y -> Y -> option Y;
  feqb : Y -> Y -> bool;
  fleb : Y -> Y -> bool;
  (** [d.total_seconds() / 60] for a Timedelta [d] *)
  total_minutes : Z -> Y;
  (** [float(n)] for an integer, as in [x * 60] *)
  of_int : Z -> Y;
  (** The first step of [time.gmtime(secs)] on a float: the number of
      seconds as a C [time_t], rounded down; ValueError for NaN,
      OverflowError outside the range of [time_t] *)
  to_time_t : Y -> result Z
}.

(** The seconds since the epoch that [gmtime] of C can break down into a
    [struct tm] (glibc on 64 bits): the year must fit an [int]. *)
Definition gmtime_min : Z := -67768040609740800.
Definition gmtime_max : Z := 67768036191676799.

(** The seconds since the epoch of 0001-01-01 00:00:00 and of
    9999-12-31 23:59:59, the bounds of [datetime]. *)
Definition datetime_min : Z := -62135596800.
Definition datetime_max : Z := 253402300799.

Definition fits_int64 (v : Z) : bool :=
  (- 2 ^ 63 <? v) && (v <? 2 ^ 63).

(** A number of seconds rounded down, as a [time_t] of 64 bits: CPython
    raises OverflowError beyond 2^63 in absolute value. *)
Definition time_t_of_floor (n : Z) : result Z :=
  if (- 2 ^ 63 <=? n) && (n <=? 2 ^ 63) then Ok n else Raise OverflowError.

(** [pd.Timestamp(year=..., month=..., day=..., hour=..., minute=...,
    second=..., tz=tz)] on the fields of a [struct_time]: the wall clock
    that reads [wall] seconds since the epoch in UTC, taken as a time of the
    zone [tz].  The year must be one of [datetime]; pandas 2 keeps such a
    Timestamp at the resolution of microseconds, whatever the year. *)
Definition Timestamp_in_zone (wall tz : Z) : result Z :=
  if (datetime_min <=? wall) && (wall <=? datetime_max)
  then Ok ((wall - tz) * second)
  else Raise ValueError.

(** [x - x_pd] for a grid timestamp [x] and the timestamp [x_pd] of a
    click: pandas brings both to nanoseconds and raises when [x_pd] or the
    difference does not fit 64 bits. *)
Definition timestamp_sub (x x_pd : Z) : result Z :=
  if fits_int64 x_pd && fits_int64 (x - x_pd) then Ok (x - x_pd)
  else Raise OutOfBoundsDatetime.

(** The keys [abs(x - x_pd)] that [sorted] computes before it sorts: the
    first that raises ends the call. *)
Fixpoint distances (x_pd : Z) (l : list Z) : result (list Z) :=
  match l with
  | [] => Ok []
  | x :: l' =>
      (let? d := timestamp_sub x x_pd in
       let? ds := distances x_pd l' in
       Ok (Z.abs d :: ds))%result
  end.

Section Artist.
Context {Y : Type} `{FloatOps Y}.

Record Point : Type := mkPoint { px : Z; py : Y }.

Definition point_eqb (p q : Point) : bool :=
  (px p =? px q) && feqb (py p) (py q).

(** The time-indexed frame [self.df]: one cell per index entry in every
    column; [None] is NaN. *)
Record DataFrame : Type := mkDataFrame {
  df_index : list Z;
  df_columns : list (string * list (option Y))
}.

Fixpoint set_column (name : string) (values : list (option Y))
    (cols : list (string * list (option Y))) : list (string * list (option Y)) :=
  match cols with
  | [] => [(name, values)]
  | (c, old) :: cols' =>
      if String.eqb c name then (c, values) :: cols'
      else (c, old) :: set_column name values cols'
  end.

(** [df[name] = values] for a list: pandas requires the length of the
    index, except that a frame whose index is empty takes a fresh
    0..n-1 index from the values and fills its other columns with NaN. *)
Definition df_setitem (df : DataFrame) (name : string) (values : list Y)
    : result DataFrame :=
  let n := length values in
  if (n =? length (df_index df))%nat then
    Ok (mkDataFrame (df_index df) (set_column name (map Some values) (df_columns df)))
  else if (length (df_index df) =? 0)%nat then
    Ok (mkDataFrame (map Z.of_nat (seq 0 n))
          (set_column name (map Some values)
             (map (fun c => (fst c, repeat None n)) (df_columns df))))
  else Raise ValueError.

(** The fields of [PlotArtist] that the capture algorithm reads or
    writes (the y range, colours and figure are display only). *)
Record PlotArtist : Type := mkPlotArtist {
  start : Z;
  end_ : Z;
  period : Z;
  tz : Z;               (* the offset from UTC, in seconds, of [start.tzinfo] *)
  allowed_x : list Z;
  df : DataFrame;
  points : list Point;
  current_x : option Z
}.

(** [tz] is the zone of [start]: its offset from UTC in seconds, [0] for
    UTC and for a Timestamp without a zone. *)
Definition __init__ (start end_ period tz : Z) : result PlotArtist :=
  (let? grid := date_range start (end_ - second) period Both in
   Ok (mkPlotArtist start end_ period tz grid (mkDataFrame grid []) [] None))%result.

(** [time.gmtime(secs)], as the seconds since the epoch that the
    [struct_time] it returns reads in UTC; OSError where C's [gmtime]
    fails. *)
Definition gmtime (secs : Y) : result Z :=
  (let? whent := to_time_t secs in
   if (gmtime_min <=? whent) && (whent <=? gmtime_max) then Ok whent
   else Raise OSError)%result.

(** artist.py 229-239: the x of the click, in days since the epoch, is
    turned into seconds, broken down in UTC by [time.gmtime], and the
    fields are read as a time of the session's zone. *)
Definition click_timestamp (tz : Z) (x_sel : Y) : result Z :=
  let x_to_seconds := fmul (fmul (fmul x_sel (of_int 60)) (of_int 60)) (of_int 24) in
  (let? time_struct := gmtime x_to_seconds in
   Timestamp_in_zone time_struct tz)%result.

Definition get_target_x_coord (self : PlotArtist) (x_sel : Y) : result (option Z) :=
  match current_x self with
  | None =>
      (let? target_x := first_item (allowed_x self) in Ok (Some target_x))%result
  | Some cur =>
      (let? x_pd := click_timestamp (tz self) x_sel in
       let later := filter (fun x => cur <? x) (allowed_x self) in
       let? _ := distances x_pd later in
       let x_ordered := sorted (fun x => Z.abs (x - x_pd)) later in
       match x_ordered with
       | [] => Ok None
       | target_x :: _ => Ok (Some target_x)
       end)%result
  end.


Definition float_div (a b : Y) : result Y :=
  match fdiv a b with
  | Some q => Ok q
  | None => Raise ZeroDivisionError
  end.

(** The points that [plot_selection] interpolates before the clicked one. *)
Definition interpolated (self : PlotArtist) (x_snapped : Z) (y : Y)
    : result (list Point) :=
  match rev (points self), current_x self with
  | prev :: _, Some cur =>
      if cur + period self <? x_snapped then
        (let delta := total_minutes (x_snapped - px prev) in
         let? slope := float_div (fsub y (py prev)) delta in
         let? xs := date_range (cur + period self) x_snapped (period self) Left in
         Ok (map (fun x_intermediate =>
                    let delta := total_minutes (px prev - x_intermediate) in
                    mkPoint x_intermediate (fsub (py prev) (fmul slope delta)))
                 xs))%result
      else Ok []
  | _, _ => Ok []
  end.

Definition plot_selection (self : PlotArtist) (x_snapped : Z) (y : Y)
    : result PlotArtist :=
  (let? between := interpolated self x_snapped y in
   Ok (mkPlotArtist (start self) (end_ self) (period self) (tz self) (allowed_x self) (df self)
         (points self ++ between ++ [mkPoint x_snapped y])
         (Some x_snapped)))%result.

(** [xys] is what [plt.ginput()] returned: the clicks read (at most one),
    none when the wait ended without a click. *)
Definition add_points (self : PlotArtist) (xys : list (Y * Y))
    : result (PlotArtist * bool) :=
  match xys with
  | [] => Ok (self, false)
  | (x_sel, y) :: _ =>
      (let? target := get_target_x_coord self x_sel in
       match target with
       | None => Ok (self, true)
       | Some target_x =>
           let? self' := plot_selection self target_x y in
           let? last_x := last_item (allowed_x self') in
           Ok (self', negb (match current_x self' with
                            | Some cur => cur =? last_x
                            | None => false
                            end))
       end)%result
  end.

Definition verify_points (self : PlotArtist) : bool :=
  if negb (length (points self) =? length (allowed_x self))%nat then false
  else forallb (fun p => existsb (Z.eqb (px p)) (allowed_x self)) (points self).

Definition finish_series (self : PlotArtist) (name : string) : result PlotArtist :=
  (let? df' := df_setitem (df self) name (map py (points self)) in
   Ok (mkPlotArtist (start self) (end_ self) (period self) (tz self) (allowed_x self) df' [] None))%result.

(** [list(set(points))]: one copy of each point.  Python leaves the order
    of a set open; the first occurrences are kept in order here. *)
Fixpoint set_to_list (l : list Point) : list Point :=
  match l with
  | [] => []
  | p :: l' => p :: filter (fun q => negb (point_eqb p q)) (set_to_list l')
  end.

(** The [while True] loop of [draw_series]; [clicks] are the successive
    results of [plt.ginput()], which returns no click once they are used up. *)
Fixpoint capture_loop (self : PlotArtist) (clicks : list (list (Y * Y)))
    : result PlotArtist :=
  match clicks with
  | [] => (let? r := add_points self [] in Ok (fst r))%result
  | xys :: clicks' =>
      (let? r := add_points self xys in
       if snd r then capture_loop (fst r) clicks' else Ok (fst r))%result
  end.

Definition draw_series (self : PlotArtist) (clicks : list (list (Y * Y)))
    : io PlotArtist :=
  (name <- get_response EmptyString false None ;;
   self1 <- lift (capture_loop self clicks) ;;
   let self2 :=
     mkPlotArtist (start self1) (end_ self1) (period self1) (tz self1) (allowed_x self1) (df self1)
       (sorted px (set_to_list (points self1))) (current_x self1) in
   let valid := verify_points self2 in
   (if negb valid then print InvalidPoints else ret tt) ;;;
   lift (finish_series self2 name))%io.

(** The grid is the one the constructor builds, on a positive period. *)
Definition built_grid (self : PlotArtist) : Prop :=
  0 < period self /\
  allowed_x self =
  generate_regular_range (start self) (end_ self - second) (period self).

(** The recorded points cover the grid from its first timestamp up to
    [current_x]: one point per timestamp, in grid order. *)
Definition covered_run (self : PlotArtist) : Prop :=
  match current_x self with
  | None => points self = []
  | Some cur =>
      exists n : nat,
        map px (points self) = firstn (S n) (allowed_x self) /\
        nth_error (allowed_x self) n = Some cur
  end.

End Artist.

Arguments Point Y : clear implicits.
Arguments DataFrame Y : clear implicits.
Arguments PlotArtist Y : clear implicits.

(** ** Python strings and dicts used by reshaper.py *)

(** [s.replace(" ", "")] *)
Fixpoint remove_spaces (s : string) : string :=
  match s with
  | EmptyString => EmptyString
  | String c s' =>
      if Ascii.eqb c " " then remove_spaces s' else String c (remove_spaces s')
  end.

(** [s.split(",")] *)
Fixpoint split_comma (s : string) : list string :=
  match s with
  | EmptyString => [EmptyString]
  | String c s' =>
      if Ascii.eqb c "," then EmptyString :: split_comma s'
      else match split_comma s' with
           | [] => [String c EmptyString]
           | word :: words => String c word :: words
           end
  end.

(** A name without spaces and commas, as a comma-separated response can
    carry it. *)
Fixpoint plain (s : string) : bool :=
  match s with
  | EmptyString => true
  | String c s' => negb (Ascii.eqb c " ") && negb (Ascii.eqb c ",") && plain s'
  end.

(** A dict keeps its keys in insertion order; [d[k] = v] replaces the value
    of a key already present. *)
Fixpoint dict_set {V : Type} (d : list (string * V)) (k : string) (v : V)
    : list (string * V) :=
  match d with
  | [] => [(k, v)]
  | (k', v') :: d' =>
      if String.eqb k' k then (k', v) :: d' else (k', v') :: dict_set d' k v
  end.

Fixpoint dict_get {V : Type} (d : list (string * V)) (k : string) : option V :=
  match d with
  | [] => None
  | (k', v') :: d' => if String.eqb k' k then Some v' else dict_get d' k
  end.

Fixpoint update_nth {A : Type} (i : nat) (f : A -> A) (l : list A) : list A :=
  match l, i with
  | [], _ => []
  | a :: l', O => f a :: l'
  | a :: l', S i' => a :: update_nth i' f l'
  end.

(** ** The frames of reshaper.py

    A frame is its column labels and its rows, one cell per column.  The
    row labels are left out: [melt] and [merge] number the rows afresh and
    nothing in reshaper.py reads them.  Where pandas addresses every column
    of a repeated label, the model addresses the first. *)

Section Reshaper.
Context {Y : Type} `{FloatOps Y}.

Inductive cell : Type :=
| CTime (t : Z)
| CStr (s : string)
| CNum (y : Y)
| CNaN.

Definition cell_eqb (a b : cell) : bool :=
  match a, b with
  | CTime x, CTime y => x =? y
  | CStr x, CStr y => String.eqb x y
  | CNum x, CNum y => feqb x y
  | CNaN, CNaN => true
  | _, _ => false
  end.

(** The order [sort_values] uses within one kind of cells, missing values
    last. *)
Definition cell_leb (a b : cell) : bool :=
  match a, b with
  | _, CNaN => true
  | CNaN, _ => false
  | CTime x, CTime y => x <=? y
  | CStr x, CStr y => String.leb x y
  | CNum x, CNum y => fleb x y
  | _, _ => false
  end.

Definition same_kind (a b : cell) : bool :=
  match a, b with
  | CTime _, CTime _ => true
  | CStr _, CStr _ => true
  | CNum _, CNum _ => true
  | CNaN, _ => true
  | _, CNaN => true
  | _, _ => false
  end.

(** Python compares the cells of one kind only. *)
Fixpoint comparable (cells : list cell) : bool :=
  match cells with
  | [] => true
  | c :: cells' => forallb (same_kind c) cells' && comparable cells'
  end.

Record Table : Type := mkTable {
  columns : list string;
  rows : list (list cell)
}.

Fixpoint index_of (name : string) (cols : list string) : option nat :=
  match cols with
  | [] => None
  | c :: cols' =>
      if String.eqb c name then Some O else option_map S (index_of name cols')
  end.

Definition get_loc (cols : list string) (name : string) : result nat :=
  match index_of name cols with
  | Some i => Ok i
  | None => Raise KeyError
  end.

Fixpoint get_locs (cols : list string) (names : list string) : result (list nat) :=
  match names with
  | [] => Ok []
  | name :: names' =>
      (let? i := get_loc cols name in
       let? locs := get_locs cols names' in
       Ok (i :: locs))%result
  end.

Definition cell_at (i : nat) (row : list cell) : cell := nth i row CNaN.

(** The columns that [pd.melt] unpivots, as pandas 2 selects them
    ([algos.unique] of the positions of [id_vars + value_vars], the
    identifier column then taken out): the named columns in the order
    given, each position once, without the positions in [seen]. *)
Fixpoint unique_locs (seen : list nat) (cjs : list (string * nat))
    : list (string * nat) :=
  match cjs with
  | [] => []
  | cj :: cjs' =>
      if existsb (Nat.eqb (snd cj)) seen then unique_locs seen cjs'
      else cj :: unique_locs (snd cj :: seen) cjs'
  end.

(** [pd.melt(frame, id_vars=[id_var], value_vars=value_vars,
    var_name=var_name, value_name=value_name)], as in pandas 2: the value
    name may not be a column of the frame, and every named column must be;
    a value column named twice is unpivoted once, and one that is the
    identifier column is not unpivoted. *)
Definition melt (frame : Table) (id_var : string) (value_vars : list string)
    (var_name value_name : string) : result Table :=
  if existsb (String.eqb value_name) (columns frame) then Raise ValueError
  else
    (let? i := get_loc (columns frame) id_var in
     let? locs := get_locs (columns frame) value_vars in
     Ok (mkTable [id_var; var_name; value_name]
           (flat_map
              (fun cj =>
                 map (fun row => [cell_at i row; CStr (fst cj); cell_at (snd cj) row])
                     (rows frame))
              (unique_locs [i] (combine value_vars locs)))))%result.

Definition replace_cell (to_replace : list (string * string)) (c : cell) : cell :=
  match c with
  | CStr s =>
      match dict_get to_replace s with
      | Some v => CStr v
      | None => c
      end
  | _ => c
  end.

(** [t[name] = t[name].replace(to_replace=to_replace)]: every cell equal
    to a key becomes the value of that key. *)
Definition replace_in_column (t : Table) (name : string)
    (to_replace : list (string * string)) : result Table :=
  (let? i := get_loc (columns t) name in
   Ok (mkTable (columns t) (map (update_nth i (replace_cell to_replace)) (rows t))))%result.

Definition key_of (locs : list nat) (row : list cell) : list cell :=
  map (fun i => cell_at i row) locs.

Fixpoint keys_eqb (a b : list cell) : bool :=
  match a, b with
  | [], [] => true
  | x :: a', y :: b' => cell_eqb x y && keys_eqb a' b'
  | _, _ => false
  end.

(** The positions below [width] that are not in [locs]. *)
Definition others (locs : list nat) (width : nat) : list nat :=
  filter (fun i => negb (existsb (Nat.eqb i) locs)) (seq 0 width).

Fixpoint position (i : nat) (locs : list nat) : option nat :=
  match locs with
  | [] => None
  | j :: locs' => if (j =? i)%nat then Some O else option_map S (position i locs')
  end.

Definition with_suffix (suffix : string) (overlap : list string) (name : string)
    : string :=
  if existsb (String.eqb name) overlap then (name ++ suffix)%string else name.

(** The rows of [right] whose key, at [rk], is the key of [l], at [lk]. *)
Definition matches (lk rk : list nat) (right_rows : list (list cell))
    (l : list cell) : list (list cell) :=
  filter (fun r => keys_eqb (key_of lk l) (key_of rk r)) right_rows.

(** A left row joined with each of its matches, or padded with NaN. *)
Definition from_left (lk rk rrest : list nat) (right_rows : list (list cell))
    (l : list cell) : list (list cell) :=
  match matches lk rk right_rows l with
  | [] => [l ++ repeat CNaN (List.length rrest)]
  | rs => map (fun r => l ++ key_of rrest r) rs
  end.

(** The right rows whose key no left row has. *)
Definition unmatched (lk rk : list nat) (left_rows right_rows : list (list cell))
    : list (list cell) :=
  filter (fun r => negb (existsb (fun l => keys_eqb (key_of lk l) (key_of rk r))
                                 left_rows))
         right_rows.

(** A right row alone: its key in the key columns of the left frame, NaN
    in the other left columns, then its own other cells. *)
Definition from_right (lk rk rrest : list nat) (lwidth : nat) (r : list cell)
    : list cell :=
  map (fun i =>
         match position i lk with
         | Some j => cell_at (nth j rk O) r
         | None => CNaN
         end)
      (seq 0 lwidth) ++ key_of rrest r.

Definition name_at (cols : list string) (i : nat) : string := nth i cols EmptyString.

(** The labels of the merged frame: columns that both frames have outside
    the key get the suffixes _x and _y. *)
Definition merged_columns (lk rrest : list nat) (lcols rcols : list string)
    : list string :=
  let lrest := others lk (List.length lcols) in
  let overlap :=
    filter (fun name => existsb (String.eqb name) (map (name_at rcols) rrest))
           (map (name_at lcols) lrest) in
  map (fun i =>
         if existsb (Nat.eqb i) lk then name_at lcols i
         else with_suffix "_x" overlap (name_at lcols i))
      (seq 0 (List.length lcols)) ++
  map (fun i => with_suffix "_y" overlap (name_at rcols i)) rrest.

(** [left.merge(right, on=on, how="outer")].  Each left row is joined with
    the right rows of equal key, or padded with NaN when there is none; the
    right rows whose key no left row has follow.  pandas also orders the
    result by key; [reshape] sorts by time afterwards, and that order is
    not modelled. *)
Definition merge_outer (left right : Table) (on : list string) : result Table :=
  (let? lk := get_locs (columns left) on in
   let? rk := get_locs (columns right) on in
   let rrest := others rk (List.length (columns right)) in
   Ok (mkTable (merged_columns lk rrest (columns left) (columns right))
         (flat_map (from_left lk rk rrest (rows right)) (rows left) ++
          map (from_right lk rk rrest (List.length (columns left)))
              (unmatched lk rk (rows left) (rows right)))))%result.

(** [t.sort_values(by=by_)].  numpy's default sort leaves the order of
    rows of equal key open; the model keeps them in their order. *)
Definition sort_values (t : Table) (by_ : string) : result Table :=
  (let? i := get_loc (columns t) by_ in
   if comparable (map (cell_at i) (rows t)) then
     Ok (mkTable (columns t)
           (sort_by (fun a b => cell_leb (cell_at i a) (cell_at i b)) (rows t)))
   else Raise TypeError)%result.

(** [t[name] = value] for a scalar: a new last column, or the column of
    that name overwritten. *)
Definition set_scalar (t : Table) (name : string) (value : cell) : Table :=
  match index_of name (columns t) with
  | Some i => mkTable (columns t) (map (update_nth i (fun _ => value)) (rows t))
  | None => mkTable (columns t ++ [name]) (map (fun row => row ++ [value]) (rows t))
  end.

(** ** reshaper.py *)

Definition response_is_column (df : Table) (response : string) : io bool :=
  let cols := split_comma (remove_spaces response) in
  let missing_cols :=
    filter (fun col => negb (existsb (String.eqb col) (columns df))) cols in
  ((match missing_cols with
    | [] => ret tt
    | _ :: _ => print (ColumnsNotFound missing_cols)
    end) ;;;
   ret (match missing_cols with [] => true | _ :: _ => false end))%io.

(** The [for unpivot_column in unpivot_columns] loop of [reshape]. *)
Fixpoint read_identifier_mapping (unpivot_columns : list string)
    (identifier_mapping : list (string * string)) : io (list (string * string)) :=
  match unpivot_columns with
  | [] => ret identifier_mapping
  | unpivot_column :: unpivot_columns' =>
      (mapped_identifier <- get_response EmptyString false None ;;
       read_identifier_mapping unpivot_columns'
         (dict_set identifier_mapping unpivot_column mapped_identifier))%io
  end.

(** The body of the [for i in range(num_sets)] loop of [reshape]. *)
Definition melt_set (df : Table) (time_col grouping_col : string) : io Table :=
  (value_column_name <- get_response EmptyString false None ;;
   unpivot_columns_str <-
     get_response EmptyString false (Some (response_is_column df)) ;;
   let unpivot_columns := split_comma (remove_spaces unpivot_columns_str) in
   identifier_mapping <- read_identifier_mapping unpivot_columns [] ;;
   emit (Melt unpivot_columns) ;;;
   melted_set <-
     lift (melt df time_col unpivot_columns grouping_col value_column_name) ;;
   lift (replace_in_column melted_set grouping_col identifier_mapping))%io.

Fixpoint melt_sets (num_sets : nat) (df : Table) (time_col grouping_col : string)
    (melted_dfs : list Table) : io (list Table) :=
  match num_sets with
  | O => ret melted_dfs
  | S num_sets' =>
      (melted_set <- melt_set df time_col grouping_col ;;
       melt_sets num_sets' df time_col grouping_col (melted_dfs ++ [melted_set]))%io
  end.

(** The [for merge_df in melted_dfs[1:]] loop of [reshape]. *)
Fixpoint merge_sets (final_melted_df : Table) (rest : list Table)
    (time_col grouping_col : string) : io Table :=
  match rest with
  | [] => ret final_melted_df
  | merge_df :: rest' =>
      (emit Merge ;;;
       merged <- lift (merge_outer final_melted_df merge_df [time_col; grouping_col]) ;;
       merge_sets merged rest' time_col grouping_col)%io
  end.

Definition add_constants (t : Table) (constants : list (string * cell)) : Table :=
  fold_left (fun t' cv => set_scalar t' (fst cv) (snd cv)) constants t.

(** The merges of [merge_sets], without the trace. *)
Fixpoint merge_chain (final_melted_df : Table) (rest : list Table)
    (time_col grouping_col : string) : result Table :=
  match rest with
  | [] => Ok final_melted_df
  | merge_df :: rest' =>
      (let? merged := merge_outer final_melted_df merge_df [time_col; grouping_col] in
       merge_chain merged rest' time_col grouping_col)%result
  end.

Definition reshape (df : Table) (time_col : string) (num_sets : Z)
    (grouping_col : string) (constants : list (string * cell)) : io Table :=
  (melted_dfs <- melt_sets (Z.to_nat num_sets) df time_col grouping_col [] ;;
   first_df <- lift (first_item melted_dfs) ;;
   final_melted_df <- merge_sets first_df (tl melted_dfs) time_col grouping_col ;;
   final_melted_df <- lift (sort_values final_melted_df time_col) ;;
   ret (add_constants final_melted_df constants))%io.

End Reshaper.

Arguments cell Y : clear implicits.
Arguments Table Y : clear implicits.

(** ** Reading the trace of [reshape] *)

Section ReshapeEvents.
Context {Y : Type} `{FloatOps Y}.

(** A row of a long table with [k] measurements: a timestamp, a group
    identifier and [k] values. *)
Definition keyed_row (k : nat) (row : list (cell Y)) : Prop :=
  List.length row = (2 + k)%nat /\
  exists t g, cell_at 0 row = CTime t /\ cell_at 1 row = CStr g.

(** A long table with [k] measurements: the time column, the grouping
    column and [k] value columns. *)
Definition keyed_table (time_col grouping_col : string) (k : nat) (t : Table Y)
    : Prop :=
  (exists names,
     columns t = time_col :: grouping_col :: names /\ List.length names = k) /\
  Forall (keyed_row k) (rows t).

(** The measurement [j] of a row of the merged table is missing, or is the
    value of a row of the [j]-th melted set with the same time and group. *)
Definition from_set_or_missing (sets : list (Table Y)) (j : nat)
    (row : list (cell Y)) : Prop :=
  cell_at (2 + j) row = CNaN \/
  exists m r,
    nth_error sets j = Some m /\ In r (rows m) /\
    cell_at 0 r = cell_at 0 row /\ cell_at 1 r = cell_at 1 row /\
    cell_at 2 r = cell_at (2 + j) row.

(** Two rows of long tables have the same time and the same group. *)
Definition same_keyb (l r : list (cell Y)) : bool :=
  cell_eqb (cell_at 0 l) (cell_at 0 r) && cell_eqb (cell_at 1 l) (cell_at 1 r).

(** The full outer join, on the time and grouping columns, of a long table
    of [k] measurements with a melted set, as the spec words it.  Its rows
    are: each left row joined with each right row of the same key; each
    left row that no right row matches, with a missing value; each right
    row that no left row matches, under its key, with the [k] left
    measurements missing.  There are no other rows, and each comes as
    often as it arises. *)
Definition full_outer_join (k : nat) (left right merged : list (list (cell Y)))
    : Prop :=
  (forall row,
     In row merged <->
     (exists l r, In l left /\ In r right /\ same_keyb l r = true /\
                  row = l ++ [cell_at 2 r]) \/
     (exists l, In l left /\ (forall r, In r right -> same_keyb l r = false) /\
                row = l ++ [CNaN]) \/
     (exists r, In r right /\ (forall l, In l left -> same_keyb l r = false) /\
                row = (cell_at 0 r :: cell_at 1 r :: repeat CNaN k) ++ [cell_at 2 r])) /\
  List.length merged =
  (list_sum (map (fun l => Nat.max 1 (List.length (filter (same_keyb l) right))) left) +
   List.length (filter (fun r => negb (existsb (fun l => same_keyb l r) left)) right))%nat.

(** The sets joined from the left: the first with the second, the result
    with the third, and so on; [k] counts the measurements joined so far. *)
Fixpoint joined_in_order (k : nat) (left : Table Y) (rest : list (Table Y))
    (merged : Table Y) : Prop :=
  match rest with
  | [] => merged = left
  | next :: rest' =>
      exists joined : Table Y,
        full_outer_join k (rows left) (rows next) (rows joined) /\
        joined_in_order (S k) joined rest' merged
  end.

(** The time column of the frame holds timestamps. *)
Definition timestamped (df : Table Y) (time_col : string) : Prop :=
  forall i, index_of time_col (columns df) = Some i ->
            Forall (fun row => exists t, cell_at i row = CTime t) (rows df).

(** The timestamp in column [i] of a row. *)
Definition time_at (i : nat) (row : list (cell Y)) : Z :=
  match cell_at i row with
  | CTime t => t
  | _ => 0
  end.

(** The timestamp of a row of a long table. *)
Definition time_of (row : list (cell Y)) : Z := time_at 0 row.







(** The columns named in a response that the frame does not have. *)
Definition missing_columns (df : Table Y) (response : string) : list string :=
  filter (fun col => negb (existsb (String.eqb col) (columns df)))
         (split_comma (remove_spaces response)).

(** What may happen while the sets are melted: messages, and melts of
    columns that the frame has. *)
Definition melt_phase_event (df : Table Y) (e : event) : Prop :=
  match e with
  | Print _ => True
  | Melt value_vars => forall c, In c value_vars -> In c (columns df)
  | Merge => False
  end.

Definition is_message (e : event) : Prop :=
  match e with
  | Print _ => True
  | _ => False
  end.

(** What one pass of the loop of [reshape] adds to the trace: messages,
    then at most one melt, of columns that the frame has. *)
Definition messages_then_melt (df : Table Y) (evs : list event) : Prop :=
  exists messages,
    Forall is_message messages /\
    (evs = messages \/
     exists value_vars,
       evs = messages ++ [Melt value_vars] /\
       forall c, In c value_vars -> In c (columns df)).

(** The claim of C8 read on a trace: no melt and no merge comes before a
    report of missing columns. *)
Definition flagged_before_reshaping (evs : list event) : Prop :=
  forall before missing after,
    evs = before ++ Print (ColumnsNotFound missing) :: after ->
    Forall is_message before.

End ReshapeEvents.

(** ** util.py: yes or no *)

(** [c.lower()] for an ASCII letter; the other characters are kept. *)
Definition lower_char (c : ascii) : ascii :=
  let n := nat_of_ascii c in
  if (65 <=? n)%nat && (n <=? 90)%nat then ascii_of_nat (n + 32) else c.

(** [s.lower()], on the ASCII letters.  Python also lowers letters outside
    ASCII; none of them becomes a "y". *)
Fixpoint lower (s : string) : string :=
  match s with
  | EmptyString => EmptyString
  | String c s' => String (lower_char c) (lower s')
  end.

Definition ask_user : io bool :=
  (response <- input ;; ret (String.eqb (lower response) "y"))%io.

(** ** artist.py: the colours of the series and the legend *)

Definition colors : list string :=
  ["blue"; "green"; "cyan"; "purple"; "orange"; "brown"; "pink"; "gray";
   "olive"]%string.

Section Legend.
Context {Y : Type}.

(** The zero-based index of the current series. *)
Definition series_idx (self : PlotArtist Y) : nat :=
  List.length (df_columns (df self)).

(** The colour the current series is drawn in. *)
Definition color (self : PlotArtist Y) : string :=
  nth (series_idx self mod List.length colors) colors EmptyString.

(** The entries [add_to_legend] gives the legend: a colour and a label
    for each pair that [zip] forms. *)
Definition add_to_legend (self : PlotArtist Y) (new_series_name : string)
    : list (string * string) :=
  let existing_cols := map fst (df_columns (df self)) in
  let columns := existing_cols ++ [new_series_name] in
  let colors' := firstn (List.length columns) colors in
  combine colors' columns.

End Legend.

(** ** reshaper.py: ordinals *)

(** [str(n)] for an integer. *)
Definition str (n : Z) : string := NilZero.string_of_int (Z.to_int n).

Definition ordinal (n : Z) : string :=
  let suffix :=
    if (10 <=? n mod 100) && (n mod 100 <=? 20) then "th"%string
    else if n mod 10 =? 1 then "st"%string
    else if n mod 10 =? 2 then "nd"%string
    else if n mod 10 =? 3 then "rd"%string
    else "th"%string in
  (str n ++ suffix)%string.

(** ** main.py: the constants of the command line *)

(** [s.split(sep)] for a separator of one character. *)
Fixpoint split_on (sep : ascii) (s : string) : list string :=
  match s with
  | EmptyString => [EmptyString]
  | String c s' =>
      if Ascii.eqb c sep then EmptyString :: split_on sep s'
      else match split_on sep s' with
           | [] => [String c EmptyString]
           | word :: words => String c word :: words
           end
  end.

(** [dict(items)] for a list of lists: each must hold a key and a value. *)
Fixpoint dict_of_items (items : list (list string)) (d : list (string * string))
    : result (list (string * string)) :=
  match items with
  | [] => Ok d
  | [k; v] :: items' => dict_of_items items' (dict_set d k v)
  | _ :: _ => Raise ValueError
  end.

(** The constants as [coerce_arg_types] reads them:
    [dict([x.split("=") for x in constants.split(",")])], or the empty
    dict for an empty string. *)
Definition parse_constants (constants : string) : result (list (string * string)) :=
  if nonempty constants then
    dict_of_items (map (split_on "=") (split_on "," constants)) []
  else Ok [].

(** [sep.join(words)] *)
Fixpoint join (sep : string) (words : list string) : string :=
  match words with
  | [] => EmptyString
  | [word] => word
  | word :: words' => (word ++ sep ++ join sep words')%string
  end.

(** A text without the given character. *)
Fixpoint without (c : ascii) (s : string) : bool :=
  match s with
  | EmptyString => true
  | String c' s' => negb (Ascii.eqb c' c) && without c s'
  end.

(** [s.count(c)] for a character [c]. *)
Fixpoint occurrences (c : ascii) (s : string) : nat :=
  match s with
  | EmptyString => O
  | String c' s' => if Ascii.eqb c' c then S (occurrences c s') else occurrences c s'
  end.

(** ** Floats as exact rationals *)

Definition Zc (z : Z) : Qc := Q2Qc (inject_Z z).

#[export] Instance QcFloat : FloatOps Qc := {|
  fsub := Qcminus;
  fmul := Qcmult;
  fdiv := fun a b => if Qc_eq_bool b (Zc 0) then None else Some (a / b)%Qc;
  feqb := Qc_eq_bool;
  fleb := fun a b => Qle_bool a b;
  total_minutes := fun d => (Zc d / Zc second / Zc 60)%Qc;
  of_int := Zc;
  to_time_t := fun x => time_t_of_floor (Qfloor x)
|}.

(** ** Floats as IEEE doubles *)

(** [float(n)] for an integer below 2^63 in absolute value. *)
Definition float_of_Z (z : Z) : PrimFloat.float :=
  if z <? 0 then PrimFloat.opp (PrimFloat.of_uint63 (Uint63.of_Z (- z)))
  else PrimFloat.of_uint63 (Uint63.of_Z z).

(** The seconds of a double as a [time_t], rounded down. *)
Definition time_t_of_double (x : PrimFloat.float) : result Z :=
  match FloatOps.Prim2SF x with
  | SpecFloat.S754_nan => Raise ValueError
  | SpecFloat.S754_infinity _ => Raise OverflowError
  | SpecFloat.S754_zero _ => Ok 0
  | SpecFloat.S754_finite s m e =>
      let n := if s then Z.neg m else Z.pos m in
      time_t_of_floor (if 0 <=? e then n * 2 ^ e else n / 2 ^ (- e))
  end.

(** [d.total_seconds()] as pandas 2 computes it:
    [days * 24 * 3600 + seconds + microseconds / 1_000_000]. *)
Definition total_seconds (d : Z) : PrimFloat.float :=
  let days := d / (86400 * second) in
  let seconds := d mod (86400 * second) / second in
  let microseconds := d mod second / 1000 in
  PrimFloat.add (float_of_Z (days * 24 * 3600 + seconds))
                (PrimFloat.div (float_of_Z microseconds) (float_of_Z 1000000)).

#[export] Instance Binary64 : FloatOps PrimFloat.float := {|
  fsub := PrimFloat.sub;
  fmul := PrimFloat.mul;
  fdiv := fun a b =>
    if PrimFloat.eqb b PrimFloat.zero then None else Some (PrimFloat.div a b);
  feqb := PrimFloat.eqb;
  fleb := PrimFloat.leb;
  total_minutes := fun d => PrimFloat.div (total_seconds d) (float_of_Z 60);
  of_int := float_of_Z;
  to_time_t := time_t_of_double
|}.

(** ** A session on the grid 00:00, 00:05, 00:10, 00:15 *)

Definition minute : Z := 60 * second.

Definition session_start : PlotArtist Qc :=
  mkPlotArtist 0 (20 * minute) (5 * minute) 0
    [0; 5 * minute; 10 * minute; 15 * minute]
    (mkDataFrame [0; 5 * minute; 10 * minute; 15 * minute] [])
    [] None.

(** The x-position, in days since the epoch, of a click [n] minutes after it. *)
Definition click_at_minute (n : Z) : Qc := Q2Qc (n # 1440).

(** The session once a first point (00:00, 5.0) is recorded. *)
Definition session_first_point : PlotArtist Qc :=
  mkPlotArtist 0 (20 * minute) (5 * minute) 0
    [0; 5 * minute; 10 * minute; 15 * minute]
    (mkDataFrame [0; 5 * minute; 10 * minute; 15 * minute] [])
    [mkPoint 0 (Zc 5)] (Some 0).

(** The session with the series "s1" in the frame and the four points of
    the next series recorded. *)
Definition session_second_series : PlotArtist Qc :=
  mkPlotArtist 0 (20 * minute) (5 * minute) 0
    [0; 5 * minute; 10 * minute; 15 * minute]
    (mkDataFrame [0; 5 * minute; 10 * minute; 15 * minute]
       [("s1"%string, [Some (Zc 0); Some (Zc 10); Some (Zc 20); Some (Zc 30)])])
    [mkPoint 0 (Zc 5); mkPoint (5 * minute) (Zc 7);
     mkPoint (10 * minute) (Zc 9); mkPoint (15 * minute) (Zc 11)]
    (Some (15 * minute)).

(** The session with nine series in the frame. *)
Definition session_nine_series : PlotArtist Qc :=
  mkPlotArtist 0 (20 * minute) (5 * minute) 0
    [0; 5 * minute; 10 * minute; 15 * minute]
    (mkDataFrame [0; 5 * minute; 10 * minute; 15 * minute]
       (map (fun name => (name, repeat (Some (Zc 0)) 4))
            ["s1"; "s2"; "s3"; "s4"; "s5"; "s6"; "s7"; "s8"; "s9"]%string))
    [] None.

(** ** Sessions on doubles *)

(** The x, in days since the epoch, of a click [n / 2^k] days after it;
    such a quotient is a double. *)
Definition click_at_days (n k : Z) : PrimFloat.float :=
  PrimFloat.div (float_of_Z n) (float_of_Z (2 ^ k)).


(** A session in UTC on the grid 0 s, 10 s, ..., 50 s, once a first point
    (0 s, 5.0) is recorded. *)
Definition session_ten_seconds : PlotArtist PrimFloat.float :=
  mkPlotArtist 0 (60 * second) (10 * second) 0
    [0; 10 * second; 20 * second; 30 * second; 40 * second; 50 * second]
    (mkDataFrame
       [0; 10 * second; 20 * second; 30 * second; 40 * second; 50 * second] [])
    [mkPoint 0 (float_of_Z 5)] (Some 0).

(** US/Eastern in winter: five hours behind UTC. *)
Definition eastern : Z := -18000.

(** A session in US/Eastern from 00:00 to 00:20 local time on the first
    day of the epoch (05:00 to 05:20 in UTC), every five minutes, once a
    first point is recorded. *)
Definition session_eastern : PlotArtist PrimFloat.float :=
  mkPlotArtist (300 * minute) (320 * minute) (5 * minute) eastern
    [300 * minute; 305 * minute; 310 * minute; 315 * minute]
    (mkDataFrame [300 * minute; 305 * minute; 310 * minute; 315 * minute] [])
    [mkPoint (300 * minute) (float_of_Z 5)] (Some (300 * minute)).

(** A session in UTC on a grid of period 795 ms from 0 s to 3.5 s, once a
    first point (0 s, 5.0) is recorded. *)
Definition session_795ms : PlotArtist PrimFloat.float :=
  mkPlotArtist 0 3500000000 795000000 0
    [0; 795000000; 1590000000; 2385000000]
    (mkDataFrame [0; 795000000; 1590000000; 2385000000] [])
    [mkPoint 0 (float_of_Z 5)] (Some 0).

(** The rational number a finite double stands for. *)
Definition double_value (x : PrimFloat.float) : option Q :=
  match FloatOps.Prim2SF x with
  | SpecFloat.S754_zero _ => Some 0%Q
  | SpecFloat.S754_finite s m e =>
      Some (inject_Z (if s then Z.neg m else Z.pos m) * Qpower 2 e)%Q
  | _ => None
  end.


(** ** A wide table with two series *)

Definition wide_example : Table Qc :=
  mkTable ["t"%string; "a"%string; "b"%string]
    [[CTime 0; CNum (Zc 1); CNum (Zc 2)];
     [CTime (5 * minute); CNum (Zc 3); CNum (Zc 4)]].

(** Two sets are asked for; the columns of the second are first given as
    "zzz", which the table does not have. *)
Definition second_set_mistyped : world :=
  mkWorld ["v"%string; "a"%string; "A"%string;
           "w"%string; "zzz"%string; "b"%string; "B"%string] [].

(** One set made of the two series, and two sets of one series each. *)
Definition one_set_of_two : world :=
  mkWorld ["v"%string; ("a" ++ "," ++ "b")%string; "A"%string; "B"%string] [].

Definition two_sets_of_one : world :=
  mkWorld ["v"%string; "a"%string; "A"%string;
           "w"%string; "b"%string; "A"%string] [].


(** * Properties *)

(** ** The time grid *)

Lemma ceil_div_half (q s : Z) :
  0 < s -> ceil_div (q * s + s / 2 + 1) s = q + 1.
Proof.
  intros Hs. unfold ceil_div.
  assert (Hh : 0 <= s / 2 < s) by (split; [apply Z.div_pos | apply Z.div_lt_upper_bound]; lia).
  assert (E : - (q * s + s / 2 + 1) = (- (q + 1)) * s + (s - s / 2 - 1)) by ring.
  rewrite E, Z.div_add_l by lia.
  rewrite Z.div_small by lia. lia.
Qed.

(** For a positive stride the range holds [b], [b + stride], ... up to the
    last one not after [iend]. *)
Lemma generate_regular_range_pos (b iend stride : Z) :
  0 < stride ->
  generate_regular_range b iend stride =
  progression b stride 0 (Z.to_nat ((iend - b) / stride + 1)).
Proof.
  intros Hs. unfold generate_regular_range, arange. cbv zeta.
  replace (b + (iend - b) / stride * stride + stride / 2 + 1 - b)
    with ((iend - b) / stride * stride + stride / 2 + 1) by ring.
  now rewrite ceil_div_half.
Qed.

Lemma progression_sorted (b s : Z) (n i : nat) :
  0 < s ->
  StronglySorted Z.lt (progression b s i n).
Proof.
  intros Hs. unfold progression. revert i. induction n as [|n IH]; intros i; simpl.
  - constructor.
  - constructor; [apply IH|].
    apply Forall_forall. intros x Hx. apply in_map_iff in Hx.
    destruct Hx as [k [<- Hk]]. apply in_seq in Hk. nia.
Qed.

Lemma sorted_lt_NoDup (l : list Z) : StronglySorted Z.lt l -> NoDup l.
Proof.
  induction 1 as [|a l Hs IH Hall]; constructor; auto.
  intros Hin. rewrite Forall_forall in Hall. specialize (Hall _ Hin). lia.
Qed.

Lemma generate_regular_range_sorted (b iend stride : Z) :
  0 < stride -> StronglySorted Z.lt (generate_regular_range b iend stride).
Proof.
  intros Hs. rewrite generate_regular_range_pos by assumption.
  now apply progression_sorted.
Qed.

Lemma generate_regular_range_length (b iend stride : Z) :
  0 < stride -> b <= iend ->
  Z.of_nat (List.length (generate_regular_range b iend stride)) = (iend - b) / stride + 1.
Proof.
  intros Hs Hle. rewrite generate_regular_range_pos by assumption.
  unfold progression. rewrite length_map, length_seq.
  assert (0 <= (iend - b) / stride) by (apply Z.div_pos; lia). lia.
Qed.

Lemma generate_regular_range_In (b iend stride x : Z) :
  0 < stride ->
  In x (generate_regular_range b iend stride) <->
  exists k, 0 <= k /\ x = b + k * stride /\ x <= iend.
Proof.
  intros Hs. rewrite generate_regular_range_pos by assumption.
  unfold progression. rewrite in_map_iff. split.
  - intros [k [<- Hk]]. apply in_seq in Hk. exists (Z.of_nat k).
    split; [lia|]. split; [reflexivity|].
    assert (Hq : Z.of_nat k <= (iend - b) / stride) by lia.
    assert (Hm : stride * ((iend - b) / stride) <= iend - b)
      by (apply Z.mul_div_le; lia).
    nia.
  - intros [k [Hk [-> Hle]]]. exists (Z.to_nat k). split.
    + rewrite Z2Nat.id by lia. reflexivity.
    + apply in_seq. split; [lia|]. simpl.
      assert (k <= (iend - b) / stride) by (apply Z.div_le_lower_bound; lia).
      lia.
Qed.

(** Whole seconds: with the span and the period multiples of one second,
    stopping one second before [end_] leaves out exactly the end point. *)
Lemma whole_second_count (span p : Z) :
  0 < p -> 0 < span -> (second | p) -> (second | span) ->
  (span - second) / p + 1 = ceil_div span p.
Proof.
  intros Hp Hspan [a Ha] [c Hc]. unfold ceil_div.
  assert (Hsec : 0 < second) by (unfold second; lia).
  set (q := (span - second) / p).
  assert (Hq : p * q <= span - second < p * (q + 1)).
  { unfold q. split; [apply Z.mul_div_le; lia|].
    pose proof (Z.mul_succ_div_gt (span - second) p Hp). lia. }
  assert (Hlt : span <= p * (q + 1)).
  { subst span p.
    assert (c - 1 < a * (q + 1)) by nia.
    assert (c <= a * (q + 1)) by lia. nia. }
  assert (E : - span / p = - (q + 1)).
  { symmetry. apply Z.div_unique with (r := p * (q + 1) - span); lia. }
  rewrite E. lia.
Qed.

Section GridFacts.
Context {Y : Type} `{FloatOps Y}.

Lemma init_grid (start_ end' period_ tz_ : Z) :
  period_ <> 0 ->
  __init__ (Y := Y) start_ end' period_ tz_ =
  Ok (mkPlotArtist start_ end' period_ tz_
        (generate_regular_range start_ (end' - second) period_)
        (mkDataFrame (generate_regular_range start_ (end' - second) period_) [])
        [] None).
Proof.
  intros Hp. unfold __init__, date_range.
  destruct (period_ =? 0) eqn:E; [apply Z.eqb_eq in E; contradiction | reflexivity].
Qed.

(** Whatever the end points, a grid built with a positive period is
    strictly increasing. *)
Lemma init_allowed_x_sorted (start_ end' period_ tz_ : Z) (self : PlotArtist Y) :
  0 < period_ ->
  __init__ start_ end' period_ tz_ = Ok self ->
  StronglySorted Z.lt (allowed_x self).
Proof.
  intros Hp Hinit. rewrite init_grid in Hinit by lia.
  injection Hinit as <-. simpl. now apply generate_regular_range_sorted.
Qed.

(** The grid stops at [end_ - 1s]: it has one timestamp per period that
    fits in the span shortened by one second. *)
Lemma init_allowed_x_length (start_ end' period_ tz_ : Z) (self : PlotArtist Y) :
  0 < period_ -> start_ + second <= end' ->
  __init__ start_ end' period_ tz_ = Ok self ->
  Z.of_nat (List.length (allowed_x self)) = (end' - second - start_) / period_ + 1.
Proof.
  intros Hp Hle Hinit. rewrite init_grid in Hinit by lia.
  injection Hinit as <-. simpl. apply generate_regular_range_length; lia.
Qed.

(** C2 (as amended): for start < end and 0 < period < end - start, with the
    period and the span end - start whole numbers of seconds, the grid
    [allowed_x] built by the constructor has exactly
    ceil((end - start) / period) timestamps, and they are strictly
    increasing and pairwise distinct. *)
Theorem allowed_x_cardinality_whole_seconds (start_ end' period_ tz_ : Z) :
  start_ < end' ->
  0 < period_ < end' - start_ ->
  (second | period_) ->
  (second | end' - start_) ->
  exists self : PlotArtist Y,
    __init__ start_ end' period_ tz_ = Ok self /\
    Z.of_nat (List.length (allowed_x self)) = ceil_div (end' - start_) period_ /\
    StronglySorted Z.lt (allowed_x self) /\
    NoDup (allowed_x self).
Proof.
  intros Hse Hp Hdp Hds.
  assert (Hsec : 0 < second) by (unfold second; lia).
  assert (Hspan : start_ + second <= end').
  { destruct Hds as [c Hc]. assert (0 < c) by nia. nia. }
  eexists. split; [apply init_grid; lia|]. simpl.
  split; [|split].
  - rewrite generate_regular_range_length by lia.
    replace (end' - second - start_) with (end' - start_ - second) by ring.
    apply whole_second_count; lia || assumption.
  - apply generate_regular_range_sorted; lia.
  - apply sorted_lt_NoDup, generate_regular_range_sorted; lia.
Qed.

End GridFacts.

Lemma allowed_x_cardinality_whole_seconds_witness :
  exists self : PlotArtist Qc,
    __init__ 0 (1200 * second) (300 * second) 0 = Ok self /\
    Z.of_nat (List.length (allowed_x self)) = ceil_div (1200 * second - 0) (300 * second) /\
    StronglySorted Z.lt (allowed_x self) /\
    NoDup (allowed_x self).
Proof.
  apply (allowed_x_cardinality_whole_seconds (Y := Qc) 0 (1200 * second) (300 * second) 0).
  - reflexivity.
  - split; reflexivity.
  - exists 300. reflexivity.
  - exists 1200. reflexivity.
Defined.

(** C2 does not hold below one second: from 0 to 1s with a period of
    500ms the claim asks for ceil(1s / 500ms) = 2 timestamps and the grid,
    built up to [end_ - 1s], has one. *)
Lemma allowed_x_cardinality_subsecond_counterexample :
  0 < second /\
  0 < 500000000 < second - 0 /\
  exists self : PlotArtist Qc,
    __init__ 0 second 500000000 0 = Ok self /\
    allowed_x self = [0] /\
    Z.of_nat (List.length (allowed_x self)) = 1 /\
    ceil_div (second - 0) 500000000 = 2.
Proof.
  split; [reflexivity|]. split; [split; reflexivity|].
  eexists. split; [reflexivity|]. repeat split.
Qed.

(** ** Python's [sorted] *)

Section SortByFacts.
Context {A : Type} (leb : A -> A -> bool).

Lemma In_insert_by (a x : A) (l : list A) :
  In x (insert_by leb a l) <-> x = a \/ In x l.
Proof.
  induction l as [|b l IH]; simpl.
  - intuition.
  - destruct (leb a b); simpl; [intuition|].
    rewrite IH. intuition.
Qed.

Lemma In_sort_by (x : A) (l : list A) : In x (sort_by leb l) <-> In x l.
Proof.
  induction l as [|a l IH]; simpl; [tauto|].
  rewrite In_insert_by, IH. intuition.
Qed.

Lemma insert_by_Permutation (a : A) (l : list A) :
  Permutation (a :: l) (insert_by leb a l).
Proof.
  induction l as [|b l IH]; simpl; [reflexivity|].
  destruct (leb a b); [reflexivity|].
  rewrite perm_swap. now constructor.
Qed.

Lemma sort_by_Permutation (l : list A) : Permutation l (sort_by leb l).
Proof.
  induction l as [|a l IH]; simpl; [constructor|].
  rewrite <- insert_by_Permutation. now constructor.
Qed.

End SortByFacts.

Section SortedFacts.
Context {A : Type} (key : A -> Z).

Lemma In_sorted (x : A) (l : list A) : In x (sorted key l) <-> In x l.
Proof. apply In_sort_by. Qed.

Lemma insert_by_head_least (a : A) (l : list A) :
  head_least key l -> head_least key (insert_by (fun a b => key a <=? key b) a l).
Proof.
  destruct l as [|b l]; simpl.
  - intros _ x [<-|[]]. lia.
  - intros Hb. destruct (key a <=? key b) eqn:E.
    + apply Z.leb_le in E. intros x [<-|Hx]; [lia|].
      specialize (Hb x Hx). lia.
    + apply Z.leb_gt in E. intros x [<-|Hx]; [lia|].
      apply In_insert_by in Hx. destruct Hx as [->|Hx]; [lia|].
      apply Hb. now right.
Qed.

Lemma sorted_head_least (l : list A) : head_least key (sorted key l).
Proof.
  induction l as [|a l IH]; simpl; [exact I|].
  now apply insert_by_head_least.
Qed.

(** The first element of [sorted(l, key)] belongs to [l] and no element of
    [l] has a smaller key. *)
Lemma sorted_first (l : list A) (t : A) (rest : list A) :
  sorted key l = t :: rest ->
  In t l /\ forall x, In x l -> key t <= key x.
Proof.
  intros E. split.
  - apply In_sorted. rewrite E. now left.
  - intros x Hx. pose proof (sorted_head_least l) as Hl.
    rewrite E in Hl. apply Hl. rewrite <- E. now apply In_sorted.
Qed.

Lemma sorted_nil (l : list A) : sorted key l = [] -> l = [].
Proof.
  destruct l as [|a l]; [reflexivity|]. intros E.
  assert (Ha : In a (sorted key (a :: l))) by (apply In_sorted; now left).
  rewrite E in Ha. destruct Ha.
Qed.

End SortedFacts.


(** ** Snapping a click to the grid *)

Section SnapFacts.
Context {Y : Type} `{FloatOps Y}.

(** C6: as long as no point has been placed for the series ([current_x]
    unset), [get_target_x_coord] returns the first grid timestamp whatever
    the x-position of the click. *)
Theorem get_target_x_coord_first_point (self : PlotArtist Y) (first : Z) :
  current_x self = None ->
  first_item (allowed_x self) = Ok first ->
  forall x_sel : Y, get_target_x_coord self x_sel = Ok (Some first).
Proof.
  intros Hcur Hfirst x_sel. unfold get_target_x_coord.
  rewrite Hcur, Hfirst. reflexivity.
Qed.


(** What [get_target_x_coord] returns after the first point, when it
    returns: the click converted to a timestamp, and the head of the
    later grid timestamps sorted by their distance to it. *)
Lemma get_target_x_coord_returns (self : PlotArtist Y) (cur : Z) (x_sel : Y)
    (r : option Z) :
  current_x self = Some cur ->
  get_target_x_coord self x_sel = Ok r ->
  exists x_pd,
    click_timestamp (tz self) x_sel = Ok x_pd /\
    r = match sorted (fun x => Z.abs (x - x_pd))
                     (filter (fun x => cur <? x) (allowed_x self)) with
        | [] => None
        | target_x :: _ => Some target_x
        end.
Proof.
  intros Hcur. unfold get_target_x_coord. rewrite Hcur.
  destruct (click_timestamp (tz self) x_sel) as [x_pd|e]; cbn [rbind];
    [|discriminate].
  destruct (distances x_pd _) as [ds|e]; cbn [rbind]; [|discriminate].
  intros E. exists x_pd. split; [reflexivity|].
  destruct (sorted _ _); now injection E as <-.
Qed.


End SnapFacts.

(** ** One click *)

Section ClickFacts.
Context {Y : Type} `{FloatOps Y}.

(** A wait that ends without a click stops the capture loop. *)
Lemma add_points_no_click (self : PlotArtist Y) :
  add_points self [] = Ok (self, false).
Proof. reflexivity. Qed.

(** A click that snaps to a grid timestamp is recorded, and the loop goes
    on unless that timestamp is the last of the grid. *)
Lemma add_points_records (self self' : PlotArtist Y) (x_sel y : Y)
    (more : list (Y * Y)) (target_x last_x : Z) :
  get_target_x_coord self x_sel = Ok (Some target_x) ->
  plot_selection self target_x y = Ok self' ->
  last_item (allowed_x self) = Ok last_x ->
  add_points self ((x_sel, y) :: more) = Ok (self', negb (target_x =? last_x)).
Proof.
  intros Htarget Hplot Hlast. unfold add_points. rewrite Htarget. simpl.
  rewrite Hplot. simpl.
  assert (Hax : allowed_x self' = allowed_x self /\ current_x self' = Some target_x).
  { unfold plot_selection in Hplot.
    destruct (interpolated self target_x y); simpl in Hplot; [|discriminate].
    injection Hplot as <-. split; reflexivity. }
  destruct Hax as [-> ->]. rewrite Hlast. reflexivity.
Qed.

(** When no grid timestamp is left the click changes nothing, and the
    answer is to go on. *)
Lemma add_points_nothing_left (self : PlotArtist Y) (x_sel y : Y)
    (more : list (Y * Y)) :
  get_target_x_coord self x_sel = Ok None ->
  add_points self ((x_sel, y) :: more) = Ok (self, true).
Proof.
  intros Htarget. unfold add_points. rewrite Htarget. reflexivity.
Qed.

End ClickFacts.


(** ** Arithmetic progressions and the interpolation range *)

Lemma progression_app (b s : Z) (i n m : nat) :
  progression b s i (n + m) = progression b s i n ++ progression b s (i + n) m.
Proof. unfold progression. now rewrite seq_app, map_app. Qed.

Lemma progression_shift (b s : Z) (i n : nat) :
  progression (b + Z.of_nat i * s) s 0 n = progression b s i n.
Proof.
  unfold progression.
  enough (G : forall j, map (fun k => b + Z.of_nat i * s + Z.of_nat k * s) (seq j n) =
                        map (fun k => b + Z.of_nat k * s) (seq (i + j) n))
    by (rewrite G; now rewrite Nat.add_0_r).
  induction n as [|n IH]; intros j; simpl; [reflexivity|].
  f_equal; [lia|]. rewrite IH. now rewrite Nat.add_succ_r.
Qed.

Lemma In_progression (b s x : Z) (i n : nat) :
  In x (progression b s i n) <->
  exists k : nat, (i <= k < i + n)%nat /\ x = b + Z.of_nat k * s.
Proof.
  unfold progression. rewrite in_map_iff. split.
  - intros [k [<- Hk]]. apply in_seq in Hk. now exists k.
  - intros [k [Hk ->]]. exists k. split; [reflexivity | now apply in_seq].
Qed.

Lemma firstn_progression (b s : Z) (k n : nat) :
  (k <= n)%nat -> firstn k (progression b s 0 n) = progression b s 0 k.
Proof.
  intros Hk. replace n with (k + (n - k))%nat by lia.
  rewrite progression_app, firstn_app.
  assert (Hl : List.length (progression b s 0 k) = k)
    by (unfold progression; now rewrite length_map, length_seq).
  rewrite Hl, Nat.sub_diag, firstn_O, app_nil_r.
  rewrite <- Hl at 1. apply firstn_all.
Qed.

Lemma nth_error_progression (b s c : Z) (n k : nat) :
  nth_error (progression b s 0 n) k = Some c <->
  (k < n)%nat /\ c = b + Z.of_nat k * s.
Proof.
  unfold progression. split.
  - intros Hn. assert (Hk : (k < n)%nat).
    { assert (Hne : nth_error (map (fun k => b + Z.of_nat k * s) (seq 0 n)) k <> None)
        by congruence.
      apply nth_error_Some in Hne.
      now rewrite length_map, length_seq in Hne. }
    split; [exact Hk|].
    rewrite nth_error_map, nth_error_seq in Hn.
    destruct (k <? n)%nat eqn:E; simpl in Hn; [|apply Nat.ltb_ge in E; lia].
    now injection Hn as <-.
  - intros [Hk ->]. rewrite nth_error_map, nth_error_seq.
    destruct (k <? n)%nat eqn:E; [reflexivity | apply Nat.ltb_ge in E; lia].
Qed.

Lemma filter_none {A : Type} (p : A -> bool) (l : list A) :
  (forall x, In x l -> p x = false) -> filter p l = [].
Proof.
  induction l as [|a l IH]; simpl; intros Hp; [reflexivity|].
  rewrite (Hp a) by now left. apply IH. intros x Hx. apply Hp. now right.
Qed.

Lemma filter_all {A : Type} (p : A -> bool) (l : list A) :
  (forall x, In x l -> p x = true) -> filter p l = l.
Proof.
  induction l as [|a l IH]; simpl; intros Hp; [reflexivity|].
  rewrite (Hp a) by now left. f_equal. apply IH. intros x Hx. apply Hp. now right.
Qed.


(** [date_range] closed on the left only, from one grid step after [c] to
    the timestamp [d + 1] steps after it: the [d] timestamps in between. *)
Lemma date_range_left_steps (c s : Z) (d : nat) :
  0 < s ->
  date_range (c + s) (c + Z.of_nat (S d) * s) s Left = Ok (progression (c + s) s 0 d).
Proof.
  intros Hs. unfold date_range.
  destruct (s =? 0) eqn:E; [apply Z.eqb_eq in E; lia|]. f_equal.
  rewrite generate_regular_range_pos by assumption.
  replace (c + Z.of_nat (S d) * s - (c + s)) with (Z.of_nat d * s) by lia.
  rewrite Z.div_mul by lia.
  replace (Z.to_nat (Z.of_nat d + 1)) with (d + 1)%nat by lia.
  rewrite progression_app.
  assert (Hlast : progression (c + s) s (0 + d) 1 = [c + Z.of_nat (S d) * s])
    by (unfold progression; cbn [seq map]; f_equal; lia).
  rewrite Hlast. unfold drop_right_end.
  rewrite rev_app_distr. cbn [rev app]. rewrite Z.eqb_refl.
  apply removelast_last.
Qed.

(** ** Recording a selection *)

Section SelectionFacts.
Context {Y : Type} `{FloatOps Y}.

Lemma built_grid_progression (self : PlotArtist Y) :
  built_grid self ->
  exists size : nat,
    allowed_x self = progression (start self) (period self) 0 size.
Proof.
  intros [Hp Hg]. rewrite Hg, generate_regular_range_pos by assumption.
  now eexists.
Qed.

Lemma last_item_rev {A : Type} (l : list A) (x : A) :
  last_item l = Ok x <-> exists front, rev l = x :: front.
Proof.
  unfold last_item. destruct (rev l) as [|a r]; split.
  - discriminate.
  - intros [front Hf]. discriminate.
  - intros E. injection E as ->. now exists r.
  - intros [front Hf]. injection Hf as -> _. reflexivity.
Qed.

(** What [plot_selection] interpolates from the grid position [n] to the
    grid position [m], given the slope. *)
Lemma interpolated_steps (self : PlotArtist Y) (prev : Point Y) (b cur x_snapped : Z)
    (y slope : Y) (n m : nat) :
  0 < period self ->
  last_item (points self) = Ok prev ->
  current_x self = Some cur ->
  cur = b + Z.of_nat n * period self ->
  x_snapped = b + Z.of_nat m * period self ->
  cur + period self < x_snapped ->
  fdiv (fsub y (py prev)) (total_minutes (x_snapped - px prev)) = Some slope ->
  interpolated self x_snapped y =
  Ok (map (fun t => mkPoint t (fsub (py prev) (fmul slope (total_minutes (px prev - t)))))
          (progression b (period self) (S n) (m - S n))).
Proof.
  intros Hp Hlast Hcur Hn Hm Hfar Hdiv.
  apply last_item_rev in Hlast. destruct Hlast as [front Hrev].
  unfold interpolated. rewrite Hrev, Hcur.
  destruct (cur + period self <? x_snapped) eqn:E; [|apply Z.ltb_ge in E; lia].
  unfold float_div. rewrite Hdiv. simpl rbind.
  assert (Hnm : (n < m)%nat) by nia.
  assert (Hd : Z.of_nat (S (m - S n)) = Z.of_nat m - Z.of_nat n) by lia.
  assert (Hx : x_snapped = cur + Z.of_nat (S (m - S n)) * period self)
    by (rewrite Hd; lia).
  rewrite Hx.
  rewrite date_range_left_steps by assumption. simpl rbind.
  replace (cur + period self) with (b + Z.of_nat (S n) * period self) by lia.
  now rewrite progression_shift.
Qed.


Lemma interpolated_timestamps (self : PlotArtist Y) (b cur x_snapped : Z) (y : Y)
    (n m : nat) (between : list (Point Y)) :
  0 < period self ->
  points self <> [] ->
  current_x self = Some cur ->
  cur = b + Z.of_nat n * period self ->
  x_snapped = b + Z.of_nat m * period self ->
  (n < m)%nat ->
  interpolated self x_snapped y = Ok between ->
  map px between = progression b (period self) (S n) (m - S n).
Proof.
  intros Hp Hne Hcur Hn Hm Hnm Hi.
  destruct (rev (points self)) as [|prev front] eqn:Hrev.
  { apply (f_equal (@rev _)) in Hrev. rewrite rev_involutive in Hrev.
    contradiction. }
  assert (Hlast : last_item (points self) = Ok prev)
    by (apply last_item_rev; now exists front).
  destruct (Z.ltb_spec (cur + period self) x_snapped) as [Hfar|Hnear].
  - destruct (fdiv (fsub y (py prev)) (total_minutes (x_snapped - px prev)))
      as [slope|] eqn:Hdiv.
    + rewrite (interpolated_steps self prev b cur x_snapped y slope n m) in Hi
        by assumption.
      injection Hi as <-. rewrite map_map. simpl. apply map_id.
    + unfold interpolated in Hi. rewrite Hrev, Hcur in Hi.
      apply Z.ltb_lt in Hfar. rewrite Hfar in Hi.
      unfold float_div in Hi. rewrite Hdiv in Hi. discriminate.
  - unfold interpolated in Hi. rewrite Hrev, Hcur in Hi.
    apply Z.ltb_ge in Hnear. rewrite Hnear in Hi. injection Hi as <-.
    assert (m = S n) by nia. subst m. rewrite Nat.sub_diag. reflexivity.
Qed.

(** C10: while a series is being captured on the grid the constructor
    built, a selection that succeeds, at the timestamp returned by
    [get_target_x_coord], keeps the recorded points on the grid's first
    timestamps, one per timestamp and in order, up to the new [current_x];
    their timestamps are strictly increasing and pairwise distinct. *)
Theorem plot_selection_preserves_covered_run (self self' : PlotArtist Y)
    (x_sel y : Y) (target_x : Z) :
  built_grid self ->
  covered_run self ->
  get_target_x_coord self x_sel = Ok (Some target_x) ->
  plot_selection self target_x y = Ok self' ->
  built_grid self' /\
  covered_run self' /\
  current_x self' = Some target_x /\
  StronglySorted Z.lt (map px (points self')) /\
  NoDup (map px (points self')).
Proof.
  intros Hgrid Hrun Htarget Hplot.
  destruct (built_grid_progression self Hgrid) as [size Hsize].
  pose proof Hgrid as [Hp _].
  unfold plot_selection in Hplot.
  destruct (interpolated self target_x y) as [between|] eqn:Hi; [|discriminate].
  simpl in Hplot. injection Hplot as <-.
  assert (Hshape : exists m : nat,
            (m < size)%nat /\
            target_x = start self + Z.of_nat m * period self /\
            map px (points self ++ between ++ [mkPoint target_x y]) =
            progression (start self) (period self) 0 (S m)).
  { unfold covered_run in Hrun.
    destruct (current_x self) as [cur|] eqn:Hcur.
    - destruct Hrun as [n [Hpts Hnth]].
      destruct (get_target_x_coord_returns self cur x_sel _ Hcur Htarget)
        as [x_pd [_ Er]].
      rewrite Hsize in Hpts, Hnth, Er.
      apply nth_error_progression in Hnth. destruct Hnth as [Hn Ecur].
      destruct (sorted _ _) as [|t rest] eqn:E; [discriminate|].
      injection Er as <-.
      apply sorted_first in E. destruct E as [Hin _].
      apply filter_In in Hin. destruct Hin as [Hin Hlt].
      apply Z.ltb_lt in Hlt. apply In_progression in Hin.
      destruct Hin as [m [Hm Et]].
      assert (Hnm : (n < m)%nat) by nia.
      exists m. split; [lia|]. split; [exact Et|].
      rewrite firstn_progression in Hpts by lia.
      assert (Hne : points self <> []).
      { intros Hnil. rewrite Hnil in Hpts. discriminate. }
      rewrite !map_app, Hpts.
      rewrite (interpolated_timestamps self (start self) cur target_x y n m between)
        by assumption.
      simpl map. replace (S m) with (S n + ((m - S n) + 1))%nat by lia.
      rewrite !progression_app. simpl (0 + S n)%nat.
      replace (S n + (m - S n))%nat with m by lia.
      unfold progression at 4. simpl. now rewrite Et.
    - unfold get_target_x_coord in Htarget. rewrite Hcur, Hsize in Htarget.
      rewrite Hrun.
      unfold interpolated in Hi. rewrite Hrun in Hi. simpl in Hi.
      injection Hi as <-.
      destruct size as [|size']; [discriminate|].
      simpl in Htarget. injection Htarget as <-.
      exists 0%nat. split; [lia|]. split; [lia|]. reflexivity. }
  destruct Hshape as [m [Hm [Et Hpts]]].
  split; [exact Hgrid|]. split; [|split; [reflexivity|]].
  - unfold covered_run. cbn [current_x points allowed_x].
    exists m. rewrite Hsize. split.
    + rewrite firstn_progression by lia. exact Hpts.
    + apply nth_error_progression. split; [exact Hm | exact Et].
  - cbn [points]. rewrite Hpts. split.
    + now apply progression_sorted.
    + now apply sorted_lt_NoDup, progression_sorted.
Qed.

End SelectionFacts.

(** ** Interpolation in exact arithmetic *)












(** C1 as stated fails in doubles: on a grid of period 795 ms, from
    prev = (0 s, 5.0) a selection of 11.0 three periods later appends
    7.000000000000001 and 9.000000000000002, the doubles next above 7.0
    and 9.0, which Python's [==] tells apart from 7.0 and 9.0. *)
Lemma plot_selection_interpolation_double_counterexample :
  (exists self : PlotArtist PrimFloat.float,
     __init__ 0 3500000000 795000000 0 = Ok self /\
     allowed_x self = allowed_x session_795ms) /\
  built_grid session_795ms /\
  last_item (points session_795ms) = Ok (mkPoint 0 (float_of_Z 5)) /\
  current_x session_795ms = Some 0 /\
  exists self' : PlotArtist PrimFloat.float,
    plot_selection session_795ms (0 + 3 * 795000000) (float_of_Z 11) = Ok self' /\
    points self' =
      points session_795ms ++
      [mkPoint (0 + 795000000) (PrimFloat.next_up (float_of_Z 7));
       mkPoint (0 + 2 * 795000000) (PrimFloat.next_up (float_of_Z 9));
       mkPoint (0 + 3 * 795000000) (float_of_Z 11)] /\
    feqb (PrimFloat.next_up (float_of_Z 7)) (float_of_Z 7) = false /\
    feqb (PrimFloat.next_up (float_of_Z 9)) (float_of_Z 9) = false.
Proof.
  split; [eexists; split; vm_compute; reflexivity|].
  split; [split; vm_compute; reflexivity|].
  split; [reflexivity|]. split; [reflexivity|].
  eexists. split; [vm_compute; reflexivity|].
  split; [vm_compute; reflexivity|]. split; vm_compute; reflexivity.
Qed.

Lemma get_target_x_coord_first_point_witness :
  current_x session_start = None /\
  first_item (allowed_x session_start) = Ok 0 /\
  get_target_x_coord session_start (click_at_minute 12) = Ok (Some 0).
Proof.
  split; [reflexivity|]. split; [reflexivity|].
  apply (get_target_x_coord_first_point session_start 0); reflexivity.
Defined.

Lemma plot_selection_preserves_covered_run_witness :
  exists self' : PlotArtist Qc,
    plot_selection session_first_point (10 * minute) (Zc 11) = Ok self' /\
    built_grid self' /\
    covered_run self' /\
    current_x self' = Some (10 * minute) /\
    StronglySorted Z.lt (map px (points self')) /\
    NoDup (map px (points self')).
Proof.
  eexists. split; [reflexivity|].
  apply (plot_selection_preserves_covered_run session_first_point _
           (click_at_minute 9) (Zc 11) (10 * minute)).
  - split; reflexivity.
  - exists 0%nat. split; reflexivity.
  - reflexivity.
  - reflexivity.
Defined.

(** ** Finishing a series *)

Section FinishFacts.
Context {Y : Type} `{FloatOps Y}.

(** With as many points as the index has entries the series becomes a
    column, whether or not the points sit on the grid. *)
Lemma finish_series_commits (self : PlotArtist Y) (name : string) :
  List.length (points self) = List.length (df_index (df self)) ->
  finish_series self name =
  Ok (mkPlotArtist (start self) (end_ self) (period self) (tz self) (allowed_x self)
        (mkDataFrame (df_index (df self))
           (set_column name (map Some (map py (points self))) (df_columns (df self))))
        [] None).
Proof.
  intros Hlen. unfold finish_series, df_setitem.
  rewrite length_map, Hlen, Nat.eqb_refl. reflexivity.
Qed.

(** With any other number of points the column assignment raises, and
    nothing is committed. *)
Lemma finish_series_wrong_count (self : PlotArtist Y) (name : string) :
  List.length (points self) <> List.length (df_index (df self)) ->
  df_index (df self) <> [] ->
  finish_series self name = Raise ValueError.
Proof.
  intros Hlen Hidx. unfold finish_series, df_setitem.
  rewrite length_map.
  destruct (Nat.eqb_spec (List.length (points self)) (List.length (df_index (df self))))
    as [E|_]; [contradiction|].
  destruct (df_index (df self)) as [|i idx]; [contradiction|]. reflexivity.
Qed.

End FinishFacts.

(** C4, on the session grid: the series "s1" gets one click and then the
    wait ends without a click.  The single point fails the validation, the
    warning is printed, and the assignment of the one value to the
    four-row frame raises [ValueError]: the series is not committed. *)
Theorem draw_series_short_series_raises :
  draw_series session_start [[(click_at_minute 0, Zc 0)]]
              (mkWorld ["s1"%string] []) =
  (Raise ValueError, mkWorld [] [Print InvalidPoints]).
Proof. vm_compute. reflexivity. Qed.

(** ** The console *)

Lemma runs_ret {A : Type} (a : A) (P : event -> Prop) (Q : A -> Prop) :
  Q a -> runs (ret a) P Q.
Proof.
  intros HQ w. exists []. simpl. rewrite app_nil_r.
  repeat split; auto. intros a' E. now injection E as <-.
Qed.

Lemma runs_lift {A : Type} (r : result A) (P : event -> Prop) (Q : A -> Prop) :
  (forall a, r = Ok a -> Q a) -> runs (lift r) P Q.
Proof.
  intros HQ w. exists []. simpl. rewrite app_nil_r. repeat split; auto.
Qed.

Lemma runs_emit (e : event) (P : event -> Prop) :
  P e -> runs (emit e) P (fun _ => True).
Proof.
  intros HP w. exists [e]. simpl. repeat split; auto.
Qed.

Lemma runs_input (P : event -> Prop) : runs input P (fun _ => True).
Proof.
  intros w. exists []. unfold input. rewrite app_nil_r.
  destruct (stdin w) as [|line rest] eqn:E; simpl; rewrite ?E; simpl;
    repeat split; auto.
Qed.

Lemma runs_bind {A B : Type} (m : io A) (k : A -> io B)
    (P : event -> Prop) (Q : A -> Prop) (R : B -> Prop) :
  runs m P Q -> (forall a, Q a -> runs (k a) P R) -> runs (bind m k) P R.
Proof.
  intros Hm Hk w. destruct (Hm w) as [evs [Ht [HP [Hin HQ]]]].
  unfold bind. destruct (m w) as [[a|e] w1]; simpl in *.
  - destruct (Hk a (HQ a eq_refl) w1) as [evs' [Ht' [HP' [Hin' HR]]]].
    exists (evs ++ evs'). rewrite Ht', Ht, app_assoc.
    repeat split; auto; [now apply Forall_app | lia].
  - exists evs. repeat split; auto. discriminate.
Qed.

Lemma runs_weaken {A : Type} (m : io A) (P P' : event -> Prop) (Q Q' : A -> Prop) :
  runs m P Q -> (forall e, P e -> P' e) -> (forall a, Q a -> Q' a) -> runs m P' Q'.
Proof.
  intros Hm HP HQ w. destruct (Hm w) as [evs [Ht [HPe [Hin HQa]]]].
  exists evs. repeat split; auto.
  eapply Forall_impl; [|exact HPe]. exact HP.
Qed.

Section GetResponseFacts.
Variables (default : string) (allow_empty : bool).
Variable P : event -> Prop.
Hypothesis P_must : P (Print MustProvide).
Hypothesis P_not_met : P (Print NotMet).

Lemma get_response_fuel_S (fuel : nat) (condition : option (string -> io bool))
    (w : world) :
  get_response_fuel (S fuel) default allow_empty condition w =
  match _get_response_fuel fuel default allow_empty w with
  | None => None
  | Some (Raise e, w1) => Some (Raise e, w1)
  | Some (Ok initial_response, w1) =>
      match condition with
      | None => Some (Ok initial_response, w1)
      | Some cond =>
          match cond initial_response w1 with
          | (Raise e, w2) => Some (Raise e, w2)
          | (Ok true, w2) => Some (Ok initial_response, w2)
          | (Ok false, w2) =>
              get_response_fuel fuel default allow_empty condition
                (mkWorld (stdin w2) (trace w2 ++ [Print NotMet]))
          end
      end
  end.
Proof. reflexivity. Qed.

Lemma _get_response_fuel_S (fuel : nat) (w : world) :
  _get_response_fuel (S fuel) default allow_empty w =
  match stdin w with
  | [] => Some (Raise EOFError, w)
  | response :: rest =>
      if nonempty response then Some (Ok response, mkWorld rest (trace w))
      else if nonempty default then Some (Ok default, mkWorld rest (trace w))
      else if negb allow_empty then
        get_response_fuel fuel default allow_empty None
          (mkWorld rest (trace w ++ [Print MustProvide]))
      else Some (Ok EmptyString, mkWorld rest (trace w))
  end.
Proof.
  simpl. unfold input. destruct (stdin w) as [|response rest]; [reflexivity|].
  destruct (nonempty response); [reflexivity|].
  destruct (nonempty default); [reflexivity|].
  destruct allow_empty; reflexivity.
Qed.

Lemma leaves_intro {A : Type} (w : world) (x : result A * world)
    (evs : list event) (Q : A -> Prop) :
  trace (snd x) = trace w ++ evs ->
  Forall P evs ->
  (List.length (stdin (snd x)) <= List.length (stdin w))%nat ->
  (forall a, fst x = Ok a ->
     (List.length (stdin (snd x)) < List.length (stdin w))%nat /\ Q a) ->
  leaves w x P Q.
Proof. intros Ht HP Hin HQ. exists evs. auto. Qed.

Lemma leaves_raise {A : Type} (w w1 : world) (e : exn) (evs : list event)
    (Q : A -> Prop) :
  trace w1 = trace w ++ evs ->
  Forall P evs ->
  (List.length (stdin w1) <= List.length (stdin w))%nat ->
  leaves w (@Raise A e, w1) P Q.
Proof.
  intros Ht HP Hin. apply (leaves_intro _ _ evs); auto.
  simpl. intros a E. discriminate.
Qed.

Lemma leaves_step {A : Type} (w w1 : world) (x : result A * world)
    (evs : list event) (Q : A -> Prop) :
  trace w1 = trace w ++ evs ->
  Forall P evs ->
  (List.length (stdin w1) <= List.length (stdin w))%nat ->
  leaves w1 x P Q -> leaves w x P Q.
Proof.
  intros Ht HP Hin [evs' [Ht' [HP' [Hin' HQ]]]].
  apply (leaves_intro _ _ (evs ++ evs')).
  - now rewrite Ht', Ht, app_assoc.
  - now apply Forall_app.
  - lia.
  - intros a E. destruct (HQ a E). split; [lia | assumption].
Qed.

(** Partial correctness of the two mutually recursive prompts. *)
Lemma get_response_fuel_leaves (fuel : nat) :
  (forall condition Q w x,
     accepts condition P Q ->
     get_response_fuel fuel default allow_empty condition w = Some x ->
     leaves w x P Q) /\
  (forall w x,
     _get_response_fuel fuel default allow_empty w = Some x ->
     leaves w x P (fun _ => True)).
Proof.
  induction fuel as [|fuel [IHg IHr]]; [split; intros; discriminate|].
  split.
  - intros condition Q w x Hacc Hx. rewrite get_response_fuel_S in Hx.
    destruct (_get_response_fuel fuel default allow_empty w) as [[[r|e] w1]|] eqn:Er;
      [| |discriminate].
    + destruct (IHr w _ Er) as [evs1 [Ht1 [HP1 [Hin1 HQ1]]]]. cbn [fst snd] in *.
      destruct (HQ1 r eq_refl) as [Hlt1 _].
      destruct condition as [cond|].
      * destruct (Hacc r w1) as [evs2 [Ht2 [HP2 [Hin2 HQ2]]]].
        destruct (cond r w1) as [[[|]|e] w2] eqn:Ec; cbn [fst snd] in *.
        -- injection Hx as <-. apply (leaves_intro _ _ (evs1 ++ evs2)); simpl.
           ++ now rewrite Ht2, Ht1, app_assoc.
           ++ now apply Forall_app.
           ++ lia.
           ++ intros a E. injection E as <-. split; [lia | now apply (HQ2 true)].
        -- apply (leaves_step w (mkWorld (stdin w2) (trace w2 ++ [Print NotMet])) x
                    ((evs1 ++ evs2) ++ [Print NotMet])).
           ++ simpl. now rewrite Ht2, Ht1, !app_assoc.
           ++ apply Forall_app. split; [now apply Forall_app|].
              constructor; [exact P_not_met | constructor].
           ++ simpl. lia.
           ++ now apply (IHg (Some cond) Q).
        -- injection Hx as <-. apply (leaves_raise _ _ _ (evs1 ++ evs2)).
           ++ now rewrite Ht2, Ht1, app_assoc.
           ++ now apply Forall_app.
           ++ lia.
      * injection Hx as <-. apply (leaves_intro _ _ evs1); try assumption.
        intros a E. cbn [fst snd] in *. injection E as <-. split; [lia | apply Hacc].
    + injection Hx as <-.
      destruct (IHr w _ Er) as [evs1 [Ht1 [HP1 [Hin1 _]]]].
      now apply (leaves_raise _ _ _ evs1).
  - intros w x Hx. rewrite _get_response_fuel_S in Hx.
    destruct (stdin w) as [|response rest] eqn:Ein.
    + injection Hx as <-. apply (leaves_raise _ _ _ []); auto.
      now rewrite app_nil_r.
    + assert (Hread : forall s : string,
                leaves w (Ok s, mkWorld rest (trace w)) P (fun _ => True)).
      { intros s. apply (leaves_intro _ _ []); simpl; rewrite ?app_nil_r, ?Ein; simpl;
          auto. }
      destruct (nonempty response); [injection Hx as <-; apply Hread|].
      destruct (nonempty default); [injection Hx as <-; apply Hread|].
      destruct allow_empty; simpl in Hx; [injection Hx as <-; apply Hread|].
      apply (leaves_step w (mkWorld rest (trace w ++ [Print MustProvide])) x
               [Print MustProvide]).
      * reflexivity.
      * constructor; [exact P_must | constructor].
      * simpl. rewrite Ein. simpl. lia.
      * apply (IHg None (fun _ => True)); [|exact Hx]. intros s. exact I.
Qed.

(** More fuel does not change an answer. *)
Lemma get_response_fuel_mono (fuel : nat) :
  (forall condition w x,
     get_response_fuel fuel default allow_empty condition w = Some x ->
     get_response_fuel (S fuel) default allow_empty condition w = Some x) /\
  (forall w x,
     _get_response_fuel fuel default allow_empty w = Some x ->
     _get_response_fuel (S fuel) default allow_empty w = Some x).
Proof.
  induction fuel as [|fuel [IHg IHr]]; [split; intros; discriminate|].
  split.
  - intros condition w x Hx.
    rewrite get_response_fuel_S in Hx. rewrite get_response_fuel_S.
    destruct (_get_response_fuel fuel default allow_empty w) as [y|] eqn:Er;
      [|discriminate].
    rewrite (IHr w y Er). destruct y as [[r|e] w1]; [|exact Hx].
    destruct condition as [cond|]; [|exact Hx].
    destruct (cond r w1) as [[[|]|e] w2]; try exact Hx.
    now apply IHg.
  - intros w x Hx.
    rewrite _get_response_fuel_S in Hx. rewrite _get_response_fuel_S.
    destruct (stdin w) as [|response rest]; [exact Hx|].
    destruct (nonempty response); [exact Hx|].
    destruct (nonempty default); [exact Hx|].
    destruct (negb allow_empty); [|exact Hx].
    now apply IHg.
Qed.

Lemma get_response_fuel_more (fuel fuel' : nat)
    (condition : option (string -> io bool)) (w : world) (x : result string * world) :
  (fuel <= fuel')%nat ->
  get_response_fuel fuel default allow_empty condition w = Some x ->
  get_response_fuel fuel' default allow_empty condition w = Some x.
Proof.
  induction 1 as [|fuel' _ IH]; [trivial|].
  intros Hx. now apply get_response_fuel_mono, IH.
Qed.

(** Two calls per line of input, and two more, always end. *)
Lemma get_response_fuel_ends (fuel : nat) :
  (forall condition Q w,
     accepts condition P Q ->
     (2 * List.length (stdin w) + 2 <= fuel)%nat ->
     get_response_fuel fuel default allow_empty condition w <> None) /\
  (forall w,
     (2 * List.length (stdin w) + 1 <= fuel)%nat ->
     _get_response_fuel fuel default allow_empty w <> None).
Proof.
  induction fuel as [|fuel [IHg IHr]]; [split; intros; lia|].
  split.
  - intros condition Q w Hacc Hfuel. rewrite get_response_fuel_S.
    destruct (_get_response_fuel fuel default allow_empty w) as [[[r|e] w1]|] eqn:Er.
    + destruct (proj2 (get_response_fuel_leaves fuel) w _ Er)
        as [evs1 [_ [_ [_ HQ1]]]].
      destruct (HQ1 r eq_refl) as [Hlt _]. simpl in Hlt.
      destruct condition as [cond|]; [|discriminate].
      destruct (Hacc r w1) as [evs2 [_ [_ [Hin2 _]]]].
      destruct (cond r w1) as [[[|]|e] w2]; try discriminate.
      simpl in Hin2. apply (IHg (Some cond) Q); [exact Hacc|]. simpl. lia.
    + discriminate.
    + exfalso. apply (IHr w); [lia | exact Er].
  - intros w Hfuel. rewrite _get_response_fuel_S.
    destruct (stdin w) as [|response rest] eqn:Ein; [discriminate|].
    destruct (nonempty response); [discriminate|].
    destruct (nonempty default); [discriminate|].
    destruct (negb allow_empty); [|discriminate].
    apply (IHg None (fun _ => True)); [intros s; exact I|].
    simpl in *. lia.
Qed.

(** [get_response] is the prompt run on any sufficient fuel: it never
    reports an exhausted recursion. *)
Lemma get_response_fuel_enough (fuel : nat)
    (condition : option (string -> io bool)) (Q : string -> Prop) (w : world) :
  accepts condition P Q ->
  (enough_fuel w <= fuel)%nat ->
  get_response_fuel fuel default allow_empty condition w =
  Some (get_response default allow_empty condition w).
Proof.
  intros Hacc Hfuel. unfold get_response.
  destruct (get_response_fuel (enough_fuel w) default allow_empty condition w)
    as [x|] eqn:Ex.
  - now apply (get_response_fuel_more (enough_fuel w)).
  - exfalso. apply (proj1 (get_response_fuel_ends (enough_fuel w)) condition Q w Hacc).
    + unfold enough_fuel. lia.
    + exact Ex.
Qed.

Lemma get_response_runs (condition : option (string -> io bool))
    (Q : string -> Prop) :
  accepts condition P Q ->
  runs (get_response default allow_empty condition) P Q.
Proof.
  intros Hacc w.
  pose proof (get_response_fuel_enough (enough_fuel w) condition Q w Hacc (le_n _)) as E.
  destruct (proj1 (get_response_fuel_leaves (enough_fuel w)) condition Q w _ Hacc E)
    as [evs [Ht [HP [Hin HQ]]]].
  exists evs. repeat split; auto. intros a Ea. now destruct (HQ a Ea).
Qed.

(** A line that the validity test refuses is dropped: the refusal is
    printed and the prompt starts again on the rest of the input. *)
Lemma get_response_refused (cond : string -> io bool) (Q : string -> Prop)
    (response : string) (rest : list string) (tr : list event) (w2 : world) :
  accepts (Some cond) P Q ->
  nonempty response = true ->
  cond response (mkWorld rest tr) = (Ok false, w2) ->
  get_response default allow_empty (Some cond) (mkWorld (response :: rest) tr) =
  get_response default allow_empty (Some cond)
    (mkWorld (stdin w2) (trace w2 ++ [Print NotMet])).
Proof.
  intros Hacc Hne Hcond.
  assert (Hin : (List.length (stdin w2) <= List.length rest)%nat).
  { destruct (Hacc response (mkWorld rest tr)) as [_ [_ [_ [Hin _]]]].
    now rewrite Hcond in Hin. }
  unfold get_response at 1.
  replace (enough_fuel (mkWorld (response :: rest) tr))
    with (S (S (enough_fuel (mkWorld rest tr))))
    by (unfold enough_fuel; simpl; lia).
  rewrite get_response_fuel_S, _get_response_fuel_S. cbn [stdin trace].
  rewrite Hne, Hcond.
  now rewrite (get_response_fuel_enough _ (Some cond) Q)
    by (exact Hacc || (unfold enough_fuel; simpl; lia)).
Qed.

(** A non-empty line that passes the test, or meets none, is the answer. *)
Lemma get_response_accepted (condition : option (string -> io bool))
    (response : string) (rest : list string) (tr : list event) :
  nonempty response = true ->
  match condition with
  | None => True
  | Some cond => cond response (mkWorld rest tr) = (Ok true, mkWorld rest tr)
  end ->
  get_response default allow_empty condition (mkWorld (response :: rest) tr) =
  (Ok response, mkWorld rest tr).
Proof.
  intros Hne Hcond. unfold get_response.
  replace (enough_fuel (mkWorld (response :: rest) tr))
    with (S (S (enough_fuel (mkWorld rest tr))))
    by (unfold enough_fuel; simpl; lia).
  rewrite get_response_fuel_S, _get_response_fuel_S. cbn [stdin trace].
  rewrite Hne. destruct condition as [cond|]; [|reflexivity].
  now rewrite Hcond.
Qed.

End GetResponseFacts.

(** ** Validation of the columns to unpivot *)

Section ValidationFacts.
Context {Y : Type} `{FloatOps Y}.
Variable df : Table Y.

Lemma response_is_column_eval (response : string) (w : world) :
  response_is_column df response w =
  match missing_columns df response with
  | [] => (Ok true, w)
  | _ :: _ =>
      (Ok false,
       mkWorld (stdin w)
         (trace w ++ [Print (ColumnsNotFound (missing_columns df response))]))
  end.
Proof.
  unfold response_is_column. fold (missing_columns df response).
  destruct (missing_columns df response); reflexivity.
Qed.

Lemma no_missing_columns (response : string) :
  missing_columns df response = [] ->
  forall c, In c (split_comma (remove_spaces response)) -> In c (columns df).
Proof.
  unfold missing_columns. intros Hnone c Hc.
  destruct (existsb (String.eqb c) (columns df)) eqn:E.
  - apply existsb_exists in E. destruct E as [c' [Hin Heq]].
    apply String.eqb_eq in Heq. now subst c'.
  - assert (Hin : In c (filter (fun col => negb (existsb (String.eqb col) (columns df)))
                               (split_comma (remove_spaces response)))).
    { apply filter_In. split; [exact Hc | now rewrite E]. }
    rewrite Hnone in Hin. destruct Hin.
Qed.

Lemma missing_columns_absent (response : string) (c : string) :
  In c (missing_columns df response) ->
  In c (split_comma (remove_spaces response)) /\ ~ In c (columns df).
Proof.
  unfold missing_columns. intros Hc. apply filter_In in Hc.
  destruct Hc as [Hin Hex]. split; [exact Hin|]. intros Habs.
  assert (E : existsb (String.eqb c) (columns df) = true).
  { apply existsb_exists. exists c. split; [exact Habs | apply String.eqb_refl]. }
  rewrite E in Hex. discriminate.
Qed.

Lemma response_is_column_accepts (P : event -> Prop) :
  (forall m, P (Print m)) ->
  accepts (Some (response_is_column df)) P
    (fun response =>
       forall c, In c (split_comma (remove_spaces response)) -> In c (columns df)).
Proof.
  intros HP response w. rewrite response_is_column_eval.
  destruct (missing_columns df response) as [|m ms] eqn:E.
  - exists []. simpl. rewrite app_nil_r. repeat split; auto.
    intros a _ _. now apply no_missing_columns.
  - exists [Print (ColumnsNotFound (m :: ms))]. simpl. repeat split; auto.
    intros a Ea Etrue. injection Ea as <-. discriminate.
Qed.

Lemma read_identifier_mapping_runs (P : event -> Prop)
    (unpivot_columns : list string) (mapping : list (string * string)) :
  (forall m, P (Print m)) ->
  runs (read_identifier_mapping unpivot_columns mapping) P (fun _ => True).
Proof.
  intros HP. revert mapping.
  induction unpivot_columns as [|c cs IH]; intros mapping; simpl.
  - now apply runs_ret.
  - apply (runs_bind _ _ P (fun _ => True)).
    + apply get_response_runs; auto. intros s. exact I.
    + intros a _. apply IH.
Qed.

(** One pass of the loop prints and melts, and melts only columns that
    the frame has. *)
Lemma melt_set_runs (time_col grouping_col : string) :
  runs (melt_set df time_col grouping_col) (melt_phase_event df) (fun _ => True).
Proof.
  assert (HP : forall m, melt_phase_event df (Print m)) by (intros m; exact I).
  unfold melt_set.
  apply (runs_bind _ _ _ (fun _ => True)).
  { apply get_response_runs; auto. intros s. exact I. }
  intros value_column_name _.
  apply (runs_bind _ _ _
           (fun response =>
              forall c, In c (split_comma (remove_spaces response)) -> In c (columns df))).
  { apply get_response_runs; auto. now apply response_is_column_accepts. }
  intros unpivot_columns_str Hcols.
  apply (runs_bind _ _ _ (fun _ => True)).
  { now apply read_identifier_mapping_runs. }
  intros identifier_mapping _.
  apply (runs_bind _ _ _ (fun _ => True)).
  { apply runs_emit. exact Hcols. }
  intros _ _.
  apply (runs_bind _ _ _ (fun _ => True)).
  { now apply runs_lift. }
  intros melted_set _. now apply runs_lift.
Qed.

Lemma melt_sets_runs (num_sets : nat) (time_col grouping_col : string)
    (melted_dfs : list (Table Y)) :
  runs (melt_sets num_sets df time_col grouping_col melted_dfs)
       (melt_phase_event df) (fun _ => True).
Proof.
  revert melted_dfs. induction num_sets as [|n IH]; intros melted_dfs; simpl.
  - now apply runs_ret.
  - apply (runs_bind _ _ _ (fun _ => True)); [apply melt_set_runs|].
    intros melted_set _. apply IH.
Qed.

Lemma merge_sets_runs (final_melted_df : Table Y) (rest : list (Table Y))
    (time_col grouping_col : string) :
  runs (merge_sets final_melted_df rest time_col grouping_col)
       (fun e => e = Merge) (fun _ => True).
Proof.
  revert final_melted_df. induction rest as [|merge_df rest IH];
    intros final_melted_df; simpl.
  - now apply runs_ret.
  - apply (runs_bind _ _ _ (fun _ => True)); [now apply runs_emit|].
    intros _ _. apply (runs_bind _ _ _ (fun _ => True)); [now apply runs_lift|].
    intros merged _. apply IH.
Qed.

Lemma messages_then_melt_bind {A B : Type} (m : io A) (k : A -> io B)
    (Q : A -> Prop) :
  runs m is_message Q ->
  (forall a w, Q a ->
     exists evs, trace (snd (k a w)) = trace w ++ evs /\ messages_then_melt df evs) ->
  forall w,
    exists evs,
      trace (snd (bind m k w)) = trace w ++ evs /\ messages_then_melt df evs.
Proof.
  intros Hm Hk w. destruct (Hm w) as [evs1 [Ht1 [HP1 [_ HQ]]]].
  unfold bind. destruct (m w) as [[a|e] w1]; simpl in Ht1.
  - destruct (Hk a w1 (HQ a eq_refl)) as [evs2 [Ht2 [msgs [Hmsgs Hshape]]]].
    exists (evs1 ++ evs2). split; [now rewrite Ht2, Ht1, app_assoc|].
    exists (evs1 ++ msgs). split; [now apply Forall_app|].
    destruct Hshape as [->|[value_vars [-> Hvars]]].
    + now left.
    + right. exists value_vars. split; [now rewrite app_assoc | exact Hvars].
  - exists evs1. split; [exact Ht1|]. exists evs1. split; [exact HP1 | now left].
Qed.

(** Within one set, every report of missing columns comes before the melt. *)
Lemma melt_set_messages_then_melt (time_col grouping_col : string) (w : world) :
  exists evs,
    trace (snd (melt_set df time_col grouping_col w)) = trace w ++ evs /\
    messages_then_melt df evs.
Proof.
  assert (HP : forall m, is_message (Print m)) by (intros m; exact I).
  unfold melt_set.
  apply (messages_then_melt_bind _ _ (fun _ => True)).
  { apply get_response_runs; auto. intros s. exact I. }
  intros value_column_name w1 _.
  apply (messages_then_melt_bind _ _
           (fun response =>
              forall c, In c (split_comma (remove_spaces response)) -> In c (columns df))).
  { apply get_response_runs; auto. now apply response_is_column_accepts. }
  intros unpivot_columns_str w2 Hcols.
  apply (messages_then_melt_bind _ _ (fun _ => True)).
  { now apply read_identifier_mapping_runs. }
  intros identifier_mapping w3 _.
  exists [Melt (split_comma (remove_spaces unpivot_columns_str))]. split.
  - unfold bind, emit, lift. cbn [fst snd].
    destruct (melt df time_col _ grouping_col value_column_name) as [melted_set|e];
      [|reflexivity].
    destruct (replace_in_column melted_set grouping_col identifier_mapping);
      reflexivity.
  - exists []. split; [constructor|]. right.
    exists (split_comma (remove_spaces unpivot_columns_str)). now split.
Qed.

(** A run of [reshape] is a melt phase followed by merges. *)
Lemma reshape_phases (time_col : string) (num_sets : Z) (grouping_col : string)
    (constants : list (string * cell Y)) (w : world) :
  exists melt_phase merge_phase : list event,
    trace (snd (reshape df time_col num_sets grouping_col constants w)) =
      trace w ++ melt_phase ++ merge_phase /\
    Forall (melt_phase_event df) melt_phase /\
    Forall (fun e => e = Merge) merge_phase.
Proof.
  unfold reshape, bind.
  destruct (melt_sets_runs (Z.to_nat num_sets) time_col grouping_col [] w)
    as [evs1 [Ht1 [HP1 _]]].
  destruct (melt_sets (Z.to_nat num_sets) df time_col grouping_col [] w)
    as [[melted_dfs|e] w1]; simpl in Ht1.
  - unfold lift at 1. destruct (first_item melted_dfs) as [first_df|e].
    + destruct (merge_sets_runs first_df (tl melted_dfs) time_col grouping_col w1)
        as [evs2 [Ht2 [HP2 _]]].
      destruct (merge_sets first_df (tl melted_dfs) time_col grouping_col w1)
        as [[merged|e] w2]; simpl in Ht2.
      * exists evs1, evs2. unfold lift.
        destruct (sort_values merged time_col); simpl;
          rewrite Ht2, Ht1, app_assoc; auto.
      * exists evs1, evs2. simpl. rewrite Ht2, Ht1, app_assoc. auto.
    + exists evs1, []. simpl. rewrite app_nil_r. auto.
  - exists evs1, []. simpl. rewrite app_nil_r. auto.
Qed.

End ValidationFacts.

(** C8 (as amended): a response that names a column absent from the frame
    is reported ("Columns not found", "Response did not meet conditions")
    and asked again, and nothing else happens; within one set the reports
    come before the melt of that set, and in a whole run they come before
    every merge, while sets read earlier are already melted; no melt ever
    runs on a column that the frame does not have. *)
Theorem reshape_flags_missing_columns (Y : Type) (ops : FloatOps Y)
    (df : Table Y) (time_col : string) (num_sets : Z) (grouping_col : string)
    (constants : list (string * cell Y)) :
  (forall (response : string) (rest : list string) (tr : list event),
     nonempty response = true ->
     missing_columns df response <> [] ->
     get_response EmptyString false (Some (response_is_column df))
       (mkWorld (response :: rest) tr) =
     get_response EmptyString false (Some (response_is_column df))
       (mkWorld rest
          (tr ++ [Print (ColumnsNotFound (missing_columns df response));
                  Print NotMet]))) /\
  (forall w : world,
     exists evs,
       trace (snd (melt_set df time_col grouping_col w)) = trace w ++ evs /\
       messages_then_melt df evs) /\
  (forall w : world,
     exists melt_phase merge_phase : list event,
       trace (snd (reshape df time_col num_sets grouping_col constants w)) =
         trace w ++ melt_phase ++ merge_phase /\
       Forall (melt_phase_event df) melt_phase /\
       Forall (fun e => e = Merge) merge_phase).
Proof.
  split; [|split].
  - intros response rest tr Hne Hmissing.
    assert (Hcond : response_is_column df response (mkWorld rest tr) =
                    (Ok false,
                     mkWorld rest
                       (tr ++ [Print (ColumnsNotFound (missing_columns df response))]))).
    { rewrite response_is_column_eval.
      destruct (missing_columns df response); [contradiction | reflexivity]. }
    rewrite (get_response_refused EmptyString false (fun _ => True)
               I I (response_is_column df) _
               response rest tr _
               (response_is_column_accepts df (fun _ => True) (fun _ => I))
               Hne Hcond).
    cbn [stdin trace]. now rewrite <- app_assoc.
  - apply melt_set_messages_then_melt.
  - apply reshape_phases.
Qed.

Lemma reshape_flags_missing_columns_witness :
  nonempty "zzz" = true /\
  missing_columns wide_example "zzz" <> [] /\
  get_response EmptyString false (Some (response_is_column wide_example))
    (mkWorld ["zzz"%string; "b"%string] []) =
  get_response EmptyString false (Some (response_is_column wide_example))
    (mkWorld ["b"%string]
       ([] ++ [Print (ColumnsNotFound (missing_columns wide_example "zzz"));
               Print NotMet])).
Proof.
  split; [reflexivity|]. split; [discriminate|].
  apply (proj1 (reshape_flags_missing_columns Qc QcFloat wide_example
                  "t" 2 "g" [])).
  - reflexivity.
  - discriminate.
Defined.

(** C8 as stated fails with two sets: the first set is melted before the
    second names the absent column "zzz", so a melt comes before the report. *)
Lemma reshape_melts_before_flag_counterexample :
  trace (snd (reshape wide_example "t" 2 "g" [] second_set_mistyped)) =
    [Melt ["a"%string]; Print (ColumnsNotFound ["zzz"%string]); Print NotMet;
     Melt ["b"%string]; Merge] /\
  ~ In "zzz"%string (columns wide_example) /\
  ~ flagged_before_reshaping
      (trace (snd (reshape wide_example "t" 2 "g" [] second_set_mistyped))).
Proof.
  assert (E : trace (snd (reshape wide_example "t" 2 "g" [] second_set_mistyped)) =
              [Melt ["a"%string]; Print (ColumnsNotFound ["zzz"%string]); Print NotMet;
               Melt ["b"%string]; Merge]) by (vm_compute; reflexivity).
  split; [exact E|]. split.
  - simpl. intros [D|[D|[D|[]]]]; discriminate.
  - rewrite E. intros Hflag.
    specialize (Hflag [Melt ["a"%string]] ["zzz"%string]
                  [Print NotMet; Melt ["b"%string]; Merge] eq_refl).
    inversion Hflag as [|e l He _]; subst. exact He.
Qed.

(** ** Sorting and permutations *)


Lemma StronglySorted_filter {A : Type} (R : A -> A -> Prop) (p : A -> bool)
    (l : list A) :
  StronglySorted R l -> StronglySorted R (filter p l).
Proof.
  induction 1 as [|a l Hs IH Hall]; simpl; [constructor|].
  destruct (p a); [|exact IH]. constructor; [exact IH|].
  apply Forall_forall. intros x Hx. apply filter_In in Hx.
  rewrite Forall_forall in Hall. now apply Hall.
Qed.


Lemma sort_by_ext {A : Type} (leb leb' : A -> A -> bool) (l : list A) :
  (forall a b, In a l -> In b l -> leb a b = leb' a b) ->
  sort_by leb l = sort_by leb' l.
Proof.
  induction l as [|a l IH]; intros Hext; simpl; [reflexivity|].
  rewrite <- IH by (intros x y Hx Hy; apply Hext; now right).
  assert (Hins : forall s, (forall b, In b s -> In b l) ->
                           insert_by leb a s = insert_by leb' a s).
  { induction s as [|b s IHs]; intros Hsub; simpl; [reflexivity|].
    rewrite (Hext a b) by (simpl; auto using in_eq).
    destruct (leb' a b); [reflexivity|].
    f_equal. apply IHs. intros x Hx. apply Hsub. now right. }
  apply Hins. intros b Hb. now apply In_sort_by in Hb.
Qed.

Section KeyOrder.
Context {A : Type} (key : A -> Z).

Lemma insert_by_key_sorted (a : A) (l : list A) :
  StronglySorted (fun x y => key x <= key y) l ->
  StronglySorted (fun x y => key x <= key y)
                 (insert_by (fun x y => key x <=? key y) a l).
Proof.
  induction 1 as [|b l Hs IH Hall]; simpl.
  - repeat constructor.
  - rewrite Forall_forall in Hall.
    destruct (Z.leb_spec (key a) (key b)) as [Hle|Hgt].
    + constructor; [now constructor; [|apply Forall_forall]|].
      constructor; [exact Hle|]. apply Forall_forall. intros x Hx.
      specialize (Hall x Hx). lia.
    + constructor; [exact IH|]. apply Forall_forall. intros x Hx.
      apply In_insert_by in Hx. destruct Hx as [->|Hx]; [lia | now apply Hall].
Qed.

Lemma sorted_StronglySorted (l : list A) :
  StronglySorted (fun x y => key x <= key y) (sorted key l).
Proof.
  induction l as [|a l IH]; simpl; [constructor|].
  now apply insert_by_key_sorted.
Qed.

(** A list in strict key order is the only arrangement of its elements in
    key order. *)
Lemma sorted_arrangement_unique (l1 l2 : list A) :
  StronglySorted (fun x y => key x <= key y) l1 ->
  StronglySorted (fun x y => key x < key y) l2 ->
  Permutation l1 l2 ->
  l1 = l2.
Proof.
  intros Hs1. revert l2. induction Hs1 as [|a l1 Hs1 IH Hall1]; intros l2 Hs2 Hperm.
  - apply Permutation_nil in Hperm. now subst.
  - destruct l2 as [|b l2].
    { apply Permutation_sym, Permutation_nil in Hperm. discriminate. }
    inversion Hs2 as [|? ? Hs2' Hall2]; subst.
    rewrite Forall_forall in Hall1, Hall2.
    assert (Hab : a = b).
    { assert (Ha : In a (b :: l2))
        by (apply (Permutation_in _ Hperm); now left).
      assert (Hb : In b (a :: l1))
        by (apply (Permutation_in _ (Permutation_sym Hperm)); now left).
      destruct Ha as [Ha|Ha]; [now symmetry|].
      specialize (Hall2 a Ha).
      destruct Hb as [Hb|Hb]; [exact Hb|].
      specialize (Hall1 b Hb). lia. }
    subst b. f_equal. apply IH; [exact Hs2'|].
    now apply Permutation_cons_inv in Hperm.
Qed.

End KeyOrder.

(** ** Frames *)

Section FrameFacts.
Context {Y : Type} `{FloatOps Y}.

Lemma index_of_first (c : string) (cols : list string) :
  index_of c (c :: cols) = Some 0%nat.
Proof. simpl. now rewrite String.eqb_refl. Qed.

Lemma index_of_second (c1 c2 : string) (cols : list string) :
  c1 <> c2 -> index_of c2 (c1 :: c2 :: cols) = Some 1%nat.
Proof.
  intros Hne. simpl. apply String.eqb_neq in Hne. rewrite Hne.
  now rewrite String.eqb_refl.
Qed.

Lemma index_of_absent (c : string) (cols : list string) :
  ~ In c cols -> index_of c cols = None.
Proof.
  induction cols as [|c' cols IH]; simpl; intros Hin; [reflexivity|].
  destruct (String.eqb_spec c' c) as [->|Hne]; [exfalso; auto|].
  rewrite IH by auto. reflexivity.
Qed.



Lemma get_locs_keys (time_col grouping_col : string) (names : list string) :
  time_col <> grouping_col ->
  get_locs (time_col :: grouping_col :: names) [time_col; grouping_col] =
  Ok [0%nat; 1%nat].
Proof.
  intros Hne. unfold get_locs, get_loc.
  rewrite index_of_first, index_of_second by assumption. reflexivity.
Qed.

Lemma others_keys (k : nat) : others [0%nat; 1%nat] (S (S k)) = seq 2 k.
Proof.
  unfold others. cbn [seq filter existsb Nat.eqb negb orb].
  apply filter_all. intros i Hi. apply in_seq in Hi.
  destruct i as [|[|i]]; [lia | lia | reflexivity].
Qed.

Lemma cell_eqb_time (t : Z) (c : cell Y) :
  cell_eqb (CTime t) c = true -> c = CTime t.
Proof.
  destruct c; simpl; try discriminate. intros E. apply Z.eqb_eq in E. now subst.
Qed.

Lemma cell_eqb_str (g : string) (c : cell Y) :
  cell_eqb (CStr g) c = true -> c = CStr g.
Proof.
  destruct c; simpl; try discriminate. intros E.
  apply String.eqb_eq in E. now subst.
Qed.

Lemma cell_eqb_time_refl (t : Z) : cell_eqb (Y := Y) (CTime t) (CTime t) = true.
Proof. simpl. apply Z.eqb_refl. Qed.

Lemma cell_eqb_str_refl (g : string) : cell_eqb (Y := Y) (CStr g) (CStr g) = true.
Proof. simpl. apply String.eqb_refl. Qed.

(** Rows of long tables have equal keys when [merge] finds them equal. *)
Lemma keyed_rows_same_key (k k' : nat) (l r : list (cell Y)) :
  keyed_row k l -> keyed_row k' r ->
  keys_eqb (key_of [0%nat; 1%nat] l) (key_of [0%nat; 1%nat] r) = true <->
  cell_at 0 l = cell_at 0 r /\ cell_at 1 l = cell_at 1 r.
Proof.
  intros [_ [t [g [Ht Hg]]]] [_ [t' [g' [Ht' Hg']]]].
  unfold key_of. cbn [map keys_eqb]. rewrite Ht, Hg, Ht', Hg'. split.
  - intros E. apply andb_true_iff in E. destruct E as [E0 E1].
    apply andb_true_iff in E1. destruct E1 as [E1 _].
    apply cell_eqb_time in E0. apply cell_eqb_str in E1. now split.
  - intros [E0 E1]. injection E0 as ->. injection E1 as ->.
    now rewrite cell_eqb_time_refl, cell_eqb_str_refl.
Qed.

Lemma cell_at_app_left (i : nat) (row tail : list (cell Y)) :
  (i < List.length row)%nat -> cell_at i (row ++ tail) = cell_at i row.
Proof. intros Hi. unfold cell_at. now apply app_nth1. Qed.

Lemma cell_at_app_last (row : list (cell Y)) (c : cell Y) :
  cell_at (List.length row) (row ++ [c]) = c.
Proof. unfold cell_at. apply nth_middle. Qed.

Lemma keyed_row_extend (k : nat) (row : list (cell Y)) (c : cell Y) :
  keyed_row k row -> keyed_row (k + 1) (row ++ [c]).
Proof.
  intros [Hlen [t [g [Ht Hg]]]]. split.
  - rewrite length_app, Hlen. simpl. lia.
  - exists t, g. rewrite !cell_at_app_left by lia. now split.
Qed.

Lemma merged_columns_keys (time_col grouping_col : string)
    (names rcols : list string) (rrest : list nat) :
  exists names',
    merged_columns [0%nat; 1%nat] rrest (time_col :: grouping_col :: names) rcols =
      time_col :: grouping_col :: names' /\
    List.length names' = (List.length names + List.length rrest)%nat.
Proof.
  unfold merged_columns. cbn [List.length seq map existsb Nat.eqb orb name_at nth].
  eexists. split; [reflexivity|].
  now rewrite length_app, !length_map, length_seq.
Qed.

Lemma from_left_rows (rk rrest : list nat) (right_rows : list (list (cell Y)))
    (l row : list (cell Y)) :
  List.length rrest = 1%nat ->
  In row (from_left [0%nat; 1%nat] rk rrest right_rows l) ->
  exists c, row = l ++ [c].
Proof.
  intros Hrrest. destruct rrest as [|j [|j' rrest]]; try discriminate.
  unfold from_left. destruct (matches _ _ _ _) as [|r rs].
  - intros [<-|[]]. now exists CNaN.
  - intros Hin. apply in_map_iff in Hin. destruct Hin as [r' [<- _]].
    now exists (cell_at j r').
Qed.

Lemma from_left_nonempty (lk rk rrest : list nat)
    (right_rows : list (list (cell Y))) (l : list (cell Y)) :
  exists row, In row (from_left lk rk rrest right_rows l).
Proof.
  unfold from_left. destruct (matches _ _ _ _) as [|r rs].
  - eexists. now left.
  - eexists. now left.
Qed.

Lemma from_left_match (lk rk rrest : list nat)
    (right_rows : list (list (cell Y))) (l r : list (cell Y)) :
  In r right_rows ->
  keys_eqb (key_of lk l) (key_of rk r) = true ->
  In (l ++ key_of rrest r) (from_left lk rk rrest right_rows l).
Proof.
  intros Hr Hkey.
  assert (Hm : In r (matches lk rk right_rows l))
    by (apply filter_In; now split).
  unfold from_left. destruct (matches lk rk right_rows l) as [|r0 rs];
    [destruct Hm|].
  apply in_map_iff. now exists r.
Qed.

Lemma map_seq_constant {A : Type} (f : nat -> A) (a : A) (i n : nat) :
  (forall j, (i <= j < i + n)%nat -> f j = a) ->
  map f (seq i n) = repeat a n.
Proof.
  revert i. induction n as [|n IH]; intros i Hf; simpl; [reflexivity|].
  rewrite Hf by lia. f_equal. apply IH. intros j Hj. apply Hf. lia.
Qed.

Lemma from_right_row (k : nat) (r : list (cell Y)) :
  from_right [0%nat; 1%nat] [0%nat; 1%nat] [2%nat] (S (S k)) r =
  (cell_at 0 r :: cell_at 1 r :: repeat CNaN k) ++ [cell_at 2 r].
Proof.
  unfold from_right. cbn [seq map position Nat.eqb option_map nth key_of].
  f_equal. f_equal. f_equal. apply map_seq_constant.
  intros j Hj. destruct j as [|[|j]]; [lia | lia | reflexivity].
Qed.

(** Merging one more melted set into a long table of [k] measurements:
    every row of either side is kept, with its key, and gains a column. *)
Lemma merge_outer_keyed (time_col grouping_col : string) (k : nat)
    (left right : Table Y) :
  time_col <> grouping_col ->
  keyed_table time_col grouping_col k left ->
  keyed_table time_col grouping_col 1 right ->
  exists merged,
    merge_outer left right [time_col; grouping_col] = Ok merged /\
    keyed_table time_col grouping_col (k + 1) merged /\
    (forall l, In l (rows left) -> exists c, In (l ++ [c]) (rows merged)) /\
    (forall r, In r (rows right) ->
       exists l, keyed_row k l /\
                 cell_at 0 l = cell_at 0 r /\ cell_at 1 l = cell_at 1 r /\
                 In (l ++ [cell_at 2 r]) (rows merged)).
Proof.
  intros Hne [[names [Hcols Hnames]] Hrows] [[names' [Hcols' Hnames']] Hrows'].
  rewrite Forall_forall in Hrows, Hrows'.
  unfold merge_outer. rewrite Hcols, Hcols', !get_locs_keys by assumption.
  cbn [rbind List.length]. rewrite Hnames', Hnames, others_keys.
  change (seq 2 1) with [2%nat].
  eexists. split; [reflexivity|]. cbn [columns rows].
  split; [|split].
  - split.
    + destruct (merged_columns_keys time_col grouping_col names
                  (time_col :: grouping_col :: names') [2%nat])
        as [names'' [E Hlen]].
      exists names''. split; [exact E|]. rewrite Hlen, Hnames. reflexivity.
    + apply Forall_app. split; apply Forall_forall; intros row Hrow.
      * apply in_flat_map in Hrow. destruct Hrow as [l [Hl Hrow]].
        apply from_left_rows in Hrow; [|reflexivity].
        destruct Hrow as [c ->]. apply keyed_row_extend. now apply Hrows.
      * apply in_map_iff in Hrow. destruct Hrow as [r [<- Hr]].
        apply filter_In in Hr. destruct Hr as [Hr _].
        rewrite from_right_row. apply keyed_row_extend.
        destruct (Hrows' r Hr) as [_ [t [g [Ht Hg]]]]. split.
        -- simpl. now rewrite repeat_length.
        -- exists t, g. now split.
  - intros l Hl.
    destruct (from_left_nonempty [0%nat; 1%nat] [0%nat; 1%nat] [2%nat]
                (rows right) l) as [row Hrow].
    pose proof Hrow as Hshape. apply from_left_rows in Hshape; [|reflexivity].
    destruct Hshape as [c ->]. exists c.
    apply in_or_app. left. apply in_flat_map. now exists l.
  - intros r Hr.
    destruct (existsb (fun l => keys_eqb (key_of [0%nat; 1%nat] l)
                                         (key_of [0%nat; 1%nat] r))
                      (rows left)) eqn:E.
    + apply existsb_exists in E. destruct E as [l [Hl Hkey]].
      exists l. split; [now apply Hrows|].
      pose proof (proj1 (keyed_rows_same_key k 1 l r (Hrows l Hl) (Hrows' r Hr)) Hkey)
        as [E0 E1].
      split; [exact E0|]. split; [exact E1|].
      apply in_or_app. left. apply in_flat_map. exists l. split; [exact Hl|].
      now apply (from_left_match [0%nat; 1%nat] [0%nat; 1%nat] [2%nat]).
    + exists (cell_at 0 r :: cell_at 1 r :: repeat CNaN k).
      destruct (Hrows' r Hr) as [_ [t [g [Ht Hg]]]].
      split; [|split; [reflexivity|split; [reflexivity|]]].
      * split; [simpl; now rewrite repeat_length|]. exists t, g. now split.
      * apply in_or_app. right. rewrite <- from_right_row.
        apply in_map. apply filter_In. split; [exact Hr | now rewrite E].
Qed.

Lemma cell_at_firstn (i n : nat) (row : list (cell Y)) :
  (i < n)%nat -> cell_at i (firstn n row) = cell_at i row.
Proof.
  intros Hi. unfold cell_at. rewrite nth_firstn.
  destruct (Nat.ltb_spec i n); [reflexivity | lia].
Qed.

Lemma firstn_extended (n : nat) (row l : list (cell Y)) (c : cell Y) :
  List.length l = n ->
  firstn (n + 1) row = l ++ [c] -> firstn n row = l.
Proof.
  intros Hlen E.
  assert (E' : firstn n (firstn (n + 1) row) = firstn n (l ++ [c])) by now rewrite E.
  rewrite firstn_firstn in E'. replace (Nat.min n (n + 1)) with n in E' by lia.
  rewrite E', firstn_app, Hlen, Nat.sub_diag, firstn_O, app_nil_r.
  rewrite <- Hlen. apply firstn_all.
Qed.

(** The chain of merges keeps every row of the first table and of each
    later one: the rows of the [j]-th later table give their value to the
    column of index [2 + k + j]. *)
Lemma merge_chain_keyed (time_col grouping_col : string)
    (rest : list (Table Y)) (k : nat) (final : Table Y) :
  time_col <> grouping_col ->
  keyed_table time_col grouping_col k final ->
  Forall (keyed_table time_col grouping_col 1) rest ->
  exists merged,
    merge_chain final rest time_col grouping_col = Ok merged /\
    keyed_table time_col grouping_col (k + List.length rest) merged /\
    (forall l, In l (rows final) ->
       exists row, In row (rows merged) /\ firstn (2 + k) row = l) /\
    (forall j m r, nth_error rest j = Some m -> In r (rows m) ->
       exists row, In row (rows merged) /\
                   cell_at 0 row = cell_at 0 r /\
                   cell_at 1 row = cell_at 1 r /\
                   cell_at (2 + k + j) row = cell_at 2 r).
Proof.
  intros Hne. revert k final.
  induction rest as [|m rest IH]; intros k final Hfinal Hrest.
  - exists final. cbn [merge_chain List.length]. rewrite Nat.add_0_r.
    split; [reflexivity|].
    split; [exact Hfinal|]. split.
    + intros l Hl. exists l. split; [exact Hl|].
      destruct Hfinal as [_ Hrows]. rewrite Forall_forall in Hrows.
      destruct (Hrows l Hl) as [Hlen _]. rewrite <- Hlen. apply firstn_all.
    + intros [|j] m r Hj; discriminate.
  - inversion Hrest as [|? ? Hm Hrest']; subst.
    destruct (merge_outer_keyed time_col grouping_col k final m Hne Hfinal Hm)
      as [merged1 [E1 [Hkeyed1 [Hleft1 Hright1]]]].
    destruct (IH (k + 1)%nat merged1 Hkeyed1 Hrest')
      as [merged [E [Hkeyed [Hleft Hright]]]].
    exists merged. cbn [merge_chain]. rewrite E1. cbn [rbind].
    split; [exact E|]. split; [|split].
    + cbn [List.length]. now replace (k + S (List.length rest))%nat
        with (k + 1 + List.length rest)%nat by lia.
    + intros l Hl. destruct (Hleft1 l Hl) as [c Hc].
      destruct (Hleft _ Hc) as [row [Hrow Hfirst]].
      exists row. split; [exact Hrow|].
      destruct Hfinal as [_ Hrows]. rewrite Forall_forall in Hrows.
      destruct (Hrows l Hl) as [Hlen _].
      apply (firstn_extended (2 + k) row l c Hlen).
      now replace (2 + k + 1)%nat with (2 + (k + 1))%nat by lia.
    + intros [|j] m' r Hj Hr.
      * injection Hj as <-.
        destruct (Hright1 r Hr) as [l [[Hlen _] [E0 [E1' Hin]]]].
        destruct (Hleft _ Hin) as [row [Hrow Hfirst]].
        exists row. split; [exact Hrow|].
        rewrite <- (cell_at_firstn 0 (2 + (k + 1)) row) by lia.
        rewrite <- (cell_at_firstn 1 (2 + (k + 1)) row) by lia.
        rewrite <- (cell_at_firstn (2 + k + 0) (2 + (k + 1)) row) by lia.
        rewrite Hfirst, !cell_at_app_left by lia.
        split; [exact E0|]. split; [exact E1'|].
        replace (2 + k + 0)%nat with (List.length l) by lia.
        apply cell_at_app_last.
      * destruct (Hright j m' r Hj Hr) as [row [Hrow [E0 [E1' E2]]]].
        exists row. split; [exact Hrow|]. split; [exact E0|]. split; [exact E1'|].
        now replace (2 + k + S j)%nat with (2 + (k + 1) + j)%nat by lia.
Qed.

(** Where the rows of a merge come from. *)
Lemma merge_outer_keyed_rows (time_col grouping_col : string) (k : nat)
    (left right merged : Table Y) :
  time_col <> grouping_col ->
  keyed_table time_col grouping_col k left ->
  keyed_table time_col grouping_col 1 right ->
  merge_outer left right [time_col; grouping_col] = Ok merged ->
  forall row, In row (rows merged) ->
    exists l c,
      row = l ++ [c] /\
      keyed_row k l /\
      (In l (rows left) \/
       forall i, (2 <= i < 2 + k)%nat -> cell_at i l = CNaN) /\
      (c = CNaN \/
       exists r, In r (rows right) /\
                 cell_at 0 r = cell_at 0 l /\ cell_at 1 r = cell_at 1 l /\
                 cell_at 2 r = c).
Proof.
  intros Hne [[names [Hcols Hnames]] Hrows] [[names' [Hcols' Hnames']] Hrows'].
  rewrite Forall_forall in Hrows, Hrows'.
  unfold merge_outer. rewrite Hcols, Hcols', !get_locs_keys by assumption.
  cbn [rbind List.length]. rewrite Hnames', Hnames, others_keys.
  change (seq 2 1) with [2%nat].
  intros E row Hrow. injection E as <-. cbn [rows] in Hrow.
  apply in_app_or in Hrow. destruct Hrow as [Hrow|Hrow].
  - apply in_flat_map in Hrow. destruct Hrow as [l [Hl Hrow]].
    unfold from_left in Hrow.
    destruct (matches [0%nat; 1%nat] [0%nat; 1%nat] (rows right) l)
      as [|r0 rs] eqn:Em.
    + destruct Hrow as [<-|[]]. exists l, CNaN.
      split; [reflexivity|]. split; [now apply Hrows|]. split; now left.
    + apply in_map_iff in Hrow. destruct Hrow as [r [<- Hr]].
      rewrite <- Em in Hr. apply filter_In in Hr. destruct Hr as [Hr Hkey].
      exists l, (cell_at 2 r).
      split; [reflexivity|]. split; [now apply Hrows|]. split; [now left|].
      right. exists r.
      destruct (proj1 (keyed_rows_same_key k 1 l r (Hrows l Hl) (Hrows' r Hr)) Hkey)
        as [E0 E1].
      now repeat split.
  - apply in_map_iff in Hrow. destruct Hrow as [r [<- Hr]].
    apply filter_In in Hr. destruct Hr as [Hr _]. rewrite from_right_row.
    destruct (Hrows' r Hr) as [_ [t [g [Ht Hg]]]].
    exists (cell_at 0 r :: cell_at 1 r :: repeat CNaN k), (cell_at 2 r).
    split; [reflexivity|]. split; [|split].
    + split; [simpl; now rewrite repeat_length|]. exists t, g. now split.
    + right. intros i Hi. destruct i as [|[|i]]; [lia | lia |].
      unfold cell_at. cbn [nth]. apply nth_repeat.
    + right. exists r. now repeat split.
Qed.

Lemma keys_same_keyb (l r : list (cell Y)) :
  keys_eqb (key_of [0%nat; 1%nat] l) (key_of [0%nat; 1%nat] r) = same_keyb l r.
Proof. unfold key_of, same_keyb. cbn [map keys_eqb]. now rewrite andb_true_r. Qed.

Lemma from_left_length (right_rows : list (list (cell Y))) (l : list (cell Y)) :
  List.length (from_left [0%nat; 1%nat] [0%nat; 1%nat] [2%nat] right_rows l) =
  Nat.max 1 (List.length (filter (same_keyb l) right_rows)).
Proof.
  unfold from_left, matches.
  rewrite (filter_ext _ (same_keyb l)) by (intros r; apply keys_same_keyb).
  destruct (filter (same_keyb l) right_rows) as [|r rs]; [reflexivity|].
  rewrite length_map. cbn [List.length]. lia.
Qed.

(** The rows that [merge] builds are the full outer join of its
    arguments. *)
Lemma merge_rows_full_outer_join (k : nat) (left right : list (list (cell Y))) :
  full_outer_join k left right
    (flat_map (from_left [0%nat; 1%nat] [0%nat; 1%nat] [2%nat] right) left ++
     map (from_right [0%nat; 1%nat] [0%nat; 1%nat] [2%nat] (S (S k)))
         (unmatched [0%nat; 1%nat] [0%nat; 1%nat] left right)).
Proof.
  assert (Hmatches : forall l,
            matches [0%nat; 1%nat] [0%nat; 1%nat] right l = filter (same_keyb l) right).
  { intros l. unfold matches. apply filter_ext. intros r. apply keys_same_keyb. }
  assert (Hunmatched :
            unmatched [0%nat; 1%nat] [0%nat; 1%nat] left right =
            filter (fun r => negb (existsb (fun l => same_keyb l r) left)) right).
  { unfold unmatched. apply filter_ext. intros r. f_equal.
    induction left as [|l left IH]; cbn [existsb]; [reflexivity|].
    now rewrite keys_same_keyb, IH. }
  split.
  - intros row. rewrite in_app_iff, in_flat_map, in_map_iff. split.
    + intros [[l [Hl Hrow]]|[r [<- Hr]]].
      * unfold from_left in Hrow. rewrite Hmatches in Hrow.
        destruct (filter (same_keyb l) right) as [|r0 rs] eqn:Em.
        -- destruct Hrow as [<-|[]]. right. left. exists l.
           split; [exact Hl|]. split; [|reflexivity].
           intros r Hr. destruct (same_keyb l r) eqn:E; [|reflexivity].
           assert (Hin : In r (filter (same_keyb l) right))
             by (apply filter_In; now split).
           rewrite Em in Hin. destruct Hin.
        -- apply in_map_iff in Hrow. destruct Hrow as [r [<- Hr]].
           rewrite <- Em in Hr. apply filter_In in Hr. destruct Hr as [Hr Hkey].
           left. exists l, r. now repeat split.
      * rewrite Hunmatched in Hr. apply filter_In in Hr. destruct Hr as [Hr Hno].
        right. right. exists r. split; [exact Hr|].
        split; [|apply from_right_row].
        intros l Hl. destruct (same_keyb l r) eqn:E; [|reflexivity].
        assert (Hex : existsb (fun l => same_keyb l r) left = true)
          by (apply existsb_exists; now exists l).
        rewrite Hex in Hno. discriminate.
    + intros [[l [r [Hl [Hr [Hkey ->]]]]]|[[l [Hl [Hno ->]]]|[r [Hr [Hno ->]]]]].
      * left. exists l. split; [exact Hl|].
        apply (from_left_match [0%nat; 1%nat] [0%nat; 1%nat] [2%nat] right l r Hr).
        now rewrite keys_same_keyb.
      * left. exists l. split; [exact Hl|]. unfold from_left.
        rewrite Hmatches, filter_none by exact Hno. now left.
      * right. exists r. split; [apply from_right_row|].
        rewrite Hunmatched. apply filter_In. split; [exact Hr|].
        apply negb_true_iff.
        destruct (existsb (fun l => same_keyb l r) left) eqn:E; [|reflexivity].
        apply existsb_exists in E. destruct E as [l [Hl Hkey]].
        rewrite (Hno l Hl) in Hkey. discriminate.
  - rewrite length_app, length_flat_map, length_map, Hunmatched. f_equal.
    f_equal. apply map_ext. intros l. apply from_left_length.
Qed.

Lemma merge_outer_full_outer_join (time_col grouping_col : string) (k : nat)
    (left right merged : Table Y) :
  time_col <> grouping_col ->
  keyed_table time_col grouping_col k left ->
  keyed_table time_col grouping_col 1 right ->
  merge_outer left right [time_col; grouping_col] = Ok merged ->
  full_outer_join k (rows left) (rows right) (rows merged).
Proof.
  intros Hne [[names [Hcols Hnames]] _] [[names' [Hcols' Hnames']] _].
  unfold merge_outer. rewrite Hcols, Hcols', !get_locs_keys by assumption.
  cbn [rbind List.length]. rewrite Hnames', Hnames, others_keys.
  change (seq 2 1) with [2%nat].
  intros E. injection E as <-. cbn [rows]. apply merge_rows_full_outer_join.
Qed.

(** The chain of merges joins the sets in order. *)
Lemma merge_chain_joined (time_col grouping_col : string)
    (rest : list (Table Y)) (k : nat) (final merged : Table Y) :
  time_col <> grouping_col ->
  keyed_table time_col grouping_col k final ->
  Forall (keyed_table time_col grouping_col 1) rest ->
  merge_chain final rest time_col grouping_col = Ok merged ->
  joined_in_order k final rest merged.
Proof.
  intros Hne. revert k final.
  induction rest as [|m rest IH]; intros k final Hfinal Hrest E;
    cbn [merge_chain joined_in_order] in *.
  - now injection E as <-.
  - inversion Hrest as [|? ? Hm Hrest']; subst.
    destruct (merge_outer_keyed time_col grouping_col k final m Hne Hfinal Hm)
      as [merged1 [E1 [Hkeyed1 _]]].
    rewrite E1 in E. cbn [rbind] in E. exists merged1. split.
    + now apply (merge_outer_full_outer_join time_col grouping_col).
    + apply IH; [|exact Hrest'|exact E].
      now replace (S k) with (k + 1)%nat by lia.
Qed.

Lemma from_set_or_missing_extend (sets : list (Table Y)) (m : Table Y)
    (j : nat) (l : list (cell Y)) (c : cell Y) :
  (2 + j < List.length l)%nat ->
  from_set_or_missing sets j l ->
  from_set_or_missing (sets ++ [m]) j (l ++ [c]).
Proof.
  intros Hj [Hnan|[m' [r [Hm' [Hr [E0 [E1 E2]]]]]]].
  - left. now rewrite cell_at_app_left by lia.
  - right. exists m', r. rewrite !cell_at_app_left by lia.
    split; [|now repeat split].
    rewrite nth_error_app1; [exact Hm'|].
    apply nth_error_Some. congruence.
Qed.

(** The chain of merges invents nothing: each measurement of a merged row
    is missing or comes from a row of its set with the same key. *)
Lemma merge_chain_sound (time_col grouping_col : string)
    (rest : list (Table Y)) (k : nat) (final merged : Table Y)
    (earlier : list (Table Y)) :
  time_col <> grouping_col ->
  keyed_table time_col grouping_col k final ->
  Forall (keyed_table time_col grouping_col 1) rest ->
  List.length earlier = k ->
  (forall row, In row (rows final) ->
     forall j, (j < k)%nat -> from_set_or_missing earlier j row) ->
  merge_chain final rest time_col grouping_col = Ok merged ->
  forall row, In row (rows merged) ->
    forall j, (j < k + List.length rest)%nat ->
      from_set_or_missing (earlier ++ rest) j row.
Proof.
  intros Hne. revert k final earlier.
  induction rest as [|m rest IH]; intros k final earlier Hfinal Hrest Hlen Hsound E.
  - injection E as <-. intros row Hrow j Hj. rewrite app_nil_r.
    apply Hsound; [exact Hrow|]. cbn [List.length] in Hj. lia.
  - inversion Hrest as [|? ? Hm Hrest']; subst.
    destruct (merge_outer_keyed time_col grouping_col (List.length earlier)
                final m Hne Hfinal Hm) as [merged1 [E1 [Hkeyed1 _]]].
    cbn [merge_chain] in E. rewrite E1 in E. cbn [rbind] in E.
    intros row Hrow j Hj.
    replace (earlier ++ m :: rest) with ((earlier ++ [m]) ++ rest)
      by now rewrite <- app_assoc.
    apply (IH (List.length earlier + 1)%nat merged1 (earlier ++ [m]) Hkeyed1 Hrest');
      [now rewrite length_app | | exact E | exact Hrow |
       cbn [List.length] in Hj; lia].
    clear row Hrow j Hj. intros row Hrow j Hj.
    destruct (merge_outer_keyed_rows time_col grouping_col (List.length earlier)
                final m merged1 Hne Hfinal Hm E1 row Hrow)
      as [l [c [-> [[Hl Hkeys] [Hfrom Hc]]]]].
    destruct (Nat.eq_dec j (List.length earlier)) as [->|Hjk].
    + replace (2 + List.length earlier)%nat with (List.length l) by lia.
      unfold from_set_or_missing.
      replace (2 + List.length earlier)%nat with (List.length l) by lia.
      rewrite cell_at_app_last.
      destruct Hc as [->|[r [Hr [E0 [E1' E2]]]]]; [now left|].
      right. exists m, r. rewrite !cell_at_app_left by lia.
      split; [|now repeat split].
      rewrite nth_error_app2 by lia.
      replace (List.length l - 2 - List.length earlier)%nat with 0%nat by lia.
      replace (List.length earlier - List.length earlier)%nat with 0%nat by lia.
      reflexivity.
    + apply from_set_or_missing_extend; [lia|].
      destruct Hfrom as [Hin|Hnan].
      * apply Hsound; [exact Hin | lia].
      * left. apply Hnan. lia.
Qed.

Lemma keyed_row_melted (row : list (cell Y)) :
  keyed_row 1 row <-> exists t g x, row = [CTime t; CStr g; x].
Proof.
  split.
  - intros [Hlen [t [g [Ht Hg]]]].
    destruct row as [|a [|b [|x [|y row]]]]; try discriminate.
    unfold cell_at in Ht, Hg. simpl in Ht, Hg. subst. now exists t, g, x.
  - intros [t [g [x ->]]]. split; [reflexivity|]. now exists t, g.
Qed.

Lemma get_locs_length (cols names : list string) (locs : list nat) :
  get_locs cols names = Ok locs -> List.length locs = List.length names.
Proof.
  revert locs. induction names as [|name names IH]; simpl; intros locs E.
  - now injection E as <-.
  - destruct (get_loc cols name) as [i|e]; [|discriminate]. simpl in E.
    destruct (get_locs cols names) as [locs'|e]; [|discriminate]. simpl in E.
    injection E as <-. simpl. f_equal. now apply IH.
Qed.

(** What [melt] returns when it returns. *)
Lemma melt_returns (frame : Table Y) (id_var : string) (value_vars : list string)
    (var_name value_name : string) (melted : Table Y) :
  melt frame id_var value_vars var_name value_name = Ok melted ->
  exists i locs,
    index_of id_var (columns frame) = Some i /\
    get_locs (columns frame) value_vars = Ok locs /\
    ~ In value_name (columns frame) /\
    melted =
    mkTable [id_var; var_name; value_name]
      (flat_map
         (fun cj =>
            map (fun row => [cell_at i row; CStr (fst cj); cell_at (snd cj) row])
                (rows frame))
         (unique_locs [i] (combine value_vars locs))).
Proof.
  unfold melt, get_loc.
  destruct (existsb (String.eqb value_name) (columns frame)) eqn:Ev; [discriminate|].
  destruct (index_of id_var (columns frame)) as [i|]; [|discriminate].
  cbn [rbind].
  destruct (get_locs (columns frame) value_vars) as [locs|e]; [|discriminate].
  cbn [rbind]. intros E. injection E as <-. exists i, locs.
  repeat split; trivial. intros Hin.
  assert (Et : existsb (String.eqb value_name) (columns frame) = true).
  { apply existsb_exists. exists value_name. split; [exact Hin | apply String.eqb_refl]. }
  rewrite Et in Ev. discriminate.
Qed.

Lemma melt_keyed (frame : Table Y) (time_col : string) (value_vars : list string)
    (grouping_col value_name : string) (melted : Table Y) :
  timestamped frame time_col ->
  melt frame time_col value_vars grouping_col value_name = Ok melted ->
  keyed_table time_col grouping_col 1 melted.
Proof.
  intros Htime E. apply melt_returns in E.
  destruct E as [i [locs [Hi [_ [_ ->]]]]]. split.
  - now exists [value_name].
  - cbn [rows]. apply Forall_forall. intros row Hrow.
    apply in_flat_map in Hrow. destruct Hrow as [[c j] [_ Hrow]].
    apply in_map_iff in Hrow. destruct Hrow as [row0 [<- Hrow0]].
    specialize (Htime i Hi). rewrite Forall_forall in Htime.
    destruct (Htime row0 Hrow0) as [t Ht]. apply keyed_row_melted.
    exists t, c, (cell_at j row0). cbn [fst snd]. now rewrite Ht.
Qed.

Lemma replace_cell_str (to_replace : list (string * string)) (g : string) :
  exists g', replace_cell (Y := Y) to_replace (CStr g) = CStr g'.
Proof.
  unfold replace_cell. destruct (dict_get to_replace g) as [v|]; eauto.
Qed.

Lemma replace_in_column_keyed (time_col grouping_col : string)
    (to_replace : list (string * string)) (melted : Table Y) :
  time_col <> grouping_col ->
  keyed_table time_col grouping_col 1 melted ->
  replace_in_column melted grouping_col to_replace =
  Ok (mkTable (columns melted)
        (map (update_nth 1 (replace_cell to_replace)) (rows melted))) /\
  keyed_table time_col grouping_col 1
    (mkTable (columns melted)
       (map (update_nth 1 (replace_cell to_replace)) (rows melted))).
Proof.
  intros Hne [[names [Hcols Hnames]] Hrows]. split.
  - unfold replace_in_column, get_loc.
    rewrite Hcols, index_of_second by assumption. reflexivity.
  - split; [now exists names|]. cbn [rows].
    apply Forall_forall. intros row Hrow. apply in_map_iff in Hrow.
    destruct Hrow as [row0 [<- Hrow0]]. rewrite Forall_forall in Hrows.
    destruct (proj1 (keyed_row_melted row0) (Hrows row0 Hrow0)) as [t [g [x ->]]].
    cbn [update_nth].
    destruct (replace_cell_str to_replace g) as [g' ->].
    apply keyed_row_melted. now exists t, g', x.
Qed.

Lemma melt_set_keyed (df : Table Y) (time_col grouping_col : string) :
  time_col <> grouping_col ->
  timestamped df time_col ->
  runs (melt_set df time_col grouping_col) (fun _ => True)
       (keyed_table time_col grouping_col 1).
Proof.
  intros Hne Htime. unfold melt_set.
  apply (runs_bind _ _ _ (fun _ => True)).
  { apply get_response_runs; auto. intros s. exact I. }
  intros value_column_name _.
  apply (runs_bind _ _ _ (fun _ => True)).
  { apply get_response_runs; auto. intros s.
    apply (runs_weaken _ _ _ _ _
             (response_is_column_accepts df (fun _ => True) (fun _ => I) s));
      auto. }
  intros unpivot_columns_str _.
  apply (runs_bind _ _ _ (fun _ => True)).
  { now apply read_identifier_mapping_runs. }
  intros identifier_mapping _.
  apply (runs_bind _ _ _ (fun _ => True)); [now apply runs_emit|].
  intros _ _.
  apply (runs_bind _ _ _ (keyed_table time_col grouping_col 1)).
  { apply runs_lift. intros melted E. now apply melt_keyed in E. }
  intros melted Hkeyed. apply runs_lift. intros replaced E.
  destruct (replace_in_column_keyed time_col grouping_col identifier_mapping
              melted Hne Hkeyed) as [E' Hkeyed'].
  rewrite E' in E. now injection E as <-.
Qed.

Lemma melt_sets_keyed (df : Table Y) (time_col grouping_col : string)
    (num_sets : nat) (melted_dfs : list (Table Y)) :
  time_col <> grouping_col ->
  timestamped df time_col ->
  runs (melt_sets num_sets df time_col grouping_col melted_dfs) (fun _ => True)
       (fun all =>
          exists new,
            all = melted_dfs ++ new /\
            List.length new = num_sets /\
            Forall (keyed_table time_col grouping_col 1) new).
Proof.
  intros Hne Htime. revert melted_dfs.
  induction num_sets as [|n IH]; intros melted_dfs; cbn [melt_sets].
  - apply runs_ret. exists []. now rewrite app_nil_r.
  - apply (runs_bind _ _ _ (keyed_table time_col grouping_col 1));
      [now apply melt_set_keyed|].
    intros melted_set Hkeyed.
    apply (runs_weaken _ _ _ _ _ (IH (melted_dfs ++ [melted_set])));
      [auto|].
    intros all [new [-> [Hlen Hall]]]. exists (melted_set :: new).
    rewrite <- app_assoc. split; [reflexivity|].
    split; [simpl; now rewrite Hlen | now constructor].
Qed.

Lemma merge_sets_chain (final_melted_df : Table Y) (rest : list (Table Y))
    (time_col grouping_col : string) (w : world) :
  fst (merge_sets final_melted_df rest time_col grouping_col w) =
  merge_chain final_melted_df rest time_col grouping_col.
Proof.
  revert final_melted_df w.
  induction rest as [|merge_df rest IH]; intros final_melted_df w; [reflexivity|].
  cbn [merge_sets merge_chain]. unfold bind, emit, lift. cbn [fst snd].
  destruct (merge_outer final_melted_df merge_df [time_col; grouping_col]);
    [apply IH | reflexivity].
Qed.

Lemma comparable_times (cells : list (cell Y)) :
  Forall (fun c => exists t, c = CTime t) cells -> comparable cells = true.
Proof.
  induction 1 as [|c cells [t ->] Hall IH]; simpl; [reflexivity|].
  rewrite IH, andb_true_r. apply forallb_forall. intros c Hc.
  rewrite Forall_forall in Hall. now destruct (Hall c Hc) as [t' ->].
Qed.

(** Sorting a long table by its time column: the same rows, in the order
    of their timestamps. *)
Lemma sort_values_keyed (time_col grouping_col : string) (k : nat)
    (merged : Table Y) :
  keyed_table time_col grouping_col k merged ->
  sort_values merged time_col =
  Ok (mkTable (columns merged) (sorted time_of (rows merged))).
Proof.
  intros [[names [Hcols _]] Hrows]. rewrite Forall_forall in Hrows.
  unfold sort_values, get_loc. rewrite Hcols, index_of_first. cbn [rbind].
  rewrite comparable_times.
  - f_equal. f_equal. unfold sorted. apply sort_by_ext. intros a b Ha Hb.
    destruct (Hrows a Ha) as [_ [ta [ga [Hta _]]]].
    destruct (Hrows b Hb) as [_ [tb [gb [Htb _]]]].
    unfold time_of, time_at. now rewrite Hta, Htb.
  - apply Forall_forall. intros c Hc. apply in_map_iff in Hc.
    destruct Hc as [row [<- Hrow]].
    destruct (Hrows row Hrow) as [_ [t [g [Ht _]]]]. now exists t.
Qed.

Lemma set_scalar_new (t : Table Y) (name : string) (value : cell Y) :
  ~ In name (columns t) ->
  set_scalar t name value =
  mkTable (columns t ++ [name]) (map (fun row => row ++ [value]) (rows t)).
Proof.
  intros Hnew. unfold set_scalar. now rewrite index_of_absent.
Qed.

(** Constants whose names are new, and differ from each other, become
    the last columns, each with its value in every row. *)
Lemma add_constants_new (constants : list (string * cell Y)) (t : Table Y) :
  NoDup (map fst constants) ->
  (forall c, In c (map fst constants) -> ~ In c (columns t)) ->
  columns (add_constants t constants) = columns t ++ map fst constants /\
  rows (add_constants t constants) =
  map (fun row => row ++ map snd constants) (rows t).
Proof.
  revert t. induction constants as [|[c v] constants IH]; intros t Hnodup Hnew.
  - simpl. rewrite app_nil_r. split; [reflexivity|].
    rewrite <- (map_id (rows t)) at 1. apply map_ext. intros row.
    now rewrite app_nil_r.
  - cbn [map fst snd] in *. inversion Hnodup as [|? ? Hc Hnodup']; subst.
    unfold add_constants. cbn [fold_left fst snd].
    fold (add_constants (set_scalar t c v) constants).
    rewrite set_scalar_new by (apply Hnew; now left).
    destruct (IH (mkTable (columns t ++ [c])
                    (map (fun row => row ++ [v]) (rows t))) Hnodup') as [Ecols Erows].
    { cbn [columns]. intros c' Hc' Hin. apply in_app_or in Hin.
      destruct Hin as [Hin|[<-|[]]]; [|contradiction].
      apply (Hnew c'); [now right | exact Hin]. }
    rewrite Ecols, Erows. cbn [columns rows]. split.
    + now rewrite <- app_assoc.
    + rewrite map_map. apply map_ext. intros row. now rewrite <- app_assoc.
Qed.

End FrameFacts.

(** ** The reshape *)

(** C9: a run of [reshape] that returns has melted the sets in order and
    has merged them from the left (first with second, the result with the
    third, and so on), each step being the full outer join on the time and
    grouping columns: its rows are the left rows joined with the right rows
    of the same key, the left rows without such a row with a missing
    value, and the right rows without such a row under their key, each as
    often as it arises and no other.  So no row of any set is lost, the
    value column of the [j]-th set is column [2 + j], and a value of a
    merged row is missing or comes from a row of its set with the same time
    and group.  The merged table is then sorted by time, and the constants
    are set last: when their names are new and distinct they are the last
    columns, each holding its value in every row. *)
Theorem reshape_combines_in_group_order (Y : Type) (ops : FloatOps Y)
    (df : Table Y) (time_col : string) (num_sets : Z) (grouping_col : string)
    (constants : list (string * cell Y)) (w w' : world) (long : Table Y) :
  time_col <> grouping_col ->
  timestamped df time_col ->
  reshape df time_col num_sets grouping_col constants w = (Ok long, w') ->
  exists (first : Table Y) (rest : list (Table Y)) (merged ordered : Table Y)
         (w1 : world),
    melt_sets (Z.to_nat num_sets) df time_col grouping_col [] w =
      (Ok (first :: rest), w1) /\
    List.length (first :: rest) = Z.to_nat num_sets /\
    Forall (keyed_table time_col grouping_col 1) (first :: rest) /\
    merge_chain first rest time_col grouping_col = Ok merged /\
    joined_in_order 1 first rest merged /\
    keyed_table time_col grouping_col (List.length (first :: rest)) merged /\
    (forall j m r, nth_error (first :: rest) j = Some m -> In r (rows m) ->
       exists row, In row (rows merged) /\
                   cell_at 0 row = cell_at 0 r /\
                   cell_at 1 row = cell_at 1 r /\
                   cell_at (2 + j) row = cell_at 2 r) /\
    (forall row, In row (rows merged) ->
       forall j, (j < List.length (first :: rest))%nat ->
         from_set_or_missing (first :: rest) j row) /\
    sort_values merged time_col = Ok ordered /\
    columns ordered = columns merged /\
    Permutation (rows merged) (rows ordered) /\
    StronglySorted (fun a b => time_of a <= time_of b) (rows ordered) /\
    long = add_constants ordered constants /\
    (NoDup (map fst constants) ->
     (forall c, In c (map fst constants) -> ~ In c (columns merged)) ->
     columns long = columns merged ++ map fst constants /\
     rows long = map (fun row => row ++ map snd constants) (rows ordered)).
Proof.
  intros Hne Htime Hrun. unfold reshape, bind in Hrun.
  destruct (melt_sets_keyed df time_col grouping_col (Z.to_nat num_sets) []
              Hne Htime w) as [_ [_ [_ [_ Hmelted]]]].
  destruct (melt_sets (Z.to_nat num_sets) df time_col grouping_col [] w)
    as [[melted|e] w1]; [|discriminate].
  destruct (Hmelted melted eq_refl) as [new [-> [Hlen Hkeyed]]].
  cbn [app] in *. unfold lift at 1 in Hrun.
  destruct new as [|first rest]; [discriminate|]. cbn [first_item tl] in Hrun.
  pose proof (merge_sets_chain first rest time_col grouping_col w1) as Hchain.
  destruct (merge_sets first rest time_col grouping_col w1) as [[merged|e] w2];
    [|discriminate].
  cbn [fst] in Hchain. symmetry in Hchain.
  inversion Hkeyed as [|? ? Hfirst Hrest]; subst.
  destruct (merge_chain_keyed time_col grouping_col rest 1 first Hne Hfirst Hrest)
    as [merged' [E [Hmerged [Hleft Hright]]]].
  rewrite Hchain in E. injection E as <-.
  pose proof (sort_values_keyed time_col grouping_col _ merged Hmerged) as Hsort.
  unfold lift in Hrun. rewrite Hsort in Hrun. unfold ret in Hrun.
  injection Hrun as <- <-.
  exists first, rest, merged,
         (mkTable (columns merged) (sorted time_of (rows merged))), w1.
  split; [reflexivity|]. split; [exact Hlen|]. split; [exact Hkeyed|].
  split; [exact Hchain|].
  split; [now apply (merge_chain_joined time_col grouping_col rest 1 first merged)|].
  split; [exact Hmerged|]. split.
  { intros [|j] m r Hj Hr.
    - injection Hj as <-. destruct (Hleft r Hr) as [row [Hrow Hfirstn]].
      exists row. split; [exact Hrow|].
      rewrite <- (cell_at_firstn 0 (2 + 1) row) by lia.
      rewrite <- (cell_at_firstn 1 (2 + 1) row) by lia.
      rewrite <- (cell_at_firstn (2 + 0) (2 + 1) row) by lia.
      now rewrite Hfirstn.
    - destruct (Hright j m r Hj Hr) as [row [Hrow [E0 [E1 E2]]]].
      exists row. split; [exact Hrow|]. split; [exact E0|]. split; [exact E1|].
      now replace (2 + S j)%nat with (2 + 1 + j)%nat by lia. }
  split.
  { intros row Hrow j Hj.
    apply (merge_chain_sound time_col grouping_col rest 1 first merged [first]
             Hne Hfirst Hrest eq_refl); [|exact Hchain|exact Hrow|exact Hj].
    intros r Hr i Hi. assert (i = 0%nat) by lia. subst i.
    right. exists first, r. now repeat split. }
  split; [exact Hsort|]. split; [reflexivity|]. cbn [rows columns].
  split; [apply sort_by_Permutation|].
  split; [apply sorted_StronglySorted|].
  split; [reflexivity|].
  intros Hnodup Hnew.
  now apply (add_constants_new constants
               (mkTable (columns merged) (sorted time_of (rows merged)))).
Qed.

(** ** A response naming two columns *)

Lemma remove_spaces_plain (s : string) : plain s = true -> remove_spaces s = s.
Proof.
  induction s as [|c s IH]; simpl; [reflexivity|]. intros Hp.
  apply andb_true_iff in Hp. destruct Hp as [Hp Hs].
  apply andb_true_iff in Hp. destruct Hp as [Hsp _].
  destruct (Ascii.eqb c " "); [discriminate|]. now rewrite IH.
Qed.

Lemma remove_spaces_app (a b : string) :
  remove_spaces (a ++ b) = (remove_spaces a ++ remove_spaces b)%string.
Proof.
  induction a as [|c a IH]; simpl; [reflexivity|].
  destruct (Ascii.eqb c " "); simpl; now rewrite IH.
Qed.

Lemma split_comma_plain (s : string) : plain s = true -> split_comma s = [s].
Proof.
  induction s as [|c s IH]; simpl; [reflexivity|]. intros Hp.
  apply andb_true_iff in Hp. destruct Hp as [Hp Hs].
  apply andb_true_iff in Hp. destruct Hp as [_ Hc].
  destruct (Ascii.eqb c ","); [discriminate|]. now rewrite IH.
Qed.

Lemma split_comma_app (a b : string) :
  plain a = true ->
  split_comma (a ++ String "," b) = a :: split_comma b.
Proof.
  induction a as [|c a IH]; simpl; [reflexivity|]. intros Hp.
  apply andb_true_iff in Hp. destruct Hp as [Hp Hs].
  apply andb_true_iff in Hp. destruct Hp as [_ Hc].
  destruct (Ascii.eqb c ","); [discriminate|]. now rewrite IH.
Qed.


Lemma bind_returns {A B : Type} (m : io A) (k : A -> io B) (w w1 : world) (a : A) :
  m w = (Ok a, w1) -> bind m k w = k a w1.
Proof. intros E. unfold bind. now rewrite E. Qed.


Section TwoColumns.
Context {Y : Type} `{FloatOps Y}.
Variables (df : Table Y) (time_col grouping_col value_name : string).
Variables (colA colB idA idB : string) (it ia ib : nat).
Hypothesis time_not_group : time_col <> grouping_col.
Hypothesis time_present : index_of time_col (columns df) = Some it.
Hypothesis colA_present : index_of colA (columns df) = Some ia.
Hypothesis colB_present : index_of colB (columns df) = Some ib.
Hypothesis value_new : ~ In value_name (columns df).
Hypothesis colA_plain : plain colA = true.
Hypothesis colB_plain : plain colB = true.
Hypothesis columns_differ : colA <> colB.
Hypothesis colA_not_time : colA <> time_col.
Hypothesis colB_not_time : colB <> time_col.
Hypothesis value_given : nonempty value_name = true.
Hypothesis idA_given : nonempty idA = true.
Hypothesis idB_given : nonempty idB = true.




End TwoColumns.

(** ** Round trip of two columns *)




Section RoundTripFacts.
Context {Y : Type} `{FloatOps Y}.




End RoundTripFacts.

Section OneColumn.
Context {Y : Type} `{FloatOps Y}.
Variables (df : Table Y) (time_col grouping_col value_name col id : string).
Variables (it i : nat).
Hypothesis time_not_group : time_col <> grouping_col.
Hypothesis time_present : index_of time_col (columns df) = Some it.
Hypothesis col_present : index_of col (columns df) = Some i.
Hypothesis value_new : ~ In value_name (columns df).
Hypothesis col_plain : plain col = true.
Hypothesis col_not_time : col <> time_col.
Hypothesis col_given : nonempty col = true.
Hypothesis value_given : nonempty value_name = true.
Hypothesis id_given : nonempty id = true.



End OneColumn.

Section TwoGroups.
Context {Y : Type} `{FloatOps Y}.





End TwoGroups.


Lemma wide_example_timestamped : timestamped wide_example "t".
Proof.
  intros i Hi. injection Hi as <-.
  repeat constructor; eexists; reflexivity.
Qed.


Lemma reshape_combines_in_group_order_witness :
  "t"%string <> "g"%string /\
  timestamped wide_example "t" /\
  exists (long first second merged ordered : Table Qc) (w' : world),
    reshape wide_example "t" 2 "g" [("site"%string, CStr "K")] two_sets_of_one =
      (Ok long, w') /\
    merge_chain first [second] "t" "g" = Ok merged /\
    sort_values merged "t" = Ok ordered /\
    Permutation (rows merged) (rows ordered) /\
    long = add_constants ordered [("site"%string, CStr "K")].
Proof.
  split; [discriminate|]. split; [exact wide_example_timestamped|].
  destruct (reshape wide_example "t" 2 "g" [("site"%string, CStr "K")]
              two_sets_of_one)
    as [[long|e] w'] eqn:Hrun; [|vm_compute in Hrun; discriminate].
  destruct (reshape_combines_in_group_order Qc QcFloat wide_example "t" 2 "g"
              [("site"%string, CStr "K")] two_sets_of_one w' long
              ltac:(discriminate) wide_example_timestamped Hrun)
    as [first [rest [merged [ordered [w1 [_ [Hlen [_ [Hchain [_ [_ [_ [_
         [Hsort [_ [Hperm [_ [Hlong _]]]]]]]]]]]]]]]]]].
  destruct rest as [|second [|third rest]]; try discriminate.
  now exists long, first, second, merged, ordered, w'.
Defined.

(** * Further properties *)

(** ** Prompts *)

Lemma accepts_anything : accepts None (fun _ => True) (fun _ => True).
Proof. intros s. exact I. Qed.

(** An empty line, when a response is required and there is no default, is
    answered by a message and the prompt goes on with the next line. *)
Lemma get_response_empty_line (rest : list string) (tr : list event) :
  get_response EmptyString false None (mkWorld (EmptyString :: rest) tr) =
  get_response EmptyString false None (mkWorld rest (tr ++ [Print MustProvide])).
Proof.
  unfold get_response at 1.
  replace (enough_fuel (mkWorld (EmptyString :: rest) tr))
    with (S (S (enough_fuel (mkWorld rest tr))))
    by (unfold enough_fuel; simpl; lia).
  rewrite get_response_fuel_S, _get_response_fuel_S. cbn [stdin trace nonempty negb].
  rewrite (get_response_fuel_enough EmptyString false (fun _ => True) I I
             _ None (fun _ => True)
             (mkWorld rest (tr ++ [Print MustProvide])) accepts_anything)
    by (unfold enough_fuel; simpl; lia).
  destruct (get_response EmptyString false None
              (mkWorld rest (tr ++ [Print MustProvide]))) as [[s|e] w1];
    reflexivity.
Qed.

(** X1: when a response is required and there is no default,
    [get_response] skips the empty lines, printing "You must provide a
    response to this prompt!" for each, and returns the first non-empty
    line; when only empty lines are left it raises EOFError after as many
    messages.  Every empty line costs two nested calls: with [frames] calls
    left before the recursion limit of the interpreter, this is what
    happens after [n] empty lines exactly when [2 * n + 2 <= frames], and
    otherwise the call does not return in [frames] calls (Python raises
    RecursionError). *)
Theorem get_response_skips_empty_lines (frames n : nat) (tr : list event) :
  (forall (response : string) (rest : list string),
     nonempty response = true ->
     get_response_fuel frames EmptyString false None
       (mkWorld (repeat EmptyString n ++ response :: rest) tr) =
     if (2 * n + 2 <=? frames)%nat
     then Some (Ok response, mkWorld rest (tr ++ repeat (Print MustProvide) n))
     else None) /\
  get_response_fuel frames EmptyString false None (mkWorld (repeat EmptyString n) tr) =
  if (2 * n + 2 <=? frames)%nat
  then Some (Raise EOFError, mkWorld [] (tr ++ repeat (Print MustProvide) n))
  else None.
Proof.
  revert frames tr. induction n as [|n IH]; intros frames tr.
  - destruct frames as [|[|frames]]; [split; reflexivity ..|].
    cbn [repeat app Nat.mul Nat.add Nat.leb]. rewrite app_nil_r.
    split; [|reflexivity].
    intros response rest Hne.
    rewrite get_response_fuel_S, _get_response_fuel_S. cbn [stdin trace].
    rewrite Hne. reflexivity.
  - destruct frames as [|[|frames]]; [split; reflexivity | |].
    { replace (2 * S n + 2 <=? 1)%nat with false
        by (symmetry; apply Nat.leb_gt; lia).
      split; reflexivity. }
    replace (2 * S n + 2 <=? S (S frames))%nat with (2 * n + 2 <=? frames)%nat
      by (destruct (Nat.leb_spec (2 * n + 2) frames);
          symmetry; [apply Nat.leb_le | apply Nat.leb_gt]; lia).
    destruct (IH frames (tr ++ [Print MustProvide])) as [IH1 IH2].
    rewrite <- app_assoc in IH1, IH2. cbn [app] in IH1, IH2.
    cbn [repeat app]. split.
    + intros response rest Hne.
      rewrite get_response_fuel_S, _get_response_fuel_S.
      cbn [stdin trace nonempty negb]. rewrite (IH1 response rest Hne).
      now destruct (2 * n + 2 <=? frames)%nat.
    + rewrite get_response_fuel_S, _get_response_fuel_S.
      cbn [stdin trace nonempty negb]. rewrite IH2.
      now destruct (2 * n + 2 <=? frames)%nat.
Qed.

Lemma get_response_skips_empty_lines_witness :
  nonempty "s1" = true /\
  get_response_fuel 6 EmptyString false None
    (mkWorld (repeat EmptyString 2 ++ ["s1"%string; "y"%string]) []) =
  Some (Ok "s1"%string, mkWorld ["y"%string] ([] ++ repeat (Print MustProvide) 2)) /\
  get_response_fuel 5 EmptyString false None
    (mkWorld (repeat EmptyString 2 ++ ["s1"%string; "y"%string]) []) = None.
Proof.
  split; [reflexivity|]. split.
  - apply (proj1 (get_response_skips_empty_lines 6 2 []) "s1"%string ["y"%string]).
    reflexivity.
  - apply (proj1 (get_response_skips_empty_lines 5 2 []) "s1"%string ["y"%string]).
    reflexivity.
Defined.

Lemma get_response_fuel_required (default : string) (fuel : nat) :
  (forall condition w s w',
     get_response_fuel fuel default false condition w = Some (Ok s, w') ->
     nonempty s = true) /\
  (forall w s w',
     _get_response_fuel fuel default false w = Some (Ok s, w') ->
     nonempty s = true).
Proof.
  induction fuel as [|fuel [IHg IHr]]; [split; intros; discriminate|].
  split.
  - intros condition w s w' E. rewrite get_response_fuel_S in E.
    destruct (_get_response_fuel fuel default false w) as [[[r|e] w1]|] eqn:Er;
      [| |discriminate].
    + assert (Hr : nonempty r = true) by now apply (IHr w r w1).
      destruct condition as [cond|].
      * destruct (cond r w1) as [[[|]|e] w2].
        -- injection E as <- _. exact Hr.
        -- exact (IHg (Some cond) _ s w' E).
        -- discriminate.
      * injection E as <- _. exact Hr.
    + discriminate.
  - intros w s w' E. rewrite _get_response_fuel_S in E.
    destruct (stdin w) as [|response rest]; [discriminate|].
    destruct (nonempty response) eqn:Hr; [injection E as <- _; exact Hr|].
    destruct (nonempty default) eqn:Hd; [injection E as <- _; exact Hd|].
    cbn [negb] in E. exact (IHg None _ s w' E).
Qed.

(** X2: with [allow_empty=False], a response that [get_response] returns
    is never empty, whatever the default, the validity test and the input. *)
Theorem get_response_required_is_nonempty (default : string)
    (condition : option (string -> io bool)) (w w' : world) (s : string) :
  get_response default false condition w = (Ok s, w') ->
  nonempty s = true.
Proof.
  unfold get_response. intros E.
  destruct (get_response_fuel (enough_fuel w) default false condition w)
    as [[r w1]|] eqn:Ef; [|discriminate].
  injection E as -> ->.
  now apply (proj1 (get_response_fuel_required default (enough_fuel w))
               condition w s w').
Qed.

Lemma get_response_required_is_nonempty_witness :
  get_response EmptyString false None
    (mkWorld [EmptyString; "s1"%string] []) =
  (Ok "s1"%string, mkWorld [] [Print MustProvide]) /\
  nonempty "s1" = true.
Proof.
  split; [reflexivity|].
  apply (get_response_required_is_nonempty EmptyString None
           (mkWorld [EmptyString; "s1"%string] []) (mkWorld [] [Print MustProvide])).
  reflexivity.
Defined.

(** X3: a response that [get_response] returns under a validity test
    passed that test (here a test without effects). *)
Theorem get_response_meets_condition (default : string) (allow_empty : bool)
    (valid : string -> bool) (w w' : world) (s : string) :
  get_response default allow_empty (Some (fun r => ret (valid r))) w = (Ok s, w') ->
  valid s = true.
Proof.
  intros E.
  assert (Hacc : accepts (Some (fun r => ret (valid r))) (fun _ => True)
                   (fun r => valid r = true)).
  { intros r. apply runs_ret. trivial. }
  destruct (get_response_runs default allow_empty (fun _ => True) I I _ _ Hacc w)
    as [_ [_ [_ [_ HQ]]]].
  apply HQ. now rewrite E.
Qed.

Lemma get_response_meets_condition_witness :
  get_response EmptyString false (Some (fun r => ret (String.eqb r "b")))
    (mkWorld ["a"%string; "b"%string] []) =
  (Ok "b"%string, mkWorld [] [Print NotMet]) /\
  String.eqb "b" "b" = true.
Proof.
  split; [reflexivity|].
  apply (get_response_meets_condition EmptyString false (fun r => String.eqb r "b")
           (mkWorld ["a"%string; "b"%string] []) (mkWorld [] [Print NotMet])).
  reflexivity.
Defined.

(** X4: on an empty line [get_response] returns the default when there is
    one, and the empty string when there is none and an empty response is
    allowed; one line is read and nothing is printed. *)
Theorem get_response_default_on_empty_line (default : string)
    (allow_empty : bool) (rest : list string) (tr : list event) :
  nonempty default = true \/ allow_empty = true ->
  get_response default allow_empty None (mkWorld (EmptyString :: rest) tr) =
  (Ok default, mkWorld rest tr).
Proof.
  intros Hd. unfold get_response.
  replace (enough_fuel (mkWorld (EmptyString :: rest) tr))
    with (S (S (enough_fuel (mkWorld rest tr))))
    by (unfold enough_fuel; simpl; lia).
  rewrite get_response_fuel_S, _get_response_fuel_S. cbn [stdin trace nonempty].
  destruct default as [|c d]; cbn [nonempty]; [|reflexivity].
  destruct Hd as [Hd| ->]; [discriminate | reflexivity].
Qed.

Lemma get_response_default_on_empty_line_witness :
  (nonempty "5min" = true \/ true = true) /\
  get_response "5min" true None (mkWorld [EmptyString; "0"%string] []) =
  (Ok "5min"%string, mkWorld ["0"%string] []).
Proof.
  split; [now left|].
  apply (get_response_default_on_empty_line "5min" true ["0"%string] []).
  now left.
Defined.

Lemma lower_char_y (c : ascii) :
  lower_char c = "y"%char <-> c = "y"%char \/ c = "Y"%char.
Proof.
  split.
  - destruct c as [[|] [|] [|] [|] [|] [|] [|] [|]]; vm_compute; intros E;
      try discriminate; auto.
  - intros [->| ->]; reflexivity.
Qed.

(** X5: [ask_user] answers yes exactly when the line read is "y" or "Y";
    anything else, "yes" included, is a no, and the end of the input
    raises EOFError. *)
Theorem ask_user_yes (w : world) :
  match stdin w with
  | [] => ask_user w = (Raise EOFError, w)
  | response :: rest =>
      exists answer,
        ask_user w = (Ok answer, mkWorld rest (trace w)) /\
        (answer = true <-> response = "y"%string \/ response = "Y"%string)
  end.
Proof.
  unfold ask_user, bind, input. destruct (stdin w) as [|response rest];
    [reflexivity|].
  eexists. split; [reflexivity|]. rewrite String.eqb_eq.
  destruct response as [|c [|c' response]]; cbn [lower].
  - split; [discriminate | intros [D|D]; discriminate].
  - split.
    + intros E. injection E as E. apply lower_char_y in E.
      destruct E as [->| ->]; auto.
    + intros [E|E]; injection E as ->; reflexivity.
  - split; [discriminate | intros [D|D]; discriminate].
Qed.

(** X6: under a validity test, [get_response] returns the first line that
    passes it; each line refused before costs one "Response did not meet
    conditions" and nothing else. *)
Theorem get_response_first_valid_line (default : string) (allow_empty : bool)
    (valid : string -> bool) (refused : list string) (good : string)
    (rest : list string) (tr : list event) :
  Forall (fun r => nonempty r = true /\ valid r = false) refused ->
  nonempty good = true ->
  valid good = true ->
  get_response default allow_empty (Some (fun r => ret (valid r)))
    (mkWorld (refused ++ good :: rest) tr) =
  (Ok good, mkWorld rest (tr ++ repeat (Print NotMet) (List.length refused))).
Proof.
  intros Hrefused Hgood Hvalid. revert tr.
  induction Hrefused as [|r refused [Hr Hv] _ IH]; intros tr;
    cbn [app List.length repeat].
  - rewrite app_nil_r.
    apply (get_response_accepted default allow_empty
             (Some (fun r => ret (valid r)))); [exact Hgood|].
    unfold ret. now rewrite Hvalid.
  - rewrite (get_response_refused default allow_empty (fun _ => True) I I
               (fun r => ret (valid r)) (fun _ => True) r
               (refused ++ good :: rest) tr (mkWorld (refused ++ good :: rest) tr)).
    + cbn [stdin trace]. rewrite IH, <- app_assoc. reflexivity.
    + intros s. apply runs_ret. trivial.
    + exact Hr.
    + unfold ret. now rewrite Hv.
Qed.

Lemma get_response_first_valid_line_witness :
  get_response EmptyString false (Some (fun r => ret (String.eqb r "b")))
    (mkWorld (["a"%string; "c"%string] ++ "b"%string :: ["d"%string]) []) =
  (Ok "b"%string,
   mkWorld ["d"%string] ([] ++ repeat (Print NotMet) (List.length ["a"%string; "c"%string]))).
Proof.
  apply (get_response_first_valid_line EmptyString false (fun r => String.eqb r "b")
           ["a"%string; "c"%string] "b" ["d"%string] []).
  - repeat constructor.
  - reflexivity.
  - reflexivity.
Defined.

(** ** The grid and the capture loop *)

Section CaptureFacts.
Context {Y : Type} `{FloatOps Y}.

(** X7: the grid that the constructor builds on a positive period holds
    exactly the timestamps [start + k * period], [k = 0, 1, ...], that are
    not after [end - 1s]. *)
Theorem init_allowed_x_members (start_ end' period_ tz_ : Z) (self : PlotArtist Y)
    (t : Z) :
  0 < period_ ->
  __init__ start_ end' period_ tz_ = Ok self ->
  In t (allowed_x self) <->
  exists k, 0 <= k /\ t = start_ + k * period_ /\ t <= end' - second.
Proof.
  intros Hp Hinit. rewrite init_grid in Hinit by lia.
  injection Hinit as <-. cbn [allowed_x].
  now apply generate_regular_range_In.
Qed.

(** X8: when the range is shorter than one second the grid is empty, and
    the first click of a series raises IndexError. *)
Theorem init_short_span_empty_grid (start_ end' period_ tz_ : Z) :
  0 < period_ ->
  end' - second < start_ ->
  exists self : PlotArtist Y,
    __init__ start_ end' period_ tz_ = Ok self /\
    allowed_x self = [] /\
    forall (x_sel y : Y) (more : list (Y * Y)),
      add_points self ((x_sel, y) :: more) = Raise IndexError.
Proof.
  intros Hp Hshort. eexists. split; [apply init_grid; lia|].
  cbn [allowed_x].
  assert (Hempty : generate_regular_range start_ (end' - second) period_ = []).
  { rewrite generate_regular_range_pos by assumption.
    assert (Hq : (end' - second - start_) / period_ < 0)
      by (apply Z.div_lt_upper_bound; lia).
    replace (Z.to_nat ((end' - second - start_) / period_ + 1)) with 0%nat by lia.
    reflexivity. }
  split; [exact Hempty|].
  intros x_sel y more. unfold add_points, get_target_x_coord.
  cbn [current_x allowed_x]. rewrite Hempty. reflexivity.
Qed.

End CaptureFacts.

Lemma init_allowed_x_members_witness :
  0 < 5 * minute /\
  __init__ (Y := Qc) 0 (20 * minute) (5 * minute) 0 = Ok session_start /\
  (In (10 * minute) (allowed_x session_start) <->
   exists k, 0 <= k /\ 10 * minute = 0 + k * (5 * minute) /\
             10 * minute <= 20 * minute - second).
Proof.
  split; [reflexivity|]. split; [reflexivity|].
  apply (init_allowed_x_members (Y := Qc) 0 (20 * minute) (5 * minute) 0
           session_start (10 * minute)); reflexivity.
Defined.

Lemma init_short_span_empty_grid_witness :
  0 < 100000000 /\
  500000000 - second < 0 /\
  exists self : PlotArtist Qc,
    __init__ 0 500000000 100000000 0 = Ok self /\
    allowed_x self = [] /\
    forall (x_sel y : Qc) (more : list (Qc * Qc)),
      add_points self ((x_sel, y) :: more) = Raise IndexError.
Proof.
  split; [reflexivity|]. split; [reflexivity|].
  apply (init_short_span_empty_grid (Y := Qc) 0 500000000 100000000 0); reflexivity.
Defined.

Section CaptureLoopFacts.
Context {Y : Type} `{FloatOps Y}.

(** A selection touches the points and [current_x] only. *)
Lemma plot_selection_frame (self self' : PlotArtist Y) (x_snapped : Z) (y : Y) :
  plot_selection self x_snapped y = Ok self' ->
  start self' = start self /\ end_ self' = end_ self /\
  period self' = period self /\ allowed_x self' = allowed_x self /\
  tz self' = tz self /\ df self' = df self.
Proof.
  unfold plot_selection.
  destruct (interpolated self x_snapped y); cbn [rbind]; [|discriminate].
  intros E. injection E as <-. repeat split.
Qed.

Lemma selection_keeps_run (self self' : PlotArtist Y) (x_sel y : Y) (target_x : Z) :
  built_grid self ->
  covered_run self ->
  get_target_x_coord self x_sel = Ok (Some target_x) ->
  plot_selection self target_x y = Ok self' ->
  covered_run self'.
Proof.
  intros Hgrid Hrun Htarget Hplot.
  destruct (built_grid_progression self Hgrid) as [size Hsize].
  pose proof Hgrid as [Hp _].
  unfold plot_selection in Hplot.
  destruct (interpolated self target_x y) as [between|] eqn:Hi; [|discriminate].
  cbn [rbind] in Hplot. injection Hplot as <-.
  unfold covered_run. cbn [current_x points allowed_x]. rewrite Hsize.
  unfold covered_run in Hrun.
  destruct (current_x self) as [cur|] eqn:Hcur.
  - destruct Hrun as [n [Hpts Hnth]].
    destruct (get_target_x_coord_returns self cur x_sel _ Hcur Htarget)
      as [x_pd [_ Er]].
    rewrite Hsize in Hpts, Hnth, Er.
    apply nth_error_progression in Hnth. destruct Hnth as [Hn Ecur].
    destruct (sorted _ _) as [|t rest] eqn:E; [discriminate|].
    injection Er as <-.
    apply sorted_first in E. destruct E as [Hin _].
    apply filter_In in Hin. destruct Hin as [Hin Hlt].
    apply Z.ltb_lt in Hlt. apply In_progression in Hin.
    destruct Hin as [m [Hm Et]].
    assert (Hnm : (n < m)%nat) by nia.
    exists m. split; [|apply nth_error_progression; split; [lia | exact Et]].
    rewrite firstn_progression in Hpts |- * by lia.
    assert (Hne : points self <> []).
    { intros Hnil. rewrite Hnil in Hpts. discriminate. }
    rewrite !map_app, Hpts.
    rewrite (interpolated_timestamps self (start self) cur target_x y n m between)
      by assumption.
    cbn [map px]. replace (S m) with (S n + ((m - S n) + 1))%nat by lia.
    rewrite !progression_app. cbn [Nat.add].
    replace (S (n + (m - S n)))%nat with m by lia.
    assert (Hlast : progression (start self) (period self) m 1 = [target_x])
      by (unfold progression; cbn [seq map]; now rewrite Et).
    now rewrite Hlast.
  - unfold get_target_x_coord in Htarget. rewrite Hcur, Hsize in Htarget.
    rewrite Hrun.
    unfold interpolated in Hi. rewrite Hrun in Hi. cbn [rev] in Hi.
    injection Hi as <-.
    destruct size as [|size']; [discriminate|].
    cbn in Htarget. injection Htarget as <-.
    exists 0%nat. split; reflexivity.
Qed.

(** One pass of the loop keeps the grid and the frame, and the points on
    the first timestamps of the grid. *)
Lemma add_points_keeps_run (self self' : PlotArtist Y) (xys : list (Y * Y))
    (continue_loop : bool) :
  built_grid self ->
  covered_run self ->
  add_points self xys = Ok (self', continue_loop) ->
  covered_run self' /\
  start self' = start self /\ end_ self' = end_ self /\
  period self' = period self /\ allowed_x self' = allowed_x self /\
  tz self' = tz self /\ df self' = df self.
Proof.
  intros Hgrid Hrun. unfold add_points.
  destruct xys as [|[x_sel y] more].
  { intros E. injection E as <- _. repeat split. exact Hrun. }
  destruct (get_target_x_coord self x_sel) as [[target_x|]|e] eqn:Htarget;
    cbn [rbind]; [| |discriminate].
  - destruct (plot_selection self target_x y) as [self1|e] eqn:Hplot;
      cbn [rbind]; [|discriminate].
    destruct (last_item (allowed_x self1)); cbn [rbind]; [|discriminate].
    intros E. injection E as <- _.
    split; [now apply (selection_keeps_run self self1 x_sel y target_x)|].
    now apply (plot_selection_frame self self1 target_x y).
  - intros E. injection E as <- _. repeat split. exact Hrun.
Qed.

Lemma capture_loop_keeps_run (clicks : list (list (Y * Y))) (self self' : PlotArtist Y) :
  built_grid self ->
  covered_run self ->
  capture_loop self clicks = Ok self' ->
  covered_run self' /\
  start self' = start self /\ end_ self' = end_ self /\
  period self' = period self /\ allowed_x self' = allowed_x self /\
  tz self' = tz self /\ df self' = df self.
Proof.
  revert self. induction clicks as [|xys clicks IH]; intros self Hgrid Hrun;
    cbn [capture_loop].
  - intros E. injection E as <-. repeat split. exact Hrun.
  - destruct (add_points self xys) as [[self1 continue_loop]|e] eqn:Hadd;
      cbn [rbind fst snd]; [|discriminate].
    destruct (add_points_keeps_run self self1 xys continue_loop Hgrid Hrun Hadd)
      as [Hrun1 [Es [Ee [Ep [Ea [Etz Ed]]]]]].
    destruct continue_loop.
    + intros Hloop. apply IH in Hloop; [|
        unfold built_grid in *; now rewrite Es, Ee, Ep, Ea | exact Hrun1].
      destruct Hloop as [Hrun' [Es' [Ee' [Ep' [Ea' [Etz' Ed']]]]]].
      rewrite Es', Ee', Ep', Ea', Etz', Ed'. now repeat split.
    + intros E. injection E as <-. now repeat split.
Qed.

(** The timestamps of a covered run are the first ones of the grid. *)
Lemma covered_run_prefix (self : PlotArtist Y) :
  built_grid self ->
  covered_run self ->
  exists size n : nat,
    allowed_x self = progression (start self) (period self) 0 size /\
    (n <= size)%nat /\
    map px (points self) = progression (start self) (period self) 0 n /\
    match current_x self with
    | None => n = 0%nat
    | Some cur => (0 < n)%nat /\ cur = start self + Z.of_nat (n - 1) * period self
    end.
Proof.
  intros Hgrid Hrun.
  destruct (built_grid_progression self Hgrid) as [size Hsize].
  exists size. unfold covered_run in Hrun.
  destruct (current_x self) as [cur|].
  - destruct Hrun as [n [Hpts Hnth]]. rewrite Hsize in Hpts, Hnth.
    apply nth_error_progression in Hnth. destruct Hnth as [Hn Ecur].
    exists (S n). rewrite firstn_progression in Hpts by lia.
    split; [exact Hsize|]. split; [lia|]. split; [exact Hpts|].
    split; [lia|]. now replace (S n - 1)%nat with n by lia.
  - exists 0%nat. rewrite Hrun.
    split; [exact Hsize|]. split; [lia|]. split; reflexivity.
Qed.

(** X9: the capture loop of [draw_series], started on the grid the
    constructor built with the recorded points covering its first
    timestamps, leaves the grid and the frame as they are and ends with one
    point per timestamp from the first one up to [current_x]: the
    timestamps of the points are strictly increasing and on the grid. *)
Theorem capture_loop_covers_grid_prefix (self self' : PlotArtist Y)
    (clicks : list (list (Y * Y))) :
  built_grid self ->
  covered_run self ->
  capture_loop self clicks = Ok self' ->
  allowed_x self' = allowed_x self /\
  df self' = df self /\
  covered_run self' /\
  StronglySorted Z.lt (map px (points self')) /\
  Forall (fun p => In (px p) (allowed_x self')) (points self').
Proof.
  intros Hgrid Hrun Hloop.
  destruct (capture_loop_keeps_run clicks self self' Hgrid Hrun Hloop)
    as [Hrun' [Es [Ee [Ep [Ea [Etz Ed]]]]]].
  assert (Hgrid' : built_grid self')
    by (unfold built_grid in *; now rewrite Es, Ee, Ep, Ea).
  split; [exact Ea|]. split; [exact Ed|]. split; [exact Hrun'|].
  destruct (covered_run_prefix self' Hgrid' Hrun')
    as [size [n [Hsize [Hn [Hpts _]]]]].
  destruct Hgrid' as [Hp _]. split.
  - rewrite Hpts. now apply progression_sorted.
  - apply Forall_forall. intros p Hp'.
    assert (Hin : In (px p) (map px (points self'))) by now apply in_map.
    rewrite Hpts in Hin. rewrite Hsize.
    apply In_progression in Hin. destruct Hin as [k [Hk ->]].
    apply In_progression. exists k. split; [lia | reflexivity].
Qed.

End CaptureLoopFacts.

Lemma capture_loop_covers_grid_prefix_witness :
  exists self' : PlotArtist Qc,
    capture_loop session_start
      [[(click_at_minute 0, Zc 0)]; [(click_at_minute 9, Zc 10)]] = Ok self' /\
    allowed_x self' = allowed_x session_start /\
    df self' = df session_start /\
    covered_run self' /\
    StronglySorted Z.lt (map px (points self')) /\
    Forall (fun p => In (px p) (allowed_x self')) (points self').
Proof.
  eexists. split; [vm_compute; reflexivity|].
  apply (capture_loop_covers_grid_prefix session_start _
           [[(click_at_minute 0, Zc 0)]; [(click_at_minute 9, Zc 10)]]).
  - split; reflexivity.
  - reflexivity.
  - vm_compute; reflexivity.
Defined.

(** ** The points of a finished series *)

Lemma StronglySorted_of_map {A B : Type} (R : B -> B -> Prop) (f : A -> B)
    (l : list A) :
  StronglySorted R (map f l) -> StronglySorted (fun a b => R (f a) (f b)) l.
Proof.
  induction l as [|a l IH]; cbn [map]; intros Hs; [constructor|].
  inversion Hs as [|? ? Hs' Hall]; subst. constructor; [now apply IH|].
  rewrite Forall_forall in Hall |- *. intros x Hx. apply Hall. now apply in_map.
Qed.

Lemma last_item_progression (b s x : Z) (size : nat) :
  last_item (progression b s 0 size) = Ok x ->
  (0 < size)%nat /\ x = b + Z.of_nat (size - 1) * s.
Proof.
  destruct size as [|k]; [discriminate|].
  replace (S k) with (k + 1)%nat by lia. rewrite progression_app.
  unfold last_item. rewrite rev_app_distr. cbn [progression seq map rev app].
  intros E. injection E as <-. split; [lia|].
  now replace (k + 1 - 1)%nat with (0 + k)%nat by lia.
Qed.

Section SeriesFacts.
Context {Y : Type} `{FloatOps Y}.

Lemma In_set_to_list (l : list (Point Y)) (p : Point Y) :
  In p (set_to_list l) -> In p l.
Proof.
  induction l as [|a l IH]; cbn [set_to_list]; [tauto|].
  intros [<-|Hp]; [now left|]. right. apply IH.
  apply filter_In in Hp. tauto.
Qed.

Lemma set_to_list_length (l : list (Point Y)) :
  (List.length (set_to_list l) <= List.length l)%nat.
Proof.
  induction l as [|a l IH]; cbn [set_to_list List.length]; [lia|].
  pose proof (filter_length_le (fun q => negb (point_eqb a q)) (set_to_list l)).
  lia.
Qed.

(** Points at distinct timestamps are all kept. *)
Lemma set_to_list_distinct (l : list (Point Y)) :
  NoDup (map px l) -> set_to_list l = l.
Proof.
  induction l as [|a l IH]; cbn [set_to_list map]; intros Hnd; [reflexivity|].
  inversion Hnd as [|? ? Hnotin Hnd']; subst. f_equal.
  rewrite IH by assumption. apply filter_all. intros q Hq.
  unfold point_eqb. destruct (Z.eqb_spec (px a) (px q)) as [E|_]; [|reflexivity].
  exfalso. apply Hnotin. rewrite E. now apply in_map.
Qed.

(** Points in strictly increasing order of time are left in that order. *)
Lemma sorted_increasing (l : list (Point Y)) :
  StronglySorted Z.lt (map px l) -> sorted px l = l.
Proof.
  intros Hs. apply (sorted_arrangement_unique px).
  - apply sorted_StronglySorted.
  - now apply StronglySorted_of_map in Hs.
  - apply Permutation_sym. unfold sorted. apply sort_by_Permutation.
Qed.

(** X10: on points whose timestamps are strictly increasing, as the
    capture loop leaves them, the removal of duplicates and the sort of
    [draw_series] change nothing. *)
Theorem normalisation_keeps_increasing_points (l : list (Point Y)) :
  StronglySorted Z.lt (map px l) ->
  sorted px (set_to_list l) = l.
Proof.
  intros Hs. rewrite set_to_list_distinct by now apply sorted_lt_NoDup.
  now apply sorted_increasing.
Qed.

(** X11: whatever the recorded points, the points that [draw_series]
    keeps are in order of time, each of them is a recorded point, and they
    are no more than were recorded. *)
Theorem normalisation_orders_recorded_points (l : list (Point Y)) :
  StronglySorted (fun p q => px p <= px q) (sorted px (set_to_list l)) /\
  (forall p, In p (sorted px (set_to_list l)) -> In p l) /\
  (List.length (sorted px (set_to_list l)) <= List.length l)%nat.
Proof.
  split; [apply sorted_StronglySorted|]. split.
  - intros p Hp. apply In_sorted in Hp. now apply In_set_to_list.
  - unfold sorted.
    rewrite <- (Permutation_length
                  (sort_by_Permutation (fun a b => px a <=? px b) (set_to_list l))).
    apply set_to_list_length.
Qed.

(** X12: a point recorded twice in a row counts once. *)
Theorem normalisation_drops_repeated_point (front back : list (Point Y))
    (p : Point Y) :
  feqb (py p) (py p) = true ->
  sorted px (set_to_list (front ++ p :: p :: back)) =
  sorted px (set_to_list (front ++ p :: back)).
Proof.
  intros Hrefl. f_equal.
  induction front as [|a front IH]; cbn [app set_to_list].
  - assert (Hpp : point_eqb p p = true)
      by (unfold point_eqb; now rewrite Z.eqb_refl, Hrefl).
    f_equal. cbn [filter]. rewrite Hpp. cbn [negb].
    induction (set_to_list back) as [|q l IHl]; cbn [filter]; [reflexivity|].
    destruct (negb (point_eqb p q)) eqn:E; cbn [filter]; rewrite ?E, IHl;
      reflexivity.
  - now rewrite IH.
Qed.

Lemma verify_points_on_grid (self : PlotArtist Y) :
  map px (points self) = allowed_x self -> verify_points self = true.
Proof.
  intros Hpts. unfold verify_points.
  rewrite <- Hpts, length_map, Nat.eqb_refl. cbn [negb].
  apply forallb_forall. intros p Hp. apply existsb_exists.
  exists (px p). split; [now apply in_map | apply Z.eqb_refl].
Qed.

Lemma verify_points_wrong_count (self : PlotArtist Y) :
  List.length (points self) <> List.length (allowed_x self) ->
  verify_points self = false.
Proof.
  intros Hlen. unfold verify_points.
  destruct (Nat.eqb_spec (List.length (points self)) (List.length (allowed_x self)));
    [contradiction | reflexivity].
Qed.

(** A covered run is complete exactly when [current_x] is the last
    timestamp of the grid. *)
Lemma covered_run_count (self : PlotArtist Y) (last : Z) :
  built_grid self ->
  covered_run self ->
  last_item (allowed_x self) = Ok last ->
  (current_x self = Some last -> map px (points self) = allowed_x self) /\
  (current_x self <> Some last ->
   (List.length (points self) < List.length (allowed_x self))%nat).
Proof.
  intros Hgrid Hrun Hlast.
  destruct (covered_run_prefix self Hgrid Hrun)
    as [size [n [Hsize [Hn [Hpts Hcur]]]]].
  destruct Hgrid as [Hp _]. rewrite Hsize in Hlast |- *.
  apply last_item_progression in Hlast. destruct Hlast as [Hpos Elast].
  assert (Hlen : List.length (points self) = n).
  { rewrite <- (length_map px), Hpts. unfold progression.
    now rewrite length_map, length_seq. }
  split.
  - intros E. rewrite E in Hcur. destruct Hcur as [Hn0 Ecur].
    assert (En : size = n) by nia. rewrite En. exact Hpts.
  - intros Hne. rewrite Hlen. unfold progression. rewrite length_map, length_seq.
    destruct (current_x self) as [cur|].
    + destruct Hcur as [Hn0 Ecur].
      assert (n <> size); [|lia]. intros ->. apply Hne. now rewrite Ecur, Elast.
    + lia.
Qed.

(** [draw_series] once the name is read and the capture loop is over. *)
Lemma draw_series_named (self self1 : PlotArtist Y) (clicks : list (list (Y * Y)))
    (name : string) (rest : list string) (tr : list event) :
  nonempty name = true ->
  capture_loop self clicks = Ok self1 ->
  draw_series self clicks (mkWorld (name :: rest) tr) =
  bind (if negb (verify_points
                   (mkPlotArtist (start self1) (end_ self1) (period self1) (tz self1)
                      (allowed_x self1) (df self1)
                      (sorted px (set_to_list (points self1))) (current_x self1)))
        then print InvalidPoints else ret tt)
       (fun _ =>
          lift (finish_series
                  (mkPlotArtist (start self1) (end_ self1) (period self1) (tz self1)
                     (allowed_x self1) (df self1)
                     (sorted px (set_to_list (points self1))) (current_x self1))
                  name))
       (mkWorld rest tr).
Proof.
  intros Hname Hloop. unfold draw_series.
  rewrite (bind_returns _ _ _ _ _
             (get_response_accepted EmptyString false None name rest tr Hname I)).
  unfold bind at 1, lift at 1. rewrite Hloop. reflexivity.
Qed.

(** X13: a series captured up to the last timestamp of the grid is
    committed by [draw_series] without a warning: the frame gets the column
    of its values, one per grid timestamp and in grid order, and the
    points and [current_x] are reset. *)
Theorem draw_series_commits_complete_series (self self1 : PlotArtist Y)
    (clicks : list (list (Y * Y))) (name : string) (rest : list string)
    (tr : list event) (last : Z) :
  built_grid self ->
  covered_run self ->
  df_index (df self) = allowed_x self ->
  nonempty name = true ->
  capture_loop self clicks = Ok self1 ->
  last_item (allowed_x self) = Ok last ->
  current_x self1 = Some last ->
  map px (points self1) = allowed_x self /\
  draw_series self clicks (mkWorld (name :: rest) tr) =
  (Ok (mkPlotArtist (start self) (end_ self) (period self) (tz self) (allowed_x self)
         (mkDataFrame (df_index (df self))
            (set_column name (map Some (map py (points self1)))
               (df_columns (df self))))
         [] None),
   mkWorld rest tr).
Proof.
  intros Hgrid Hrun Hindex Hname Hloop Hlast Hcur.
  destruct (capture_loop_keeps_run clicks self self1 Hgrid Hrun Hloop)
    as [Hrun1 [Es [Ee [Ep [Ea [Etz Ed]]]]]].
  assert (Hgrid1 : built_grid self1)
    by (unfold built_grid in *; now rewrite Es, Ee, Ep, Ea).
  assert (Hpts : map px (points self1) = allowed_x self1).
  { rewrite <- Ea in Hlast.
    now apply (proj1 (covered_run_count self1 last Hgrid1 Hrun1 Hlast)). }
  split; [now rewrite <- Ea|].
  assert (Hsorted : StronglySorted Z.lt (map px (points self1))).
  { rewrite Hpts, Ea. destruct Hgrid as [Hp ->].
    now apply generate_regular_range_sorted. }
  rewrite (draw_series_named self self1 clicks name rest tr Hname Hloop).
  rewrite set_to_list_distinct by now apply sorted_lt_NoDup.
  rewrite sorted_increasing by assumption.
  rewrite verify_points_on_grid by exact Hpts.
  cbn [negb]. unfold bind, ret, lift.
  rewrite finish_series_commits.
  - cbn [start end_ period tz allowed_x df points].
    now rewrite Es, Ee, Ep, Ea, Etz, Ed.
  - cbn [points df]. rewrite Ed, Hindex, <- Ea, <- Hpts. now rewrite length_map.
Qed.

(** X14: a series that stops before the last timestamp of the grid is
    not committed: [draw_series] prints "Received invalid points" and the
    assignment of the column raises ValueError. *)
Theorem draw_series_raises_on_incomplete_series (self self1 : PlotArtist Y)
    (clicks : list (list (Y * Y))) (name : string) (rest : list string)
    (tr : list event) (last : Z) :
  built_grid self ->
  covered_run self ->
  df_index (df self) = allowed_x self ->
  nonempty name = true ->
  capture_loop self clicks = Ok self1 ->
  last_item (allowed_x self) = Ok last ->
  current_x self1 <> Some last ->
  draw_series self clicks (mkWorld (name :: rest) tr) =
  (Raise ValueError, mkWorld rest (tr ++ [Print InvalidPoints])).
Proof.
  intros Hgrid Hrun Hindex Hname Hloop Hlast Hcur.
  destruct (capture_loop_keeps_run clicks self self1 Hgrid Hrun Hloop)
    as [Hrun1 [Es [Ee [Ep [Ea [Etz Ed]]]]]].
  assert (Hgrid1 : built_grid self1)
    by (unfold built_grid in *; now rewrite Es, Ee, Ep, Ea).
  assert (Hshort : (List.length (points self1) < List.length (allowed_x self1))%nat).
  { rewrite <- Ea in Hlast.
    now apply (proj2 (covered_run_count self1 last Hgrid1 Hrun1 Hlast)). }
  assert (Hsorted : StronglySorted Z.lt (map px (points self1))).
  { destruct (covered_run_prefix self1 Hgrid1 Hrun1)
      as [size [n [_ [_ [Hpts _]]]]].
    rewrite Hpts. destruct Hgrid1 as [Hp _]. now apply progression_sorted. }
  rewrite (draw_series_named self self1 clicks name rest tr Hname Hloop).
  rewrite set_to_list_distinct by now apply sorted_lt_NoDup.
  rewrite sorted_increasing by assumption.
  rewrite verify_points_wrong_count by (cbn [points allowed_x]; lia).
  cbn [negb]. unfold bind, print, emit, lift. cbn [stdin trace].
  rewrite finish_series_wrong_count; [reflexivity | |].
  - cbn [points df]. rewrite Ed, Hindex, <- Ea. lia.
  - cbn [df]. rewrite Ed, Hindex, <- Ea. intros Hnil. rewrite Hnil in Hshort.
    cbn [List.length] in Hshort. lia.
Qed.

End SeriesFacts.

Lemma normalisation_keeps_increasing_points_witness :
  StronglySorted Z.lt (map px [mkPoint 0 (Zc 5); mkPoint (5 * minute) (Zc 7)]) /\
  sorted px (set_to_list [mkPoint 0 (Zc 5); mkPoint (5 * minute) (Zc 7)]) =
  [mkPoint 0 (Zc 5); mkPoint (5 * minute) (Zc 7)].
Proof.
  assert (Hs : StronglySorted Z.lt
                 (map px [mkPoint 0 (Zc 5); mkPoint (5 * minute) (Zc 7)])).
  { repeat constructor. }
  split; [exact Hs|].
  exact (normalisation_keeps_increasing_points
           [mkPoint 0 (Zc 5); mkPoint (5 * minute) (Zc 7)] Hs).
Defined.

Lemma normalisation_drops_repeated_point_witness :
  feqb (py (mkPoint 0 (Zc 5))) (py (mkPoint 0 (Zc 5))) = true /\
  sorted px (set_to_list ([] ++ mkPoint 0 (Zc 5) :: mkPoint 0 (Zc 5) :: [])) =
  sorted px (set_to_list ([] ++ mkPoint 0 (Zc 5) :: [])).
Proof.
  split; [reflexivity|].
  apply (normalisation_drops_repeated_point [] [] (mkPoint 0 (Zc 5))).
  reflexivity.
Defined.

Lemma draw_series_commits_complete_series_witness :
  exists self1 : PlotArtist Qc,
    capture_loop session_start
      [[(click_at_minute 0, Zc 0)]; [(click_at_minute 15, Zc 30)]] = Ok self1 /\
    map px (points self1) = allowed_x session_start /\
    draw_series session_start
      [[(click_at_minute 0, Zc 0)]; [(click_at_minute 15, Zc 30)]]
      (mkWorld ["s1"%string] []) =
    (Ok (mkPlotArtist (start session_start) (end_ session_start)
           (period session_start) (tz session_start) (allowed_x session_start)
           (mkDataFrame (df_index (df session_start))
              (set_column "s1" (map Some (map py (points self1)))
                 (df_columns (df session_start))))
           [] None),
     mkWorld [] []).
Proof.
  eexists. split; [vm_compute; reflexivity|].
  apply (draw_series_commits_complete_series session_start _
           [[(click_at_minute 0, Zc 0)]; [(click_at_minute 15, Zc 30)]]
           "s1" [] [] (15 * minute)).
  - split; reflexivity.
  - reflexivity.
  - reflexivity.
  - reflexivity.
  - vm_compute; reflexivity.
  - reflexivity.
  - reflexivity.
Defined.

Lemma draw_series_raises_on_incomplete_series_witness :
  draw_series session_start
    [[(click_at_minute 0, Zc 0)]; [(click_at_minute 9, Zc 10)]]
    (mkWorld ["s1"%string; "n"%string] []) =
  (Raise ValueError, mkWorld ["n"%string] ([] ++ [Print InvalidPoints])).
Proof.
  eapply (draw_series_raises_on_incomplete_series session_start _
            [[(click_at_minute 0, Zc 0)]; [(click_at_minute 9, Zc 10)]]
            "s1" ["n"%string] [] (15 * minute)).
  - split; reflexivity.
  - reflexivity.
  - reflexivity.
  - reflexivity.
  - vm_compute; reflexivity.
  - reflexivity.
  - intros E. vm_compute in E. discriminate.
Defined.

(** ** Columns, colours and the legend *)

Lemma set_column_names {V : Type} (name : string) (values : list (option V))
    (cols : list (string * list (option V))) :
  (In name (map fst cols) ->
   map fst (set_column name values cols) = map fst cols) /\
  (~ In name (map fst cols) ->
   map fst (set_column name values cols) = map fst cols ++ [name]).
Proof.
  induction cols as [|[c old] cols [IHin IHout]]; cbn [set_column map fst app].
  - split; [intros [] | reflexivity].
  - destruct (String.eqb_spec c name) as [->|Hne]; cbn [map fst].
    + split; [reflexivity | intros Hout; exfalso; apply Hout; now left].
    + split.
      * intros [E|Hin]; [contradiction|]. now rewrite IHin.
      * intros Hout. rewrite IHout; [reflexivity|]. intros Hin. apply Hout. now right.
Qed.

Lemma set_column_holds {V : Type} (name : string) (values : list (option V))
    (cols : list (string * list (option V))) :
  In (name, values) (set_column name values cols).
Proof.
  induction cols as [|[c old] cols IH]; cbn [set_column]; [now left|].
  destruct (String.eqb_spec c name) as [->|Hne]; [now left | now right].
Qed.

Lemma combine_snoc {A B : Type} (l : list A) (l' : list B) (a : A) (b : B) :
  List.length l = List.length l' ->
  combine (l ++ [a]) (l' ++ [b]) = combine l l' ++ [(a, b)].
Proof.
  revert l'. induction l as [|x l IH]; intros [|y l'] Hlen; try discriminate;
    cbn [app combine]; [reflexivity|].
  f_equal. apply IH. now injection Hlen.
Qed.

Lemma firstn_succ_nth {A : Type} (l : list A) (k : nat) (d : A) :
  (k < List.length l)%nat -> firstn (S k) l = firstn k l ++ [nth k l d].
Proof.
  revert k. induction l as [|x l IH]; intros k Hk; cbn [List.length] in Hk; [lia|].
  destruct k as [|k]; [reflexivity|].
  cbn [firstn nth app]. f_equal. apply IH. lia.
Qed.

Section ColumnFacts.
Context {Y : Type} `{FloatOps Y}.

(** X15: a finished series becomes the column of its name, and the points
    and [current_x] are reset.  A name that the frame does not have yet
    gives a new last column; a name that it has gives no new column: the
    old values are replaced, the frame keeps its columns in their order,
    and the next series gets the same index and colour. *)
Theorem finish_series_column_names (self self' : PlotArtist Y) (name : string) :
  finish_series self name = Ok self' ->
  In (name, map Some (map py (points self))) (df_columns (df self')) /\
  points self' = [] /\
  current_x self' = None /\
  (~ In name (map fst (df_columns (df self))) ->
   map fst (df_columns (df self')) = map fst (df_columns (df self)) ++ [name]) /\
  (In name (map fst (df_columns (df self))) ->
   map fst (df_columns (df self')) = map fst (df_columns (df self)) /\
   series_idx self' = series_idx self /\
   color self' = color self).
Proof.
  unfold finish_series, df_setitem. intros Hfin.
  assert (Hshape : exists cols,
            map fst cols = map fst (df_columns (df self)) /\
            df_columns (df self') =
              set_column name (map Some (map py (points self))) cols /\
            points self' = [] /\ current_x self' = None).
  { destruct (List.length (map py (points self)) =? List.length (df_index (df self)))%nat.
    - cbn [rbind] in Hfin. injection Hfin as <-.
      exists (df_columns (df self)). repeat split.
    - destruct (List.length (df_index (df self)) =? 0)%nat; [|discriminate].
      cbn [rbind] in Hfin. injection Hfin as <-.
      eexists. split; [|repeat split]. rewrite map_map. reflexivity. }
  destruct Hshape as [cols [Hnames [Hcols [Hpts Hcur]]]].
  rewrite Hcols, <- Hnames.
  destruct (set_column_names name (map Some (map py (points self))) cols)
    as [Hin Hout].
  split; [apply set_column_holds|]. split; [exact Hpts|]. split; [exact Hcur|].
  split; [exact Hout|].
  intros Hname. specialize (Hin Hname).
  assert (Hidx : series_idx self' = series_idx self).
  { unfold series_idx. rewrite Hcols.
    rewrite <- (length_map fst), Hin, Hnames. apply length_map. }
  split; [exact Hin|]. split; [exact Hidx|].
  unfold color. now rewrite Hidx.
Qed.

(** X16: while the palette has a colour left, the legend lists the
    finished series and then the new one, in the colour it is drawn in. *)
Theorem add_to_legend_within_palette (self : PlotArtist Y) (new_series_name : string) :
  (series_idx self < List.length colors)%nat ->
  add_to_legend self new_series_name =
  combine (firstn (series_idx self) colors) (map fst (df_columns (df self))) ++
  [(color self, new_series_name)].
Proof.
  intros Hk. unfold add_to_legend, color. cbv zeta.
  rewrite length_app, length_map. cbn [List.length].
  fold (series_idx self). rewrite Nat.add_1_r.
  rewrite (firstn_succ_nth colors (series_idx self) EmptyString Hk).
  rewrite Nat.mod_small by exact Hk.
  apply combine_snoc. rewrite length_firstn, length_map.
  unfold series_idx in *. lia.
Qed.

(** X17: from the tenth series on, the legend shows the first nine
    series only: the new series is not listed. *)
Theorem add_to_legend_beyond_palette (self : PlotArtist Y) (new_series_name : string) :
  (List.length colors <= series_idx self)%nat ->
  add_to_legend self new_series_name =
  combine colors (firstn (List.length colors) (map fst (df_columns (df self)))).
Proof.
  intros Hk. unfold add_to_legend. cbv zeta.
  rewrite length_app, length_map. fold (series_idx self).
  rewrite firstn_all2 by (cbn [List.length] in *; lia).
  rewrite (combine_firstn_l colors (map fst (df_columns (df self)) ++ [new_series_name])).
  rewrite firstn_app, length_map. fold (series_idx self).
  replace (List.length colors - series_idx self)%nat with 0%nat by lia.
  cbn [firstn]. now rewrite app_nil_r.
Qed.

End ColumnFacts.

Lemma finish_series_column_names_witness :
  exists self' : PlotArtist Qc,
    finish_series session_second_series "s1" = Ok self' /\
    In ("s1"%string, map Some (map py (points session_second_series)))
       (df_columns (df self')) /\
    points self' = [] /\
    current_x self' = None /\
    (~ In "s1"%string (map fst (df_columns (df session_second_series))) ->
     map fst (df_columns (df self')) =
     map fst (df_columns (df session_second_series)) ++ ["s1"%string]) /\
    (In "s1"%string (map fst (df_columns (df session_second_series))) ->
     map fst (df_columns (df self')) =
     map fst (df_columns (df session_second_series)) /\
     series_idx self' = series_idx session_second_series /\
     color self' = color session_second_series).
Proof.
  eexists. split; [reflexivity|].
  apply (finish_series_column_names session_second_series _ "s1").
  reflexivity.
Defined.

Lemma add_to_legend_within_palette_witness :
  (series_idx session_second_series < List.length colors)%nat /\
  add_to_legend session_second_series "s2" =
  combine (firstn (series_idx session_second_series) colors)
          (map fst (df_columns (df session_second_series))) ++
  [(color session_second_series, "s2"%string)].
Proof.
  assert (Hk : (series_idx session_second_series < List.length colors)%nat)
    by (vm_compute; lia).
  split; [exact Hk|].
  exact (add_to_legend_within_palette session_second_series "s2" Hk).
Defined.

Lemma add_to_legend_beyond_palette_witness :
  (List.length colors <= series_idx session_nine_series)%nat /\
  add_to_legend session_nine_series "s10" =
  combine colors
    (firstn (List.length colors) (map fst (df_columns (df session_nine_series)))).
Proof.
  assert (Hk : (List.length colors <= series_idx session_nine_series)%nat)
    by (vm_compute; lia).
  split; [exact Hk|].
  exact (add_to_legend_beyond_palette session_nine_series "s10" Hk).
Defined.

(** ** The responses of the reshape *)

Lemma without_space_remove_spaces (s : string) :
  without " " (remove_spaces s) = true.
Proof.
  induction s as [|c s IH]; cbn [remove_spaces]; [reflexivity|].
  destruct (Ascii.eqb c " ") eqn:E; [exact IH|].
  cbn [without]. now rewrite E, IH.
Qed.

Lemma split_comma_parts_plain (s : string) :
  without " " s = true -> Forall (fun c => plain c = true) (split_comma s).
Proof.
  induction s as [|c s IH]; cbn [split_comma without].
  - intros _. repeat constructor.
  - intros Hs. apply andb_true_iff in Hs. destruct Hs as [Hc Hs].
    specialize (IH Hs).
    destruct (Ascii.eqb c ",") eqn:E; [constructor; [reflexivity | exact IH]|].
    destruct (split_comma s) as [|word words].
    + constructor; [|constructor]. cbn [plain]. now rewrite Hc, E.
    + inversion IH as [|? ? Hword Hwords]; subst.
      constructor; [|exact Hwords]. cbn [plain]. now rewrite Hc, E, Hword.
Qed.

(** X18: the column names that [reshape] reads off a response hold no
    space and no comma, whatever was typed: a column whose name has one
    cannot be named, and is never melted. *)
Theorem response_names_are_plain (response : string) :
  Forall (fun c => plain c = true) (split_comma (remove_spaces response)).
Proof. apply split_comma_parts_plain, without_space_remove_spaces. Qed.

(** X19: a response that lists plain names separated by a comma and a
    space, as the prompt shows them, is read back as these names, in
    order. *)
Theorem response_lists_names (names : list string) :
  names <> [] ->
  Forall (fun c => plain c = true) names ->
  split_comma (remove_spaces (join ", " names)) = names.
Proof.
  intros Hne Hplain. induction names as [|a names IH]; [contradiction|].
  inversion Hplain as [|? ? Ha Hnames]; subst.
  destruct names as [|b names].
  - cbn [join]. now rewrite remove_spaces_plain, split_comma_plain.
  - change (join ", " (a :: b :: names))
      with (a ++ String "," (String " " (join ", " (b :: names))))%string.
    rewrite remove_spaces_app, (remove_spaces_plain a Ha).
    change (remove_spaces (String "," (String " " (join ", " (b :: names)))))
      with (String "," (remove_spaces (join ", " (b :: names)))).
    rewrite split_comma_app by exact Ha. f_equal.
    apply IH; [discriminate | exact Hnames].
Qed.

Lemma response_lists_names_witness :
  ["v1"; "v2"; "v3"]%string <> [] /\
  Forall (fun c => plain c = true) ["v1"; "v2"; "v3"]%string /\
  split_comma (remove_spaces (join ", " ["v1"; "v2"; "v3"]%string)) =
  ["v1"; "v2"; "v3"]%string.
Proof.
  assert (Hne : ["v1"; "v2"; "v3"]%string <> []) by discriminate.
  assert (Hplain : Forall (fun c => plain c = true) ["v1"; "v2"; "v3"]%string)
    by (repeat constructor).
  split; [exact Hne|]. split; [exact Hplain|].
  exact (response_lists_names ["v1"; "v2"; "v3"]%string Hne Hplain).
Defined.

Lemma dict_set_new {V : Type} (d : list (string * V)) (k : string) (v : V) :
  ~ In k (map fst d) -> dict_set d k v = d ++ [(k, v)].
Proof.
  induction d as [|[k' v'] d IH]; cbn [dict_set map fst app]; [reflexivity|].
  intros Hout. destruct (String.eqb_spec k' k) as [E|_].
  - exfalso. apply Hout. now left.
  - f_equal. apply IH. intros Hin. apply Hout. now right.
Qed.

Lemma read_identifier_mapping_appends (unpivot_columns : list string) :
  forall (ids : list string) (mapping : list (string * string))
         (rest : list string) (tr : list event),
    NoDup unpivot_columns ->
    (forall c, In c unpivot_columns -> ~ In c (map fst mapping)) ->
    List.length ids = List.length unpivot_columns ->
    Forall (fun i => nonempty i = true) ids ->
    read_identifier_mapping unpivot_columns mapping (mkWorld (ids ++ rest) tr) =
    (Ok (mapping ++ combine unpivot_columns ids), mkWorld rest tr).
Proof.
  induction unpivot_columns as [|c cols IH];
    intros ids mapping rest tr Hnd Hfresh Hlen Hids.
  - destruct ids; [|discriminate]. cbn [read_identifier_mapping combine app].
    now rewrite app_nil_r.
  - destruct ids as [|i ids]; [discriminate|].
    inversion Hnd as [|? ? Hc Hnd']; subst.
    inversion Hids as [|? ? Hi Hids']; subst.
    cbn [read_identifier_mapping combine app].
    rewrite (bind_returns _ _ _ _ _
               (get_response_accepted EmptyString false None i (ids ++ rest) tr Hi I)).
    rewrite dict_set_new by (apply Hfresh; now left).
    rewrite IH; try assumption.
    + now rewrite <- app_assoc.
    + intros c' Hc'. rewrite map_app, in_app_iff. cbn [map fst In].
      intros [Hin|[E|[]]].
      * apply (Hfresh c'); [now right | exact Hin].
      * subst c'. contradiction.
    + now injection Hlen.
Qed.

(** X20: asked for the identifiers of distinct columns, [reshape] reads
    one line for each, in the order of the columns, and maps each column
    to its line. *)
Theorem read_identifier_mapping_pairs (unpivot_columns ids rest : list string)
    (tr : list event) :
  NoDup unpivot_columns ->
  List.length ids = List.length unpivot_columns ->
  Forall (fun i => nonempty i = true) ids ->
  read_identifier_mapping unpivot_columns [] (mkWorld (ids ++ rest) tr) =
  (Ok (combine unpivot_columns ids), mkWorld rest tr).
Proof.
  intros Hnd Hlen Hids.
  now apply (read_identifier_mapping_appends unpivot_columns ids [] rest tr).
Qed.

Lemma read_identifier_mapping_pairs_witness :
  read_identifier_mapping ["a"; "b"]%string []
    (mkWorld (["A"; "B"]%string ++ ["w"%string]) []) =
  (Ok (combine ["a"; "b"]%string ["A"; "B"]%string), mkWorld ["w"%string] []).
Proof.
  apply (read_identifier_mapping_pairs ["a"; "b"]%string ["A"; "B"]%string
           ["w"%string] []).
  - repeat constructor; cbn [In]; intuition discriminate.
  - reflexivity.
  - repeat constructor.
Defined.

(** X21: asked for no set, or for a negative number of sets, [reshape]
    raises IndexError before it reads or prints anything. *)
Theorem reshape_without_sets_raises (Y : Type) (ops : FloatOps Y) (df : Table Y)
    (time_col : string) (num_sets : Z) (grouping_col : string)
    (constants : list (string * cell Y)) (w : world) :
  num_sets <= 0 ->
  reshape df time_col num_sets grouping_col constants w = (Raise IndexError, w).
Proof.
  intros Hn. unfold reshape.
  replace (Z.to_nat num_sets) with 0%nat by lia. reflexivity.
Qed.

Lemma reshape_without_sets_raises_witness :
  0 <= 0 /\
  reshape wide_example "t" 0 "g" [] one_set_of_two = (Raise IndexError, one_set_of_two).
Proof.
  split; [lia|].
  apply (reshape_without_sets_raises Qc QcFloat wide_example "t" 0 "g" []
           one_set_of_two).
  lia.
Defined.

(** X22: [ordinal] gives "th" to the numbers that end in 11, 12 or 13,
    "st", "nd" and "rd" to the other numbers that end in 1, 2 and 3, and
    "th" to all the others. *)
Theorem ordinal_suffix (n : Z) :
  ordinal n =
  String.append (str n)
    (if (n mod 100 =? 11) || (n mod 100 =? 12) || (n mod 100 =? 13)
     then "th"%string
     else if n mod 10 =? 1 then "st"%string
     else if n mod 10 =? 2 then "nd"%string
     else if n mod 10 =? 3 then "rd"%string
     else "th"%string).
Proof.
  unfold ordinal. cbv zeta. f_equal.
  assert (Hm : n mod 10 = (n mod 100) mod 10)
    by (Z.to_euclidean_division_equations; lia).
  assert (Hr : 0 <= n mod 100 < 100) by (apply Z.mod_pos_bound; lia).
  rewrite Hm. set (m := n mod 100) in *.
  assert (Hcases : m = 0 \/ m = 1 \/ m = 2 \/ m = 3 \/ m = 11 \/ m = 12 \/ m = 13 \/
                   (4 <= m <= 10) \/ (14 <= m <= 20) \/ (21 <= m)) by lia.
  destruct (Z.leb_spec 10 m), (Z.leb_spec m 20), (Z.eqb_spec m 11),
    (Z.eqb_spec m 12), (Z.eqb_spec m 13); cbn [andb orb]; try reflexivity; try lia.
  - assert (Hd : m = 10 \/ m = 14 \/ m = 15 \/ m = 16 \/ m = 17 \/ m = 18 \/
                 m = 19 \/ m = 20) by lia.
    destruct Hd as [->|[->|[->|[->|[->|[->|[->| ->]]]]]]]; reflexivity.
Qed.

(** ** The constants of the command line *)

Lemma split_on_without (sep : ascii) (s : string) :
  without sep s = true -> split_on sep s = [s].
Proof.
  induction s as [|c s IH]; cbn [split_on without]; [reflexivity|].
  intros Hs. apply andb_true_iff in Hs. destruct Hs as [Hc Hs].
  apply negb_true_iff in Hc. now rewrite Hc, IH.
Qed.

Lemma split_on_app (sep : ascii) (a b : string) :
  without sep a = true ->
  split_on sep (a ++ String sep b) = a :: split_on sep b.
Proof.
  induction a as [|c a IH]; cbn [split_on without String.append].
  - intros _. now rewrite Ascii.eqb_refl.
  - intros Ha. apply andb_true_iff in Ha. destruct Ha as [Hc Ha].
    apply negb_true_iff in Hc. now rewrite Hc, IH.
Qed.

Lemma split_on_length (sep : ascii) (s : string) :
  List.length (split_on sep s) = S (occurrences sep s).
Proof.
  induction s as [|c s IH]; cbn [split_on occurrences]; [reflexivity|].
  destruct (Ascii.eqb c sep); cbn [List.length]; [now rewrite IH|].
  destruct (split_on sep s); cbn [List.length] in *; [discriminate | exact IH].
Qed.

Lemma split_on_join (sep : ascii) (words : list string) :
  words <> [] ->
  Forall (fun word => without sep word = true) words ->
  split_on sep (join (String sep EmptyString) words) = words.
Proof.
  intros Hne Hwords. induction words as [|a words IH]; [contradiction|].
  inversion Hwords as [|? ? Ha Hrest]; subst.
  destruct words as [|b words].
  - cbn [join]. now apply split_on_without.
  - change (join (String sep EmptyString) (a :: b :: words))
      with (a ++ String sep (join (String sep EmptyString) (b :: words)))%string.
    rewrite split_on_app by exact Ha. f_equal.
    apply IH; [discriminate | exact Hrest].
Qed.

Lemma nonempty_app_r (a b : string) :
  nonempty b = true -> nonempty (a ++ b) = true.
Proof. destruct a; [trivial | reflexivity]. Qed.

Lemma nonempty_app_l (a b : string) :
  nonempty a = true -> nonempty (a ++ b) = true.
Proof. destruct a; [discriminate | reflexivity]. Qed.

Lemma dict_of_items_pairs (kvs : list (string * string)) :
  forall d : list (string * string),
    NoDup (map fst kvs) ->
    (forall k, In k (map fst kvs) -> ~ In k (map fst d)) ->
    dict_of_items (map (fun kv => [fst kv; snd kv]) kvs) d = Ok (d ++ kvs).
Proof.
  induction kvs as [|[k v] kvs IH]; intros d Hnd Hfresh; cbn [map dict_of_items fst snd].
  - now rewrite app_nil_r.
  - inversion Hnd as [|? ? Hk Hnd']; subst.
    rewrite dict_set_new by (apply Hfresh; now left).
    rewrite IH; [now rewrite <- app_assoc | exact Hnd' |].
    intros k' Hk'. rewrite map_app, in_app_iff. cbn [map fst In].
    intros [Hin|[E|[]]].
    + apply (Hfresh k'); [now right | exact Hin].
    + subst k'. contradiction.
Qed.

Lemma dict_of_items_rejects (items : list (list string)) (item : list string) :
  forall d : list (string * string),
    In item items ->
    List.length item <> 2%nat ->
    dict_of_items items d = Raise ValueError.
Proof.
  induction items as [|first items IH]; intros d Hin Hlen; [destruct Hin|].
  destruct first as [|k [|v [|x first]]]; cbn [dict_of_items]; try reflexivity.
  destruct Hin as [<-|Hin]; [now contradiction Hlen|].
  now apply IH.
Qed.

(** X23: constants written as [key=value] items separated by commas, with
    distinct keys and neither sign inside a key or a value, are read as
    these pairs, in order and as typed, spaces included. *)
Theorem parse_constants_round_trip (kvs : list (string * string)) :
  kvs <> [] ->
  NoDup (map fst kvs) ->
  Forall (fun kv => without "," (fst kv) = true /\ without "=" (fst kv) = true /\
                    without "," (snd kv) = true /\ without "=" (snd kv) = true)
         kvs ->
  parse_constants (join "," (map (fun kv => fst kv ++ "=" ++ snd kv) kvs)%string) =
  Ok kvs.
Proof.
  intros Hne Hnd Hkvs. unfold parse_constants.
  assert (Hnonempty :
    nonempty (join "," (map (fun kv => fst kv ++ "=" ++ snd kv) kvs)%string) = true).
  { destruct kvs as [|[k v] kvs]; [contradiction|]. cbn [map fst snd].
    assert (Hitem : nonempty (k ++ "=" ++ v) = true) by now apply nonempty_app_r.
    destruct (map _ kvs); cbn [join]; [exact Hitem | now apply nonempty_app_l]. }
  rewrite Hnonempty.
  rewrite split_on_join.
  - rewrite map_map.
    rewrite (map_ext_in _ (fun kv => [fst kv; snd kv])).
    + now apply (dict_of_items_pairs kvs []).
    + intros [k v] Hin. rewrite Forall_forall in Hkvs.
      destruct (Hkvs _ Hin) as [_ [Hk [_ Hv]]]. cbn [fst snd] in *.
      change (k ++ "=" ++ v)%string with (k ++ String "=" v)%string.
      rewrite split_on_app by exact Hk. now rewrite split_on_without.
  - destruct kvs; [contradiction | discriminate].
  - apply Forall_forall. intros word Hword. apply in_map_iff in Hword.
    destruct Hword as [[k v] [<- Hin]]. rewrite Forall_forall in Hkvs.
    destruct (Hkvs _ Hin) as [Hk [_ [Hv _]]]. cbn [fst snd] in *.
    clear - Hk Hv. induction k as [|c k IH]; cbn [String.append without] in *.
    + exact Hv.
    + apply andb_true_iff in Hk. destruct Hk as [Hc Hk].
      rewrite Hc. now apply IH.
Qed.

(** X24: a constants text with an item that holds no [=], or more than
    one, the empty item after a trailing comma included, makes
    [coerce_arg_types] raise ValueError. *)
Theorem parse_constants_rejects_item (constants item : string) :
  nonempty constants = true ->
  In item (split_on "," constants) ->
  occurrences "=" item <> 1%nat ->
  parse_constants constants = Raise ValueError.
Proof.
  intros Hne Hin Hcount. unfold parse_constants. rewrite Hne.
  apply (dict_of_items_rejects _ (split_on "=" item)).
  - now apply in_map.
  - rewrite split_on_length. lia.
Qed.

Lemma parse_constants_round_trip_witness :
  parse_constants
    (join "," (map (fun kv => fst kv ++ "=" ++ snd kv)
                   [("block_id", "1000"); (" array_index", "1")])%string) =
  Ok [("block_id", "1000"); (" array_index", "1")]%string.
Proof.
  apply (parse_constants_round_trip
           [("block_id", "1000"); (" array_index", "1")]%string).
  - discriminate.
  - repeat constructor; cbn [In map fst]; intuition discriminate.
  - repeat constructor.
Defined.

Lemma parse_constants_rejects_item_witness :
  parse_constants "id=1," = Raise ValueError.
Proof.
  apply (parse_constants_rejects_item "id=1," EmptyString).
  - reflexivity.
  - cbn. auto.
  - cbn. lia.
Defined.

(** ** Ties between grid timestamps, and a capture that always ends *)

(** [sorted] is stable: its first element is the first of the elements
    of least key. *)
Lemma sorted_first_least {A : Type} (key : A -> Z) (l : list A) (t : A)
    (rest : list A) :
  sorted key l = t :: rest ->
  exists before after,
    l = before ++ t :: after /\
    (forall x, In x before -> key t < key x) /\
    (forall x, In x after -> key t <= key x).
Proof.
  revert t rest. induction l as [|a l IH]; intros t rest; [discriminate|].
  unfold sorted. cbn [sort_by]. fold (sorted key l).
  destruct (sorted key l) as [|b r] eqn:E.
  - apply sorted_nil in E. subst l. cbn [insert_by]. intros Ht.
    injection Ht as <- _. exists [], []. repeat split; intros x [].
  - destruct (IH b r eq_refl) as [before [after [Hl [Hbefore Hafter]]]].
    cbn [insert_by]. destruct (Z.leb_spec (key a) (key b)) as [Hle|Hgt]; intros Ht;
      injection Ht as <- _.
    + exists [], l. split; [reflexivity|]. split; [intros x []|].
      intros x Hx. rewrite Hl in Hx. apply in_app_or in Hx.
      destruct Hx as [Hx|[<-|Hx]]; [specialize (Hbefore x Hx) | | specialize (Hafter x Hx)];
        lia.
    + exists (a :: before), after. split; [now rewrite Hl|].
      split; [|exact Hafter].
      intros x [<-|Hx]; [lia | now apply Hbefore].
Qed.

Section TieFacts.
Context {Y : Type} `{FloatOps Y}.

(** The head of the later grid timestamps sorted by their distance to
    [x_pd]: on the grid, after [cur], no later grid timestamp is nearer,
    and on an increasing grid none as near is earlier. *)
Lemma nearest_later (grid : list Z) (cur x_pd target_x : Z) (rest : list Z) :
  sorted (fun x => Z.abs (x - x_pd)) (filter (fun x => cur <? x) grid) =
    target_x :: rest ->
  In target_x grid /\
  cur < target_x /\
  forall x, In x grid -> cur < x ->
    Z.abs (target_x - x_pd) <= Z.abs (x - x_pd) /\
    (StronglySorted Z.lt grid ->
     Z.abs (x - x_pd) = Z.abs (target_x - x_pd) -> target_x <= x).
Proof.
  intros E. pose proof (sorted_first _ _ _ _ E) as [Hin Hmin].
  apply filter_In in Hin. destruct Hin as [Hin Hlt]. apply Z.ltb_lt in Hlt.
  split; [exact Hin|]. split; [exact Hlt|].
  intros x Hx Hcx.
  assert (Hxl : In x (filter (fun x => cur <? x) grid)).
  { apply filter_In. split; [exact Hx | now apply Z.ltb_lt]. }
  split; [now apply (Hmin x)|].
  intros Hs Htie. apply sorted_first_least in E.
  destruct E as [before [after [Hl [Hbefore Hafter]]]].
  pose proof (StronglySorted_filter Z.lt (fun x => cur <? x) _ Hs) as Hsf.
  rewrite Hl in Hxl, Hsf. apply in_app_or in Hxl.
  destruct Hxl as [Hb|[<-|Ha]].
  - specialize (Hbefore x Hb). cbv beta in Hbefore. lia.
  - lia.
  - clear - Hsf Ha. induction before as [|a before IH]; cbn [app] in Hsf.
    + inversion Hsf as [|? ? _ Hall]; subst. rewrite Forall_forall in Hall.
      specialize (Hall x Ha). lia.
    + inversion Hsf; subst. now apply IH.
Qed.

(** X25: when two grid timestamps after [current_x] are equally near to
    the timestamp of the click and none is nearer, [get_target_x_coord]
    returns the earlier one. *)
Theorem get_target_x_coord_tie_goes_to_earlier (self : PlotArtist Y)
    (cur target_x : Z) (x_sel : Y) :
  StronglySorted Z.lt (allowed_x self) ->
  current_x self = Some cur ->
  get_target_x_coord self x_sel = Ok (Some target_x) ->
  exists x_pd : Z,
    click_timestamp (tz self) x_sel = Ok x_pd /\
    forall x, In x (allowed_x self) -> cur < x ->
      Z.abs (x - x_pd) = Z.abs (target_x - x_pd) ->
      target_x <= x.
Proof.
  intros Hs Hcur Htarget.
  destruct (get_target_x_coord_returns self cur x_sel _ Hcur Htarget)
    as [x_pd [Hpd Er]].
  exists x_pd. split; [exact Hpd|]. intros x Hx Hlt Htie.
  destruct (sorted _ _) as [|t rest] eqn:E; [discriminate|].
  injection Er as <-.
  destruct (nearest_later _ _ _ _ _ E) as [_ [_ Hnear]].
  now apply (Hnear x Hx Hlt).
Qed.


(** The series is in progress: there is a grid timestamp after
    [current_x]. *)
Lemma in_progress_has_later (self : PlotArtist Y) (cur last : Z) :
  built_grid self ->
  covered_run self ->
  last_item (allowed_x self) = Ok last ->
  current_x self = Some cur ->
  cur <> last ->
  exists x, In x (allowed_x self) /\ cur < x.
Proof.
  intros Hgrid Hrun Hlast Hcur Hne.
  destruct (covered_run_prefix self Hgrid Hrun)
    as [size [n [Hsize [Hn [Hpts Hpos]]]]].
  rewrite Hcur in Hpos. destruct Hpos as [Hn0 Ecur].
  destruct Hgrid as [Hp _]. rewrite Hsize in Hlast |- *.
  apply last_item_progression in Hlast. destruct Hlast as [Hsz Elast].
  assert (Hlt : (n < size)%nat).
  { destruct (Nat.eq_dec n size) as [->|]; [|lia].
    exfalso. apply Hne. now rewrite Ecur, Elast. }
  exists (start self + Z.of_nat n * period self). split.
  - apply In_progression. exists n. split; [lia | reflexivity].
  - rewrite Ecur. nia.
Qed.

(** C3: while a series is in progress on the grid the constructor built
    (the recorded points cover the grid up to [current_x], which is not the
    last grid timestamp), [add_points] answers false when the wait ends
    without a click; for a click, [get_target_x_coord] never returns none,
    so that case of the claim does not arise; and when [add_points]
    returns, it has recorded the selection at the snapped timestamp and
    answers true unless that timestamp is the last of the grid, in which
    case it answers false.  When it answers true the series is still in
    progress, so the same holds at the next click of the capture loop. *)
Theorem add_points_in_progress (self : PlotArtist Y) (last : Z) (x_sel y : Y)
    (more : list (Y * Y)) :
  built_grid self ->
  covered_run self ->
  last_item (allowed_x self) = Ok last ->
  current_x self <> Some last ->
  add_points self [] = Ok (self, false) /\
  get_target_x_coord self x_sel <> Ok None /\
  forall (self' : PlotArtist Y) (continue_loop : bool),
    add_points self ((x_sel, y) :: more) = Ok (self', continue_loop) ->
    exists target_x,
      get_target_x_coord self x_sel = Ok (Some target_x) /\
      plot_selection self target_x y = Ok self' /\
      current_x self' = Some target_x /\
      continue_loop = negb (target_x =? last) /\
      (continue_loop = true ->
       built_grid self' /\ covered_run self' /\
       last_item (allowed_x self') = Ok last /\ current_x self' <> Some last).
Proof.
  intros Hgrid Hrun Hlast Hprogress.
  assert (Hsome : get_target_x_coord self x_sel <> Ok None).
  { intros Hnone. destruct (current_x self) as [cur|] eqn:Hcur.
    - destruct (get_target_x_coord_returns self cur x_sel None Hcur Hnone)
        as [x_pd [_ Er]].
      destruct (in_progress_has_later self cur last Hgrid Hrun Hlast Hcur)
        as [x [Hx Hlt]]; [congruence|].
      destruct (sorted _ _) as [|t rest] eqn:E; [|discriminate].
      apply sorted_nil in E.
      assert (Hin : In x (filter (fun x => cur <? x) (allowed_x self))).
      { apply filter_In. split; [exact Hx | now apply Z.ltb_lt]. }
      rewrite E in Hin. destruct Hin.
    - unfold get_target_x_coord in Hnone. rewrite Hcur in Hnone.
      unfold last_item in Hlast.
      destruct (allowed_x self); [discriminate Hlast | discriminate Hnone]. }
  split; [reflexivity|]. split; [exact Hsome|].
  intros self' continue_loop Hadd.
  destruct (get_target_x_coord self x_sel) as [[target_x|]|e] eqn:Htarget;
    [| contradiction | unfold add_points in Hadd; rewrite Htarget in Hadd;
                       discriminate].
  destruct (plot_selection self target_x y) as [self1|e] eqn:Hplot;
    [|unfold add_points in Hadd; rewrite Htarget in Hadd; cbn [rbind] in Hadd;
      rewrite Hplot in Hadd; discriminate].
  rewrite (add_points_records self self1 x_sel y more target_x last
             Htarget Hplot Hlast) in Hadd.
  injection Hadd as <- <-.
  assert (Hcur1 : current_x self1 = Some target_x).
  { unfold plot_selection in Hplot.
    destruct (interpolated self target_x y); cbn [rbind] in Hplot; [|discriminate].
    now injection Hplot as <-. }
  exists target_x. split; [reflexivity|]. split; [exact Hplot|].
  split; [exact Hcur1|]. split; [reflexivity|].
  intros Hcontinue.
  destruct (plot_selection_frame self self1 target_x y Hplot)
    as [Es [Ee [Ep [Ea [Etz Ed]]]]].
  split; [unfold built_grid in *; now rewrite Es, Ee, Ep, Ea|].
  split; [now apply (selection_keeps_run self self1 x_sel y target_x)|].
  split; [now rewrite Ea|].
  rewrite Hcur1. intros E. injection E as ->.
  rewrite Z.eqb_refl in Hcontinue. discriminate.
Qed.


Hypothesis fdiv_total_minutes :
  forall (a : Y) (d : Z), d <> 0 -> fdiv a (total_minutes d) <> None.



End TieFacts.

Lemma get_target_x_coord_tie_goes_to_earlier_witness :
  get_target_x_coord session_first_point (Q2Qc (15 # 2880)) = Ok (Some (5 * minute)) /\
  exists x_pd : Z,
    click_timestamp (tz session_first_point) (Q2Qc (15 # 2880)) = Ok x_pd /\
    forall x, In x (allowed_x session_first_point) -> 0 < x ->
      Z.abs (x - x_pd) = Z.abs (5 * minute - x_pd) -> 5 * minute <= x.
Proof.
  split; [reflexivity|].
  apply (get_target_x_coord_tie_goes_to_earlier session_first_point 0 (5 * minute)
           (Q2Qc (15 # 2880))).
  - repeat constructor.
  - reflexivity.
  - reflexivity.
Defined.


(** C5 as stated fails in two ways.  In UTC, on the grid 0 s, 10 s, ...,
    50 s with the first point at 0 s, a click at 3/16384 day, which is
    15.8203125 s, is rounded down to 15 s, as far from 10 s as from 20 s,
    and snaps to 10 s although 20 s is nearer to the click.  In US/Eastern,
    on the grid 00:00, 00:05, 00:10, 00:15 local time with the first point
    at 00:00, a click at 27/128 day, which is 00:03:45 local time, is read
    as 05:03:45 local time and snaps to 00:15 although 00:05 is nearer. *)
Lemma get_target_x_coord_nearest_counterexample :
  (current_x session_ten_seconds = Some 0 /\
   (exists days : Q,
      double_value (click_at_days 3 14) = Some days /\
      (days * inject_Z 86400 * inject_Z second == inject_Z 15820312500)%Q) /\
   get_target_x_coord session_ten_seconds (click_at_days 3 14) =
     Ok (Some (10 * second)) /\
   In (20 * second) (allowed_x session_ten_seconds) /\
   0 < 20 * second /\
   Z.abs (20 * second - 15820312500) < Z.abs (10 * second - 15820312500)) /\
  (current_x session_eastern = Some (300 * minute) /\
   (exists days : Q,
      double_value (click_at_days 27 7) = Some days /\
      (days * inject_Z 86400 * inject_Z second == inject_Z (18225 * second))%Q) /\
   get_target_x_coord session_eastern (click_at_days 27 7) =
     Ok (Some (315 * minute)) /\
   In (305 * minute) (allowed_x session_eastern) /\
   300 * minute < 305 * minute /\
   Z.abs (305 * minute - 18225 * second) < Z.abs (315 * minute - 18225 * second)).
Proof.
  split.
  - split; [reflexivity|].
    split; [eexists; split; [vm_compute; reflexivity | reflexivity]|].
    split; [vm_compute; reflexivity|].
    split; [simpl; auto|]. split; reflexivity.
  - split; [reflexivity|].
    split; [eexists; split; [vm_compute; reflexivity | reflexivity]|].
    split; [vm_compute; reflexivity|].
    split; [simpl; auto|]. split; reflexivity.
Qed.

Lemma add_points_in_progress_witness :
  add_points session_first_point [] = Ok (session_first_point, false) /\
  get_target_x_coord session_first_point (click_at_minute 12) <> Ok None /\
  forall (self' : PlotArtist Qc) (continue_loop : bool),
    add_points session_first_point [(click_at_minute 12, Zc 11)] =
      Ok (self', continue_loop) ->
    exists target_x,
      get_target_x_coord session_first_point (click_at_minute 12) =
        Ok (Some target_x) /\
      plot_selection session_first_point target_x (Zc 11) = Ok self' /\
      current_x self' = Some target_x /\
      continue_loop = negb (target_x =? 15 * minute) /\
      (continue_loop = true ->
       built_grid self' /\ covered_run self' /\
       last_item (allowed_x self') = Ok (15 * minute) /\
       current_x self' <> Some (15 * minute)).
Proof.
  apply (add_points_in_progress session_first_point (15 * minute)
           (click_at_minute 12) (Zc 11) []).
  - split; reflexivity.
  - exists 0%nat. split; reflexivity.
  - reflexivity.
  - discriminate.
Defined.



